(** * DeepLX relay: request shaping, header preparation and rate limiting

    A shallow embedding of [src/lib/query.ts], [src/lib/rateLimit.ts] and
    [src/lib/proxyManager.ts], followed by the properties proved about it.

    Conventions of the embedding:
    - a JavaScript string is the list of its UTF-16 code units;
    - integral numbers (timestamps, request ids, lengths) are [Z], and the
      remainder operator [%] is [Z.rem] (sign of the dividend);
    - the token counts of the rate limiter are rationals ([Q]), exact in
      [RateLimit] and rounded after each operation in [Detached];
    - the fields of a request are run-time values of any type;
    - [Date.now()] and [Math.random()] are read from explicit arguments;
    - a thrown exception is the left injection of a sum. *)

From Stdlib Require Import ZArith NArith QArith Qminmax Lia Lra Lqa.
From Stdlib Require Import String Ascii List DecimalString.
From stdpp Require Import base option list gmap.
Import ListNotations.

(** ** JavaScript strings and the built-ins the sources call *)

Module JS.

Abbreviation jsstring := (list N).

(** A literal of the source text (ASCII only). *)
Definition lit (s : string) : jsstring :=
  List.map N_of_ascii (list_ascii_of_string s).

Definition dquote : N := 34%N.

(** [s] written between double quotes, without any escaping. *)
Definition quoted (s : string) : jsstring := dquote :: lit s ++ [dquote].

Definition str_eqb (a b : jsstring) : bool := bool_decide (a = b).

(** [String.prototype.length]. *)
Definition str_length (s : jsstring) : Z := Z.of_nat (length s).

(** Truthiness of a string: only the empty string is falsy. *)
Definition truthy (s : jsstring) : bool :=
  match s with [] => false | _ => true end.

Definition is_upper (c : N) : bool := (65 <=? c)%N && (c <=? 90)%N.
Definition is_lower (c : N) : bool := (97 <=? c)%N && (c <=? 122)%N.
Definition is_ascii (c : N) : bool := (c <? 128)%N.

(** [toLowerCase] and [toUpperCase] on the ASCII range. Code units
    outside it are left as they are: the Unicode case tables are not part
    of the model, and the statements that depend on case mapping are about
    ASCII input. *)
Definition lower_unit (c : N) : N := if is_upper c then (c + 32)%N else c.
Definition upper_unit (c : N) : N := if is_lower c then (c - 32)%N else c.
Definition toLowerCase (s : jsstring) : jsstring := List.map lower_unit s.
Definition toUpperCase (s : jsstring) : jsstring := List.map upper_unit s.

(** [s.startsWith(p)]. *)
Fixpoint startsWith (s p : jsstring) {struct p} : bool :=
  match p, s with
  | [], _ => true
  | _ :: _, [] => false
  | b :: p', a :: s' => (a =? b)%N && startsWith s' p'
  end.

(** [s.split(sep)] for a separator of one code unit. *)
Fixpoint split (sep : N) (s : jsstring) : list jsstring :=
  match s with
  | [] => [[]]
  | c :: s' =>
      if (c =? sep)%N then [] :: split sep s'
      else match split sep s' with
           | [] => [[c]]
           | piece :: pieces => (c :: piece) :: pieces
           end
  end.

(** [s.replace(pat, rep)] for a string pattern: the first occurrence only.
    The replacement texts of the sources contain no [$]. *)
Fixpoint replace (pat rep s : jsstring) : jsstring :=
  if startsWith s pat then rep ++ drop (length pat) s
  else match s with
       | [] => []
       | c :: s' => c :: replace pat rep s'
       end.

(** White space and line terminators, as [String.prototype.trim] sees them. *)
Definition is_js_whitespace (c : N) : bool :=
  bool_decide (c ∈ [9; 10; 11; 12; 13; 32; 160; 5760; 8232; 8233; 8239; 8287;
                    12288; 65279]%N)
  || ((8192 <=? c)%N && (c <=? 8202)%N).

Fixpoint trim_start (s : jsstring) : jsstring :=
  match s with
  | c :: s' => if is_js_whitespace c then trim_start s' else s
  | [] => []
  end.

(** [s.trim()]. *)
Definition trim (s : jsstring) : jsstring :=
  rev (trim_start (rev (trim_start s))).

(** Decimal rendering of an integral number, as [JSON.stringify] and
    template literals print it below 1e21. *)
Definition number_to_string (z : Z) : jsstring :=
  lit (NilZero.string_of_int (Z.to_int z)).

Definition is_high_surrogate (c : N) : bool := (55296 <=? c)%N && (c <=? 56319)%N.
Definition is_low_surrogate (c : N) : bool := (56320 <=? c)%N && (c <=? 57343)%N.

Definition hex_digit (d : N) : N :=
  if (d <? 10)%N then (48 + d)%N else (87 + d)%N.

(** The six-character escape [\uXXXX], in lower-case hexadecimal. *)
Definition unicode_escape (c : N) : jsstring :=
  [92; 117; hex_digit (c / 4096 mod 16); hex_digit (c / 256 mod 16);
   hex_digit (c / 16 mod 16); hex_digit (c mod 16)]%N.

(** What [QuoteJSONString] emits for one code unit that is no surrogate. *)
Definition json_escape_unit (c : N) : jsstring :=
  if (c =? 8)%N then lit "\b"
  else if (c =? 9)%N then lit "\t"
  else if (c =? 10)%N then lit "\n"
  else if (c =? 12)%N then lit "\f"
  else if (c =? 13)%N then lit "\r"
  else if (c =? 34)%N then [92; 34]%N
  else if (c =? 92)%N then [92; 92]%N
  else if (c <? 32)%N then unicode_escape c
  else [c].

(** The characters between the quotes of [JSON.stringify(s)]: a surrogate
    pair is kept, a lone surrogate is escaped. *)
Fixpoint json_escape (s : jsstring) : jsstring :=
  match s with
  | [] => []
  | c :: rest =>
      if is_high_surrogate c then
        match rest with
        | d :: rest' =>
            if is_low_surrogate d then c :: d :: json_escape rest'
            else unicode_escape c ++ json_escape rest
        | [] => unicode_escape c
        end
      else if is_low_surrogate c then unicode_escape c ++ json_escape rest
      else json_escape_unit c ++ json_escape rest
  end.

(** [JSON.stringify] of a string value. *)
Definition json_string (s : jsstring) : jsstring :=
  dquote :: json_escape s ++ [dquote].

(** [new TextEncoder().encode(s).length]: the UTF-8 length, a lone
    surrogate being encoded as U+FFFD. *)
Fixpoint utf8_length (s : jsstring) : Z :=
  match s with
  | [] => 0
  | c :: rest =>
      if (c <? 128)%N then 1 + utf8_length rest
      else if (c <? 2048)%N then 2 + utf8_length rest
      else if is_high_surrogate c then
        match rest with
        | d :: rest' =>
            if is_low_surrogate d then 4 + utf8_length rest'
            else 3 + utf8_length rest
        | [] => 3
        end
      else 3 + utf8_length rest
  end%Z.

(** Code-unit order, the order of [Array.prototype.sort] on strings. *)
Fixpoint str_ltb (a b : jsstring) : bool :=
  match a, b with
  | _, [] => false
  | [], _ :: _ => true
  | x :: a', y :: b' => (x <? y)%N || ((x =? y)%N && str_ltb a' b')
  end.

End JS.

(** ** Values, errors and JSON rendering *)

Module Value.
Import JS.

(** The run-time values that reach the modelled functions. A function
    value and the object [Object.prototype] appear because a property read
    on an object literal also sees what the literal inherits. *)
Inductive value :=
| VUndefined
| VNull
| VBoolean (b : bool)
| VNumber (z : Z)
| VString (s : jsstring)
| VFunction (name : jsstring)
| VObjectPrototype.

(** [ToBoolean]. *)
Definition truthy_value (v : value) : bool :=
  match v with
  | VUndefined | VNull => false
  | VBoolean b => b
  | VNumber z => negb (z =? 0)%Z
  | VString s => truthy s
  | VFunction _ | VObjectPrototype => true
  end.

Definition is_string (v : value) : bool :=
  match v with VString _ => true | _ => false end.

(** An [Error] object with the fields the sources attach to it. *)
Record Error := mkError {
  message : jsstring;
  name : jsstring;
  code : option Z;
  status : option Z;
  originalMessage : option jsstring
}.

(** [new Error(msg)]. *)
Definition new_Error (msg : jsstring) : Error :=
  {| message := msg; name := lit "Error"; code := None; status := None;
     originalMessage := None |}.

Definition new_TypeError (msg : jsstring) : Error :=
  {| message := msg; name := lit "TypeError"; code := None; status := None;
     originalMessage := None |}.

(** The names every object literal inherits from [Object.prototype]. *)
Definition Object_prototype_functions : list jsstring :=
  List.map lit
    ["constructor"; "hasOwnProperty"; "isPrototypeOf"; "propertyIsEnumerable";
     "toLocaleString"; "toString"; "valueOf"; "__defineGetter__";
     "__defineSetter__"; "__lookupGetter__"; "__lookupSetter__"]%string.

(** [Object.prototype[k]], seen through an object that inherits from it. *)
Definition Object_prototype_get (k : jsstring) : value :=
  if bool_decide (k ∈ Object_prototype_functions) then VFunction k
  else if str_eqb k (lit "__proto__") then VObjectPrototype
  else VUndefined.

(** [obj[k]] for an object literal with the own properties [own]. *)
Fixpoint object_get (own : list (jsstring * jsstring)) (k : jsstring) : value :=
  match own with
  | [] => Object_prototype_get k
  | (k', v) :: own' => if str_eqb k k' then VString v else object_get own' k
  end.

(** [JSON.stringify] of a property value; [None] when the property is
    left out of the enclosing object. *)
Definition json_value (v : value) : option jsstring :=
  match v with
  | VUndefined | VFunction _ => None
  | VNull => Some (lit "null")
  | VBoolean b => Some (lit (if b then "true" else "false"))
  | VNumber z => Some (number_to_string z)
  | VString s => Some (json_string s)
  | VObjectPrototype => Some (lit "{}")
  end.

Fixpoint join (sep : jsstring) (parts : list jsstring) : jsstring :=
  match parts with
  | [] => []
  | [p] => p
  | p :: ps => p ++ sep ++ join sep ps
  end.

Definition json_member (m : string * option jsstring) : option jsstring :=
  match m with
  | (k, Some v) => Some (quoted k ++ lit ":" ++ v)
  | (_, None) => None
  end.

(** An object with the given members, in property order. *)
Definition json_object (members : list (string * option jsstring)) : jsstring :=
  lit "{" ++ join (lit ",") (omap json_member members) ++ lit "}".

Definition json_array (items : list jsstring) : jsstring :=
  lit "[" ++ join (lit ",") items ++ lit "]".

End Value.

(** ** The [Headers] class of the Fetch standard

    [prepareRequestHeaders] is written against the platform's [Headers]
    class. The class is modelled after the Fetch standard: a header list
    whose names match byte-case-insensitively, whose values are normalised
    on entry, and whose mutators reject what is no header name or header
    value with a [TypeError]. Objects live in a heap, so that building a new
    collection and changing an existing one are different things. *)

Module Fetch.
Import JS Value.

Abbreviation header := (jsstring * jsstring)%type.
Abbreviation header_list := (list (jsstring * jsstring)).

(** The token characters of RFC 9110. *)
Definition is_tchar (c : N) : bool :=
  is_upper c || is_lower c || ((48 <=? c)%N && (c <=? 57)%N)
  || bool_decide (c ∈ [33; 35; 36; 37; 38; 39; 42; 43; 45; 46; 94; 95; 96; 124; 126]%N).

Definition is_header_name (s : jsstring) : bool := truthy s && forallb is_tchar s.

Definition is_http_whitespace (c : N) : bool :=
  bool_decide (c ∈ [9; 10; 13; 32]%N).

Fixpoint strip_leading (s : jsstring) : jsstring :=
  match s with
  | c :: s' => if is_http_whitespace c then strip_leading s' else s
  | [] => []
  end.

(** Normalisation of a value: leading and trailing HTTP whitespace go. *)
Definition normalize (s : jsstring) : jsstring :=
  rev (strip_leading (rev (strip_leading s))).

(** A normalised value is a header value when it holds no NUL, LF or CR. *)
Definition is_header_value (s : jsstring) : bool :=
  forallb (fun c => negb (bool_decide (c ∈ [0; 10; 13]%N))) s.

(** The conversion to a Web IDL [ByteString] succeeds on these. *)
Definition is_byte_string (s : jsstring) : bool := forallb (fun c => (c <=? 255)%N) s.

Definition same_name (a b : jsstring) : bool :=
  str_eqb (toLowerCase a) (toLowerCase b).

Definition contains (hl : header_list) (name : jsstring) : bool :=
  existsb (fun h => same_name (fst h) name) hl.

(** The values stored under [name], in list order. *)
Definition values_of (hl : header_list) (name : jsstring) : list jsstring :=
  List.map snd (List.filter (fun h => same_name (fst h) name) hl).

(** Getting a header: the values joined by [", "], or [None] (null). *)
Definition get (hl : header_list) (name : jsstring) : option jsstring :=
  if contains hl name then Some (join (lit ", ") (values_of hl name)) else None.

Definition invalid_header : Error := new_TypeError (lit "Invalid header").

(** Appending to a header list, with the validation of the class. A name
    already present is written the way its first header writes it. *)
Definition append (hl : header_list) (name value : jsstring) : Error + header_list :=
  let value := normalize value in
  if is_byte_string name && is_byte_string value
     && is_header_name name && is_header_value value
  then
    let name :=
      match List.find (fun h => same_name (fst h) name) hl with
      | Some h => fst h
      | None => name
      end in
    inr (hl ++ [(name, value)])
  else inl invalid_header.

Definition delete_all (hl : header_list) (name : jsstring) : header_list :=
  List.filter (fun h => negb (same_name (fst h) name)) hl.

(** [headers.delete(name)]. *)
Definition delete (hl : header_list) (name : jsstring) : Error + header_list :=
  if is_byte_string name && is_header_name name
  then inr (delete_all hl name)
  else inl invalid_header.

(** Setting in a header list: the first header of that name takes the
    value and the others go; without one the header is appended. *)
Fixpoint set_first (hl : header_list) (name value : jsstring) : header_list :=
  match hl with
  | [] => [(name, value)]
  | h :: hl' =>
      if same_name (fst h) name then (fst h, value) :: delete_all hl' name
      else h :: set_first hl' name value
  end.

(** [headers.set(name, value)]. *)
Definition set (hl : header_list) (name value : jsstring) : Error + header_list :=
  let value := normalize value in
  if is_byte_string name && is_byte_string value
     && is_header_name name && is_header_value value
  then inr (set_first hl name value)
  else inl invalid_header.

Fixpoint insert_sorted (x : jsstring) (l : list jsstring) : list jsstring :=
  match l with
  | [] => [x]
  | y :: l' =>
      if str_eqb x y then l
      else if str_ltb x y then x :: l
      else y :: insert_sorted x l'
  end.

(** The lower-cased names of a list, sorted, each once. *)
Definition sorted_names (hl : header_list) : list jsstring :=
  List.fold_right insert_sorted [] (List.map (fun h => toLowerCase (fst h)) hl).

(** "Sort and combine": what iterating a [Headers] object yields. *)
Definition sort_and_combine (hl : header_list) : list header :=
  List.flat_map
    (fun name =>
       if str_eqb name (lit "set-cookie")
       then List.map (fun v => (name, v)) (values_of hl name)
       else [(name, join (lit ", ") (values_of hl name))])
    (sorted_names hl).

(** [Array.from(headers.keys())]. *)
Definition keys (hl : header_list) : list jsstring :=
  List.map fst (sort_and_combine hl).

(** Filling a fresh list from a sequence of pairs. *)
Fixpoint fill (pairs : list header) (hl : header_list) : Error + header_list :=
  match pairs with
  | [] => inr hl
  | (n, v) :: pairs' =>
      match append hl n v with
      | inl e => inl e
      | inr hl' => fill pairs' hl'
      end
  end.

(** *** Objects *)

Abbreviation loc := nat.
Abbreviation heap := (gmap nat (list (jsstring * jsstring))).

(** A computation that may throw and may change the heap. *)
Definition M (A : Type) : Type := heap → (Error + A) * heap.

Definition ret {A} (a : A) : M A := fun h => (inr a, h).
Definition throw {A} (e : Error) : M A := fun h => (inl e, h).
Definition bind {A B} (m : M A) (k : A → M B) : M B :=
  fun h => match m h with
           | (inl e, h') => (inl e, h')
           | (inr a, h') => k a h'
           end.

(** The state of the object at [l]. *)
Definition read (l : loc) : M header_list :=
  fun h => (inr (default [] (h !! l)), h).

(** Run a list operation on the object at [l], in place. *)
Definition update (l : loc) (op : header_list → Error + header_list) : M unit :=
  fun h => match op (default [] (h !! l)) with
           | inl e => (inl e, h)
           | inr hl => (inr tt, <[l := hl]> h)
           end.

(** What a caller may pass where [HeadersInit] is expected. *)
Inductive HeadersInit :=
| InitHeaders (l : loc)
| InitRecord (r : list (jsstring * jsstring)).

(** The pairs the constructor reads from its argument: the iteration of
    a [Headers] object, or the own properties of a record. *)
Definition init_pairs (init : HeadersInit) : M (list header) :=
  match init with
  | InitHeaders l => bind (read l) (fun hl => ret (sort_and_combine hl))
  | InitRecord r => ret r
  end.

(** [new Headers(init)]: a new object, filled from [init]. *)
Definition new_Headers (init : HeadersInit) : M loc :=
  bind (init_pairs init) (fun pairs =>
    fun h =>
      let l := fresh (dom h) in
      match fill pairs [] with
      | inl e => (inl e, h)
      | inr hl => (inr l, <[l := hl]> h)
      end).

Definition Headers_keys (l : loc) : M (list jsstring) :=
  bind (read l) (fun hl => ret (keys hl)).

Definition Headers_delete (l : loc) (name : jsstring) : M unit :=
  update l (fun hl => delete hl name).

Definition Headers_set (l : loc) (name value : jsstring) : M unit :=
  update l (fun hl => set hl name value).

Definition Headers_get (l : loc) (name : jsstring) : M (option jsstring) :=
  bind (read l) (fun hl => ret (get hl name)).

(** [for (const x of xs) body(x)]. *)
Fixpoint for_of {A} (xs : list A) (body : A → M unit) : M unit :=
  match xs with
  | [] => ret tt
  | x :: xs' => bind (body x) (fun _ => for_of xs' body)
  end.

End Fetch.

(** ** [src/lib/proxyManager.ts] *)

Module ProxyManager.
Import JS Value Fetch.

Definition USER_AGENTS : list jsstring :=
  List.map lit
    ["Mozilla/5.0 (Windows NT 10.0; Win64; x64) AppleWebKit/537.36 (KHTML, like Gecko) Chrome/120.0.0.0 Safari/537.36";
     "Mozilla/5.0 (Windows NT 10.0; Win64; x64) AppleWebKit/537.36 (KHTML, like Gecko) Chrome/120.0.0.0 Safari/537.36 Edg/120.0.0.0";
     "Mozilla/5.0 (Macintosh; Intel Mac OS X 10_15_7) AppleWebKit/605.1.15 (KHTML, like Gecko) Version/16.4 Safari/605.1.15";
     "Mozilla/5.0 (Windows NT 10.0; Win64; x64; rv:121.0) Gecko/20100101 Firefox/121.0";
     "Mozilla/5.0 (X11; Linux x86_64) AppleWebKit/537.36 (KHTML, like Gecko) Chrome/120.0.0.0 Safari/537.36"]%string.

Definition ACCEPT_LANGUAGES : list jsstring :=
  List.map lit
    ["en-US,en;q=0.9"; "en-GB,en;q=0.9"; "en-US,en;q=0.8,es;q=0.6";
     "en-US,en;q=0.9,fr;q=0.8"; "en-US,en;q=0.9,de;q=0.8"]%string.

(** [generateBrowserFingerprint]; the arguments are the two indices
    [Math.floor(Math.random() * pool.length)]. *)
Definition generateBrowserFingerprint (uaIndex langIndex : nat)
    : list (jsstring * jsstring) :=
  [(lit "User-Agent", nth uaIndex USER_AGENTS []);
   (lit "Accept-Language", nth langIndex ACCEPT_LANGUAGES []);
   (lit "Accept", lit "application/json, text/plain, */*");
   (lit "Accept-Encoding", lit "gzip, deflate, br");
   (lit "DNT", lit "1");
   (lit "Connection", lit "keep-alive");
   (lit "Upgrade-Insecure-Requests", lit "1")].

Record Env := { PROXY_URLS : option jsstring }.
Record ProxyEndpoint := { url : jsstring }.

(** [getProxyEndpoints(env)]. *)
Definition getProxyEndpoints (env : Env) : list ProxyEndpoint :=
  let proxyUrls :=
    match PROXY_URLS env with
    | Some urls => if truthy urls then List.map trim (split 44 urls) else []
    | None => []
    end in
  List.map (fun url => {| url := url |}) proxyUrls.

(** [selectProxy(env)]; [index] is
    [Math.floor(Math.random() * proxies.length)]. *)
Definition selectProxy (env : Env) (index : nat) : option ProxyEndpoint :=
  let proxies := getProxyEndpoints env in
  if (length proxies =? 0)%nat then None else nth_error proxies index.

(** The header name that carries the caller's address. The current
    module imports it from [./config]; the module's previous edition
    declares it with this value. *)
Definition REAL_CLIENT_IP_HEADER : jsstring := lit "X-Real-Client-IP".

Definition removeList : list jsstring :=
  List.map lit
    ["x-forwarded-for"; "x-client-ip"; "true-client-ip"; "x-real-ip";
     "x-real-client-ip"; "via"; "forwarded"]%string.

Section Prepare.
(** [CF_HEADER_PREFIX] is imported from [./config]: a parameter, an ASCII
    text such as the cf- of the function's comment. *)
Variable CF_HEADER_PREFIX : jsstring.

(** The test of the loop body, on a name as [keys()] yields it. *)
Definition stripped (name : jsstring) : bool :=
  let prefixLower := toLowerCase CF_HEADER_PREFIX in
  let n := toLowerCase name in
  startsWith n prefixLower || bool_decide (n ∈ removeList).

(** [prepareRequestHeaders(origHeaders, clientIp)]; [None] is an absent
    [clientIp]. *)
Definition prepareRequestHeaders (origHeaders : HeadersInit)
    (clientIp : option jsstring) : M loc :=
  bind (new_Headers origHeaders) (fun newHeaders =>
  bind (Headers_keys newHeaders) (fun names =>
  bind (for_of names (fun name =>
          if stripped name then Headers_delete newHeaders name else ret tt))
       (fun _ =>
  bind (match clientIp with
        | Some ip =>
            if truthy ip then Headers_set newHeaders REAL_CLIENT_IP_HEADER ip
            else ret tt
        | None => ret tt
        end) (fun _ =>
  ret newHeaders)))).

End Prepare.

End ProxyManager.

(** ** [src/lib/rateLimit.ts]: the token bucket

    The state is the in-memory map together with the key-value namespace.
    A check runs without interruption; the two store operations it detaches
    are given their outcome with the call. The read is served from the store
    as the check found it. In this module its callback runs as soon as the
    check has returned, before anything else, and token counts are exact
    rationals: this is the history in which every read settles at once.
    The module [Detached] below has the reads settle at any later moment
    and the counts rounded, and has this module as a special case. *)

Module RateLimit.
Import JS Value.
Local Open Scope Q_scope.

(** A record of the durable store. *)
Record RateLimitEntry := { tokens : Q; lastRefill : Z }.

(** An entry of the in-memory map [rateCache]. *)
Record CacheEntry := {
  cache_tokens : Q;
  cache_lastRefill : Z;
  cache_lastUpdate : Z
}.

(** The process-wide map and the key-value namespace of the environment. *)
Record Store := {
  rateCache : gmap jsstring CacheEntry;
  RATE_LIMIT_KV : gmap jsstring RateLimitEntry
}.

(** How the two detached store operations of one check end: the read may
    deliver nothing and the write may be lost, both silently. *)
Record KvOutcome := { get_delivers : bool; put_succeeds : bool }.

Definition DEFAULT_TOKENS_PER_MINUTE : Q := 60.
Definition REFILL_RATE : Q := DEFAULT_TOKENS_PER_MINUTE / 60.
Definition CACHE_TTL : Z := 15000.

Definition cache_set (key : jsstring) (e : CacheEntry) (st : Store) : Store :=
  {| rateCache := <[key := e]> (rateCache st); RATE_LIMIT_KV := RATE_LIMIT_KV st |}.

(** [env.RATE_LIMIT_KV.put(key, ...)], whose failure is swallowed. *)
Definition kv_put (oc : KvOutcome) (key : jsstring) (e : RateLimitEntry)
    (st : Store) : Store :=
  if put_succeeds oc
  then {| rateCache := rateCache st; RATE_LIMIT_KV := <[key := e]> (RATE_LIMIT_KV st) |}
  else st.

(** What the detached read hands to its callback. It is issued before
    the write of the same check, so it sees the store as the check found it. *)
Definition kv_get (oc : KvOutcome) (key : jsstring) (st : Store)
    : option RateLimitEntry :=
  if get_delivers oc then RATE_LIMIT_KV st !! key else None.

(** The callback of the detached read (lines 57-62); it runs once the
    synchronous part of the check is over. *)
Definition kv_refresh (key : jsstring) (now : Z) (existing : option RateLimitEntry)
    (st : Store) : Store :=
  match existing with
  | Some existing =>
      let timePassed := inject_Z (now - lastRefill existing) / 1000 in
      let kvTokens :=
        Qmin DEFAULT_TOKENS_PER_MINUTE (tokens existing + timePassed * REFILL_RATE) in
      cache_set key
        {| cache_tokens := kvTokens; cache_lastRefill := lastRefill existing;
           cache_lastUpdate := now |} st
  | None => st
  end.

(** The tokens the check starts from, and the read it leaves pending. *)
Definition available (key : jsstring) (now : Z) (oc : KvOutcome) (st : Store)
    : Q * option RateLimitEntry :=
  match rateCache st !! key with
  | Some cached =>
      if (now - cache_lastUpdate cached <? CACHE_TTL)%Z then
        let timePassed := inject_Z (now - cache_lastRefill cached) / 1000 in
        (Qmin DEFAULT_TOKENS_PER_MINUTE (cache_tokens cached + timePassed * REFILL_RATE),
         None)
      else (DEFAULT_TOKENS_PER_MINUTE, kv_get oc key st)
  | None => (DEFAULT_TOKENS_PER_MINUTE, kv_get oc key st)
  end.

(** [checkRateLimit(clientIP, env)] at the time [now]. *)
Definition checkRateLimit (clientIP : jsstring) (now : Z) (oc : KvOutcome)
    (st : Store) : bool * Store :=
  let key := lit "rate:" ++ clientIP in
  let '(tokens, pending) := available key now oc st in
  if Qlt_le_dec tokens 1 then
    let st := cache_set key
                {| cache_tokens := tokens; cache_lastRefill := now;
                   cache_lastUpdate := now |} st in
    let st := kv_put oc key {| tokens := tokens; lastRefill := now |} st in
    (false, kv_refresh key now pending st)
  else
    let tokens := tokens - 1 in
    let st := cache_set key
                {| cache_tokens := tokens; cache_lastRefill := now;
                   cache_lastUpdate := now |} st in
    let st := kv_put oc key {| tokens := tokens; lastRefill := now |} st in
    (true, kv_refresh key now pending st).

Record RateLimitResult := { allowed : bool; reason : option jsstring }.

(** [checkCombinedRateLimit(clientIP, proxyUrl, env)]; [None] is a null
    [proxyUrl]. Each of the two checks reads the clock itself. *)
Definition checkCombinedRateLimit (clientIP : jsstring) (proxyUrl : option jsstring)
    (now1 : Z) (oc1 : KvOutcome) (now2 : Z) (oc2 : KvOutcome) (st : Store)
    : RateLimitResult * Store :=
  let '(allowed, st) := checkRateLimit clientIP now1 oc1 st in
  if negb allowed then
    ({| allowed := false; reason := Some (lit "Client rate limit exceeded") |}, st)
  else
    match proxyUrl with
    | Some proxyUrl =>
        if truthy proxyUrl then
          let '(proxyAllowed, st) := checkRateLimit proxyUrl now2 oc2 st in
          if negb proxyAllowed then
            ({| allowed := false; reason := Some (lit "Proxy rate limit exceeded") |}, st)
          else ({| allowed := true; reason := None |}, st)
        else ({| allowed := true; reason := None |}, st)
    | None => ({| allowed := true; reason := None |}, st)
    end.

(** A run of checks: the identity, the time and the store outcomes of
    each call in turn, and the verdicts in order. *)
Fixpoint run (calls : list (jsstring * Z * KvOutcome)) (st : Store)
    : list bool * Store :=
  match calls with
  | [] => ([], st)
  | (clientIP, now, oc) :: calls' =>
      let '(ok, st) := checkRateLimit clientIP now oc st in
      let '(oks, st) := run calls' st in
      (ok :: oks, st)
  end.

End RateLimit.

(** ** [src/lib/query.ts]: request construction *)

Module Query.
Import JS Value.
Local Open Scope Z_scope.

Definition languageMap : list (jsstring * jsstring) :=
  List.map (fun p => (lit (fst p), lit (snd p)))
    [("chinese", "ZH"); ("english", "EN"); ("spanish", "ES"); ("french", "FR");
     ("german", "DE"); ("italian", "IT"); ("japanese", "JA");
     ("portuguese", "PT"); ("russian", "RU"); ("dutch", "NL");
     ("polish", "PL"); ("swedish", "SV"); ("danish", "DA");
     ("norwegian", "NB"); ("finnish", "FI"); ("czech", "CS");
     ("slovak", "SK"); ("slovenian", "SL"); ("estonian", "ET");
     ("latvian", "LV"); ("lithuanian", "LT"); ("hungarian", "HU");
     ("romanian", "RO"); ("bulgarian", "BG"); ("greek", "EL");
     ("turkish", "TR"); ("ukrainian", "UK"); ("korean", "KO");
     ("indonesian", "ID")]%string.

(** [normalizeLanguageCode(langCode)]; [None] is [undefined]. The table is
    an object literal, so [languageMap[normalized]] is a property read. *)
Definition normalizeLanguageCode (langCode : option jsstring) : value :=
  match langCode with
  | None => VString (lit "auto")
  | Some langCode =>
      if negb (truthy langCode) || str_eqb (toLowerCase langCode) (lit "auto")
      then VString (lit "auto")
      else
        let normalized := toLowerCase langCode in
        if truthy_value (object_get languageMap normalized)
        then object_get languageMap normalized
        else VString (toUpperCase normalized)
  end.

(** The call [normalizeLanguageCode(v)] on a value of any type: the
    annotation [string] of the parameter is erased at run time, and the
    fields of a request are whatever the caller put there. A falsy value is
    answered by the first test; a string goes on as above; any other value
    has no method [toLowerCase], and the call of it throws a TypeError. *)
Definition normalizeLanguageCode_value (langCode : value) : Error + value :=
  match langCode with
  | VString s => inr (normalizeLanguageCode (Some s))
  | _ =>
      if truthy_value langCode
      then inl (new_TypeError (lit "langCode.toLowerCase is not a function"))
      else inr (VString (lit "auto"))
  end.

(** [a || b] on a value. *)
Definition or_value (a : value) (b : jsstring) : value :=
  if truthy_value a then a else VString b.

(** [a || b] on an optional string. *)
Definition or_default (a : option jsstring) (b : jsstring) : jsstring :=
  match a with
  | Some s => if truthy s then s else b
  | None => b
  end.

Module Envelope.
Record TextItem := { text : jsstring; requestAlternatives : Z }.
Record Lang := { source_lang_user_selected : value; target_lang : value }.
Record Params := {
  texts : list TextItem;
  timestamp : Z;
  splitting : jsstring;
  lang : Lang
}.
Record RequestData := {
  jsonrpc : jsstring;
  method : jsstring;
  id : Z;
  params : Params
}.

Definition set_texts (d : RequestData) (ts : list TextItem) : RequestData :=
  {| jsonrpc := jsonrpc d; method := method d; id := id d;
     params := {| texts := ts; timestamp := timestamp (params d);
                  splitting := splitting (params d);
                  lang := lang (params d) |} |}.

Definition set_timestamp (d : RequestData) (t : Z) : RequestData :=
  {| jsonrpc := jsonrpc d; method := method d; id := id d;
     params := {| texts := texts (params d); timestamp := t;
                  splitting := splitting (params d);
                  lang := lang (params d) |} |}.

Definition stringify_text (t : TextItem) : jsstring :=
  json_object
    [("text", Some (json_string (text t)));
     ("requestAlternatives", Some (number_to_string (requestAlternatives t)))]%string.

Definition stringify_lang (l : Lang) : jsstring :=
  json_object
    [("source_lang_user_selected", json_value (source_lang_user_selected l));
     ("target_lang", json_value (target_lang l))]%string.

Definition stringify_params (p : Params) : jsstring :=
  json_object
    [("texts", Some (json_array (List.map stringify_text (texts p))));
     ("timestamp", Some (number_to_string (timestamp p)));
     ("splitting", Some (json_string (splitting p)));
     ("lang", Some (stringify_lang (lang p)))]%string.

(** [JSON.stringify(requestData)]. *)
Definition stringify (d : RequestData) : jsstring :=
  json_object
    [("jsonrpc", Some (json_string (jsonrpc d)));
     ("method", Some (json_string (method d)));
     ("id", Some (number_to_string (id d)));
     ("params", Some (stringify_params (params d)))]%string.
End Envelope.

(** The caller's request, [RequestParams]. The fields are run-time
    values: the request comes from outside, [buildRequestBody] tests the
    type of the text, and nothing tests the type of the languages before
    [normalizeLanguageCode] calls a method of them. *)
Record RequestParams := {
  text : value;
  source_lang : value;
  target_lang : value
}.

(** The limits and constants imported from [./config] and [./const],
    which are not among the sources: they are parameters. *)
Record PayloadLimits := { MAX_TEXT_LENGTH : Z; MAX_REQUEST_SIZE : Z }.

Definition MAX_SAFE_INTEGER : Z := 2 ^ 53 - 1.

Section RequestBody.
Variable PAYLOAD_LIMITS : PayloadLimits.
Variable REQUEST_ALTERNATIVES : Z.

(** [buildRequestParams]; [now] is [Date.now()] and [randomComponent]
    is [Math.floor(Math.random() * 1000000)]. *)
Definition buildRequestParams (sourceLang targetLang : value)
    (now randomComponent : Z) : Error + Envelope.RequestData :=
  let timestamp := now in
  let requestId :=
    Z.rem timestamp 100000000 + Z.rem randomComponent 100000000 in
  match normalizeLanguageCode_value (or_value sourceLang (lit "auto")) with
  | inl e => inl e
  | inr normalizedSourceLang =>
      match normalizeLanguageCode_value (or_value targetLang (lit "en")) with
      | inl e => inl e
      | inr normalizedTargetLang =>
          inr {| Envelope.jsonrpc := lit "2.0";
                 Envelope.method := lit "LMT_handle_texts";
                 Envelope.id := requestId;
                 Envelope.params :=
                   {| Envelope.texts :=
                        [{| Envelope.text := [];
                            Envelope.requestAlternatives := REQUEST_ALTERNATIVES |}];
                      Envelope.timestamp := 0;
                      Envelope.splitting := lit "newlines";
                      Envelope.lang :=
                        {| Envelope.source_lang_user_selected := normalizedSourceLang;
                           Envelope.target_lang := normalizedTargetLang |} |} |}
      end
  end.

(** [countLetterI]: the pieces between the occurrences of "i", minus one. *)
Definition countLetterI (translateText : jsstring) : Z :=
  Z.of_nat (length (split 105 translateText)) - 1.

(** [getTimestamp(letterCount)], [now] being [Date.now()]. *)
Definition getTimestamp (letterCount : Z) (now : Z) : Z :=
  let timestamp := now in
  let safeLetterCount := Z.max 0 letterCount in
  if (safeLetterCount =? 0)%Z then timestamp
  else
    let modValue := safeLetterCount + 1 in
    if (modValue <=? 0)%Z || (1000 <? modValue)%Z then timestamp
    else
      let modifiedTimestamp := timestamp - Z.rem timestamp modValue + modValue in
      if (0 <? modifiedTimestamp)%Z
         && (modifiedTimestamp <=? MAX_SAFE_INTEGER)%Z
         && (timestamp - 1000 <=? modifiedTimestamp)%Z
      then modifiedTimestamp
      else timestamp.

Definition spacing_pattern : jsstring := quoted "method" ++ lit ":" ++ [dquote].
Definition spaced_form : jsstring := quoted "method" ++ lit " : " ++ [dquote].
Definition compact_form : jsstring := quoted "method" ++ lit ": " ++ [dquote].

(** The test on the request id that selects the spacing variant. *)
Definition spaced_id (requestId : Z) : bool :=
  (Z.rem (requestId + 5) 29 =? 0)%Z || (Z.rem (requestId + 3) 13 =? 0)%Z.

(** Lines 157-163: serialisation followed by the id-dependent rewrite. *)
Definition formatRequestString (requestData : Envelope.RequestData) : jsstring :=
  let requestString := Envelope.stringify requestData in
  let requestId := Envelope.id requestData in
  if spaced_id requestId
  then replace spacing_pattern spaced_form requestString
  else replace spacing_pattern compact_form requestString.

(** Lines 140-155: the envelope that [buildRequestBody] serialises for an
    accepted text, or what [buildRequestParams] throws. *)
Definition requestEnvelope (trimmedText : jsstring) (data : RequestParams)
    (now1 randomComponent now2 : Z) : Error + Envelope.RequestData :=
  let sourceLang := or_value (source_lang data) (lit "auto") in
  let targetLang := or_value (target_lang data) (lit "en") in
  match buildRequestParams sourceLang targetLang now1 randomComponent with
  | inl e => inl e
  | inr requestData =>
      let requestData :=
        Envelope.set_texts requestData
          [{| Envelope.text := trimmedText;
              Envelope.requestAlternatives := REQUEST_ALTERNATIVES |}] in
      let letterICount := countLetterI trimmedText in
      inr (Envelope.set_timestamp requestData (getTimestamp letterICount now2))
  end.

Definition invalid_parameters : Error :=
  new_Error (lit "Invalid request parameters: text is required and must be a string").

(** [buildRequestBody(data)]. [None] is a missing [data]; [now1] is the
    clock read by [buildRequestParams], [now2] the one read by
    [getTimestamp]. [buildRequestParams] is called, and may throw, before
    the timestamp is tested. A timestamp is an integer here, so the test
    for a finite one is left out. *)
Definition buildRequestBody (data : option RequestParams)
    (now1 randomComponent now2 : Z) : Error + jsstring :=
  match data with
  | None => inl invalid_parameters
  | Some data =>
      if negb (truthy_value (text data)) || negb (is_string (text data))
      then inl invalid_parameters
      else
        match text data with
        | VString trimmedText =>
            if negb (truthy trimmedText) then
              inl (new_Error (lit "Invalid request parameters: text cannot be empty"))
            else if (MAX_TEXT_LENGTH PAYLOAD_LIMITS <? str_length trimmedText)%Z then
              inl (new_Error
                (lit "Text too long. Maximum length is "
                 ++ number_to_string (MAX_TEXT_LENGTH PAYLOAD_LIMITS)
                 ++ lit " characters to prevent payload size errors."))
            else
              match requestEnvelope trimmedText data now1 randomComponent now2 with
              | inl e => inl e
              | inr requestData =>
                  let timestamp := getTimestamp (countLetterI trimmedText) now2 in
                  if (timestamp <=? 0)%Z then
                    inl (new_Error (lit "Invalid timestamp generated"))
                  else
                    let requestString := formatRequestString requestData in
                    let payloadSize := utf8_length requestString in
                    if (MAX_REQUEST_SIZE PAYLOAD_LIMITS <? payloadSize)%Z then
                      inl (new_Error
                        (lit "Request payload too large ("
                         ++ number_to_string payloadSize
                         ++ lit " bytes). Maximum allowed is "
                         ++ number_to_string (MAX_REQUEST_SIZE PAYLOAD_LIMITS)
                         ++ lit " bytes."))
                    else inr requestString
              end
        | _ => inl invalid_parameters
        end
  end.

End RequestBody.

(** *** The orchestrator *)

(** Modelled from the spec: [createStandardResponse] and [ResponseParams]
    of [./types] are not among the sources; the fields are those of the
    spec's TranslationResult, in the order of the call's arguments. *)
Record ResponseParams := createStandardResponse {
  httpStatus : Z;
  translatedText : option jsstring;
  requestId : option Z;
  detectedSourceLang : value;
  targetLang : value
}.

Record Config := {
  proxyEndpoint : option jsstring;
  clientIP : option jsstring;
  customHeader : option (list (jsstring * jsstring));
  env : option ProxyManager.Env
}.

(** The upstream's answer once parsed, [RawResponseParams]. *)
Record RawError := { error_code : option Z; error_message : option jsstring }.
(** An item of [texts] is [None] when it is null, so that reading its
    [text] throws. *)
Record RawResult := {
  result_texts : option (list (option jsstring));
  result_lang : option jsstring
}.
Record RawResponseParams := {
  raw_error : option RawError;
  raw_result : option RawResult;
  raw_id : option Z
}.

(** A [Response] as far as [query] looks at it: the status, what
    [response.text()] gives and what [response.json()] gives ([inr None]
    for a JSON value that is no object). *)
Record Response := {
  response_status : Z;
  response_text : Error + jsstring;
  response_json : Error + option RawResponseParams
}.

Definition response_ok (r : Response) : bool :=
  (200 <=? response_status r) && (response_status r <=? 299).

(** What one attempt finds around it: the random draws, the clock
    readings, the outcomes of the store operations and of [fetch]. *)
Record AttemptWorld := {
  proxyIndex : nat;
  clientCheckTime : Z;
  clientCheckKv : RateLimit.KvOutcome;
  proxyCheckTime : Z;
  proxyCheckKv : RateLimit.KvOutcome;
  uaIndex : nat;
  langIndex : nat;
  paramsTime : Z;
  randomComponent : Z;
  timestampTime : Z;
  fetched : Error + Response
}.

(** [{...a, ...b}]: the properties of [b] written over those of [a]. *)
Fixpoint object_set (o : list (jsstring * jsstring)) (k v : jsstring)
    : list (jsstring * jsstring) :=
  match o with
  | [] => [(k, v)]
  | (k', v') :: o' =>
      if str_eqb k k' then (k', v) :: o' else (k', v') :: object_set o' k v
  end.

Definition object_spread (a b : list (jsstring * jsstring))
    : list (jsstring * jsstring) :=
  List.fold_left (fun o kv => object_set o (fst kv) (snd kv)) b a.

Definition with_code (e : Error) (c : option Z) : Error :=
  {| message := message e; name := name e; code := c; status := status e;
     originalMessage := originalMessage e |}.

Definition with_status (e : Error) (s : option Z) : Error :=
  {| message := message e; name := name e; code := code e; status := s;
     originalMessage := originalMessage e |}.

Definition with_originalMessage (e : Error) (m : jsstring) : Error :=
  {| message := message e; name := name e; code := code e; status := status e;
     originalMessage := Some m |}.

(** The text of a possibly undefined number inside a template literal. *)
Definition code_to_string (c : option Z) : jsstring :=
  match c with Some z => number_to_string z | None => lit "undefined" end.

(** Lines 297-325: the message for an application-level error code. *)
Definition enhancedMessage (errorCode : option Z) (errorMessage : jsstring) : jsstring :=
  match errorCode with
  | Some 1156049 =>
      lit "Invalid request format detected. This may be caused by: 1) Incorrect JSON-RPC structure, 2) Invalid request ID format, 3) Malformed timestamp, or 4) Unsupported language codes."
  | Some 1042912 => lit "Too many requests. Please try again later."
  | Some 1042513 => lit "Request quota exceeded. Please try again later."
  | Some 1042003 => lit "Invalid authentication. Please check your API configuration."
  | _ => lit "DeepL API error: " ++ errorMessage ++ lit " (Code: "
         ++ code_to_string errorCode ++ lit ")"
  end.

Section Orchestrator.
Variable PAYLOAD_LIMITS : PayloadLimits.
Variable REQUEST_ALTERNATIVES : Z.
Variable CF_HEADER_PREFIX : jsstring.
(** [REQUEST_TIMEOUT] of [./config], in seconds as the message prints
    it, and [API_URL] of [./const]. *)
Variable REQUEST_TIMEOUT_SECONDS : Z.
Variable API_URL : jsstring.
(** [createErrorResponse] of [./errorHandler], as far as [query] reads
    its result: the status it assigns to an error, unless it throws. *)
Variable createErrorResponse : Error → option jsstring → Error + Z.
(** [retryWithBackoff] of [./retryLogic], with the retry options that
    [query] passes: it is given the attempt, numbered, and either
    returns a value or throws. *)
Variable retryWithBackoff :
  (nat → RateLimit.Store → (Error + ResponseParams) * RateLimit.Store) →
  RateLimit.Store → (Error + ResponseParams) * RateLimit.Store.

(** [makeRequest] (lines 219-267). *)
Definition makeRequest (params : RequestParams) (config : option Config)
    (endpoint : jsstring) (fingerprint : list (jsstring * jsstring))
    (w : AttemptWorld) : Error + Response :=
  let attempt : Error + Response :=
    match buildRequestBody PAYLOAD_LIMITS REQUEST_ALTERNATIVES (Some params)
            (paramsTime w) (randomComponent w) (timestampTime w) with
    | inl e => inl e
    | inr requestBody =>
        let baseHeadersObj :=
          object_spread
            (object_spread
               [(lit "Content-Type", lit "application/json; charset=utf-8")]
               fingerprint)
            (default [] (config ≫= customHeader)) in
        match fst (ProxyManager.prepareRequestHeaders CF_HEADER_PREFIX
                     (Fetch.InitRecord baseHeadersObj)
                     (config ≫= clientIP) ∅) with
        | inl e => inl e
        | inr preparedHeaders => fetched w
        end
    end in
  match attempt with
  | inr response => inr response
  | inl error =>
      if str_eqb (name error) (lit "AbortError") then
        inl (with_status
               (new_Error (lit "Request timeout after "
                           ++ number_to_string REQUEST_TIMEOUT_SECONDS
                           ++ lit " seconds to " ++ endpoint))
               (Some 408))
      else inl error
  end.

(** Lines 199-200: the endpoint of an attempt, the configured one or else
    the selected proxy or else the direct address. *)
Definition resolveEndpoint (config : option Config) (w : AttemptWorld) : jsstring :=
  let proxy :=
    match config ≫= env with
    | Some e => ProxyManager.selectProxy e (proxyIndex w)
    | None => None
    end in
  match config ≫= proxyEndpoint with
  | Some ep => ep
  | None => match proxy with
            | Some p => ProxyManager.url p
            | None => API_URL
            end
  end.

(** Lines 203-215: the admission of an attempt; without an environment
    there is no check. *)
Definition admission (config : option Config) (w : AttemptWorld)
    (st : RateLimit.Store) : RateLimit.RateLimitResult * RateLimit.Store :=
  match config ≫= env with
  | Some _ =>
      let clientIP := or_default (config ≫= clientIP) (lit "unknown") in
      RateLimit.checkCombinedRateLimit clientIP (Some (resolveEndpoint config w))
        (clientCheckTime w) (clientCheckKv w)
        (proxyCheckTime w) (proxyCheckKv w) st
  | None => ({| RateLimit.allowed := true; RateLimit.reason := None |}, st)
  end.

(** The body handed to [retryWithBackoff] (lines 197-342). *)
Definition attempt (params : RequestParams) (config : option Config)
    (w : AttemptWorld) (st : RateLimit.Store)
    : (Error + ResponseParams) * RateLimit.Store :=
  let endpoint := resolveEndpoint config w in
  let '(rateLimitResult, st) := admission config w st in
  if negb (RateLimit.allowed rateLimitResult) then
    (inl (with_code
            (new_Error (or_default (RateLimit.reason rateLimitResult)
                          (lit "Rate limit exceeded")))
            (Some 429)), st)
  else
    let fingerprint :=
      ProxyManager.generateBrowserFingerprint (uaIndex w) (langIndex w) in
    match makeRequest params config endpoint fingerprint w with
    | inl e => (inl e, st)
    | inr response =>
        if negb (response_ok response) then
          let errorMessage :=
            lit "Request failed with status "
            ++ number_to_string (response_status response) in
          let errorMessage :=
            match response_text response with
            | inr errorText =>
                if truthy errorText then errorMessage ++ lit ": " ++ errorText
                else errorMessage
            | inl _ => errorMessage
            end in
          (inl (with_status (new_Error errorMessage)
                  (Some (response_status response))), st)
        else
          match response_json response with
          | inl parseError =>
              (inl (with_code
                      (new_Error (lit "Failed to parse JSON response from "
                                  ++ endpoint ++ lit ": " ++ message parseError))
                      (Some 500)), st)
          | inr None =>
              (inl (new_TypeError
                      (lit "Cannot use 'in' operator to search for 'error'")), st)
          | inr (Some result) =>
              match raw_error result with
              | Some err =>
                  let errorCode := error_code err in
                  let errorMessage :=
                    or_default (error_message err) (lit "Unknown DeepL API error") in
                  (inl (with_originalMessage
                          (with_code
                             (new_Error (enhancedMessage errorCode errorMessage))
                             errorCode)
                          errorMessage), st)
              | None =>
                  match raw_result result ≫= result_texts with
                  | Some (None :: _) =>
                      (inl (new_TypeError
                              (lit "Cannot read properties of null (reading 'text')")),
                       st)
                  | Some (Some first :: _) =>
                      match raw_result result ≫= result_lang with
                      | Some lang =>
                          match normalizeLanguageCode_value (target_lang params) with
                          | inl e => (inl e, st)
                          | inr target =>
                              (inr (createStandardResponse 200 (Some first)
                                      (raw_id result)
                                      (VString (toUpperCase lang))
                                      target),
                               st)
                          end
                      | None =>
                          (inl (new_TypeError
                                  (lit "Cannot read properties of undefined (reading 'toUpperCase')")),
                           st)
                      end
                  | _ =>
                      (inl (with_code
                              (new_Error (lit "Invalid response structure from DeepL API"))
                              (Some 500)), st)
                  end
              end
          end
    end.

(** Lines 182-188 and 348-354: the result without a translation. The
    arguments of [createStandardResponse] are evaluated first, the source
    language before the target language, and what [normalizeLanguageCode]
    throws there is thrown by [query]: the first call is before the [try],
    the second inside the [catch]. *)
Definition failureResponse (httpStatus : Z) (source target : value)
    : Error + ResponseParams :=
  match normalizeLanguageCode_value (or_value source (lit "auto")) with
  | inl e => inl e
  | inr s =>
      match normalizeLanguageCode_value (or_value target (lit "en")) with
      | inl e => inl e
      | inr t => inr (createStandardResponse httpStatus None None s t)
      end
  end.

(** [query(params, config)]. [worlds k] is what the attempt numbered
    [k] finds. The outer [try]/[catch] is the [match] on the outcome of
    [retryWithBackoff]; an [inl] is the rejection of the promise that
    [query] returns. *)
Definition query (params : option RequestParams) (config : option Config)
    (worlds : nat → AttemptWorld) (st : RateLimit.Store)
    : (Error + ResponseParams) * RateLimit.Store :=
  match params with
  | None => (failureResponse 400 VUndefined VUndefined, st)
  | Some params =>
      if negb (truthy_value (text params)) then
        (failureResponse 400 (source_lang params) (target_lang params), st)
      else
        match retryWithBackoff (fun k => attempt params config (worlds k)) st with
        | (inr response, st) => (inr response, st)
        | (inl error, st) =>
            match createErrorResponse error (config ≫= proxyEndpoint) with
            | inl thrown => (inl thrown, st)
            | inr errorDetails_httpStatus =>
                (failureResponse errorDetails_httpStatus
                   (source_lang params) (target_lang params), st)
            end
        end
  end.

End Orchestrator.

(** Modelled from the spec: [retryWithBackoff] of [./retryLogic] is not
    among the sources. The attempt is run up to [maxAttempts] times; after
    a failure the error is propagated when it is not retryable or the
    attempts are used up, and the next attempt is run otherwise. The
    sleeps between attempts change no state. *)
Fixpoint retryWithBackoff_spec {A} (isRetryable : Error → bool)
    (remaining : nat) (k : nat)
    (fn : nat → RateLimit.Store → (Error + A) * RateLimit.Store)
    (st : RateLimit.Store) : (Error + A) * RateLimit.Store :=
  match fn k st with
  | (inr a, st) => (inr a, st)
  | (inl e, st) =>
      match remaining with
      | O => (inl e, st)
      | S remaining' =>
          if isRetryable e then retryWithBackoff_spec isRetryable remaining' (S k) fn st
          else (inl e, st)
      end
  end.

End Query.

(** ** Reference definitions for the statements *)

Module Reference.
Import JS Value Query.
Local Open Scope Z_scope.

(** The number of occurrences of the letter "i". *)
Definition occurrences_of_i (s : jsstring) : nat :=
  length (List.filter (fun c => (c =? 105)%N) s).

(** The rule as the specification words it, for a positive count [n]:
    the adjusted value is taken exactly when it lies within 1000 ms of the
    raw timestamp and is a positive safe integer. *)
Definition timestamp_as_specified (n now : Z) : Z :=
  let m := n + 1 in
  let adjusted := now - now mod m + m in
  if (Z.abs (adjusted - now) <=? 1000) && (0 <? adjusted)
     && (adjusted <=? MAX_SAFE_INTEGER)
  then adjusted else now.

(** What every serialised envelope starts with, up to the key "method". *)
Definition envelope_head : jsstring :=
  lit "{" ++ quoted "jsonrpc" ++ lit ":" ++ quoted "2.0" ++ lit ",".

Definition example_limits : PayloadLimits :=
  {| MAX_TEXT_LENGTH := 5000; MAX_REQUEST_SIZE := 32768 |}.

Definition example_request : RequestParams :=
  {| text := VString (lit "Hi"); source_lang := VString (lit "auto");
     target_lang := VString (lit "de") |}.

(** The body built for "Hi" with the id 24. *)
Definition example_body_24 : jsstring :=
  lit "{" ++ quoted "jsonrpc" ++ lit ":" ++ quoted "2.0" ++ lit ","
  ++ quoted "method" ++ lit " : " ++ quoted "LMT_handle_texts" ++ lit ","
  ++ quoted "id" ++ lit ":24," ++ quoted "params" ++ lit ":{"
  ++ quoted "texts" ++ lit ":[{" ++ quoted "text" ++ lit ":" ++ quoted "Hi"
  ++ lit "," ++ quoted "requestAlternatives" ++ lit ":3}],"
  ++ quoted "timestamp" ++ lit ":1700000000124," ++ quoted "splitting"
  ++ lit ":" ++ quoted "newlines" ++ lit "," ++ quoted "lang" ++ lit ":{"
  ++ quoted "source_lang_user_selected" ++ lit ":" ++ quoted "auto" ++ lit ","
  ++ quoted "target_lang" ++ lit ":" ++ quoted "DE" ++ lit "}}}".

(** The inputs that the rejection rule of the request builder names: a
    text that is missing, no string or empty; a text longer than the
    configured maximum; a final payload whose encoding exceeds the
    configured size. *)
Inductive Rejected (limits : PayloadLimits) (alts now1 rand now2 : Z)
  : option RequestParams → Prop :=
| rejected_no_data : Rejected limits alts now1 rand now2 None
| rejected_not_a_string data :
    is_string (text data) = false →
    Rejected limits alts now1 rand now2 (Some data)
| rejected_empty data :
    text data = VString [] →
    Rejected limits alts now1 rand now2 (Some data)
| rejected_text_too_long data trimmedText :
    text data = VString trimmedText →
    MAX_TEXT_LENGTH limits < str_length trimmedText →
    Rejected limits alts now1 rand now2 (Some data)
| rejected_payload_too_large data trimmedText requestData :
    text data = VString trimmedText →
    requestEnvelope alts trimmedText data now1 rand now2 = inr requestData →
    MAX_REQUEST_SIZE limits < utf8_length (formatRequestString requestData) →
    Rejected limits alts now1 rand now2 (Some data).

(** A value on which [normalizeLanguageCode] returns: a string, or a
    falsy value (an absent language among them). *)
Definition language_ok (v : value) : bool := is_string v || negb (truthy_value v).

(** The two further cases in which the request builder throws: a language
    that is neither a string nor falsy, on a text that passed the tests,
    and a timestamp that is not positive. *)
Inductive AlsoThrown (limits : PayloadLimits) (now2 : Z) : option RequestParams → Prop :=
| thrown_language data trimmedText :
    text data = VString trimmedText → trimmedText ≠ [] →
    str_length trimmedText <= MAX_TEXT_LENGTH limits →
    language_ok (source_lang data) && language_ok (target_lang data) = false →
    AlsoThrown limits now2 (Some data)
| thrown_timestamp data trimmedText :
    text data = VString trimmedText →
    getTimestamp (countLetterI trimmedText) now2 <= 0 →
    AlsoThrown limits now2 (Some data).

Definition long_text : jsstring := repeat 97%N (Z.to_nat 5001).

(** [s] is [base] in some casing; [base] is meant to be in lower case. *)
Definition casing_of (s base : jsstring) : Prop :=
  Forall2 (fun c b => c = b ∨ c = upper_unit b) s base.

Definition lower_case (s : jsstring) : Prop := Forall (fun c => is_lower c = true) s.

(** The names that [Object.prototype] answers to. *)
Definition inherited_name (k : jsstring) : bool :=
  bool_decide (k ∈ Object_prototype_functions) || str_eqb k (lit "__proto__").

(** What the table demands of an entry for the lookup to find it. *)
Definition entry_ok (e : jsstring * jsstring) : bool :=
  match object_get languageMap (fst e) with
  | VString c => str_eqb c (snd e) && truthy c
  | _ => false
  end
  && forallb is_lower (fst e) && negb (str_eqb (fst e) (lit "auto"))
  && truthy (fst e).

End Reference.

Module QueryReference.
Import JS Value Query Reference.
Local Open Scope Z_scope.

(** The languages of the request are strings or falsy, absent ones among
    them: the requests on which no call of [normalizeLanguageCode] throws. *)
Definition languages_ok (params : option RequestParams) : Prop :=
  match params with
  | None => True
  | Some p => language_ok (source_lang p) = true ∧ language_ok (target_lang p) = true
  end.

(** The language reported with a result that carries no translation, for
    a language that is a string or falsy. *)
Definition fallback_language (v : value) (fallback : jsstring) : value :=
  match or_value v fallback with
  | VString s => normalizeLanguageCode (Some s)
  | _ => VString (lit "auto")
  end.

Definition fallback_source (params : option RequestParams) : value :=
  fallback_language (default VUndefined (source_lang <$> params)) (lit "auto").

Definition fallback_target (params : option RequestParams) : value :=
  fallback_language (default VUndefined (target_lang <$> params)) (lit "en").

(** The single shape of a result without a translation. *)
Definition failure (httpStatus : Z) (params : option RequestParams) : ResponseParams :=
  createStandardResponse httpStatus None None
    (fallback_source params) (fallback_target params).

(** The text is missing or empty (or otherwise falsy). *)
Definition no_text (params : option RequestParams) : Prop :=
  match params with
  | None => True
  | Some p => truthy_value (text p) = false
  end.

(** A stand-in for the status assignment of [./errorHandler] in the
    examples: the status or code an error carries, 500 without one. *)
Definition sample_createErrorResponse (e : Error) (endpoint : option jsstring)
    : Error + Z :=
  inr match status e, code e with
      | Some s, _ => s
      | None, Some c => if (400 <=? c) && (c <=? 599) then c else 500
      | None, None => 500
      end.

(** A stand-in for [isRetryableError] in the examples. *)
Definition sample_isRetryable (e : Error) : bool :=
  match status e, code e with
  | Some s, _ => (s =? 408) || (s =? 429) || (500 <=? s)
  | None, Some c => (c =? 429)
  | None, None => true
  end.

Definition example_config : Config :=
  {| proxyEndpoint := None; clientIP := Some (lit "203.0.113.7");
     customHeader := None;
     env := Some {| ProxyManager.PROXY_URLS := Some (lit "https://proxy.example") |} |}.

(** The upstream answers with the translation "Hallo". *)
Definition example_world (k : nat) : AttemptWorld :=
  {| proxyIndex := 0; clientCheckTime := 1700000000100;
     clientCheckKv := RateLimit.Build_KvOutcome true true;
     proxyCheckTime := 1700000000101;
     proxyCheckKv := RateLimit.Build_KvOutcome true true;
     uaIndex := 1; langIndex := 2;
     paramsTime := 1700000000102; randomComponent := 24;
     timestampTime := 1700000000103;
     fetched :=
       inr {| response_status := 200;
              response_text := inr [];
              response_json :=
                inr (Some {| raw_error := None;
                             raw_result :=
                               Some {| result_texts := Some [Some (lit "Hallo")];
                                       result_lang := Some (lit "en") |};
                             raw_id := Some 123 |}) |} |}.

(** A store in which the bucket of the client 203.0.113.7 is empty. *)
Definition exhausted_client_store : RateLimit.Store :=
  {| RateLimit.rateCache :=
       {[ lit "rate:203.0.113.7" :=
            {| RateLimit.cache_tokens := 0;
               RateLimit.cache_lastRefill := 1700000000099;
               RateLimit.cache_lastUpdate := 1700000000099 |} ]};
     RateLimit.RATE_LIMIT_KV := ∅ |}.

End QueryReference.

Module HeaderReference.
Import JS Value Fetch ProxyManager.

(** What the class accepts as a name and as a value. *)
Definition acceptable_name (n : jsstring) : bool :=
  is_byte_string n && is_header_name n.

Definition acceptable_value (v : jsstring) : bool :=
  is_byte_string (normalize v) && is_header_value (normalize v).

(** A header as a [Headers] object keeps it. *)
Definition stored_header (h : header) : Prop :=
  acceptable_name (fst h) = true
  ∧ is_byte_string (snd h) = true ∧ is_header_value (snd h) = true.

(** Every object of the heap is a state the class can be in. *)
Definition heap_ok (h : heap) : Prop :=
  map_Forall (fun _ hl => Forall stored_header hl) h.

(** An argument that the constructor takes without complaint: an existing
    object, or a record whose names and values the class accepts. *)
Definition init_ok (h : heap) (init : HeadersInit) : Prop :=
  match init with
  | InitHeaders l => is_Some (h !! l)
  | InitRecord r =>
      Forall (fun p => acceptable_name (fst p) = true
                       ∧ acceptable_value (snd p) = true) r
  end.

Definition clientIp_ok (clientIp : option jsstring) : Prop :=
  match clientIp with
  | Some ip => truthy ip = true → acceptable_value ip = true
  | None => True
  end.

(** The header that carries the caller's address, when one is supplied. *)
Definition injected (clientIp : option jsstring) : header_list :=
  match clientIp with
  | Some ip =>
      if truthy ip then [(REAL_CLIENT_IP_HEADER, normalize ip)] else []
  | None => []
  end.

(** What the function leaves of a list of headers. *)
Definition kept (CF_HEADER_PREFIX : jsstring) (hl : header_list) : header_list :=
  List.filter (fun h => negb (stripped CF_HEADER_PREFIX (fst h))) hl.

(** The list operation of the loop of [prepareRequestHeaders]. *)
Definition strip_names (CF_HEADER_PREFIX : jsstring) (names : list jsstring)
    (hl : header_list) : header_list :=
  List.fold_left
    (fun hl name => if stripped CF_HEADER_PREFIX name then delete_all hl name else hl)
    names hl.

(** The pairs that the constructor reads from its argument. *)
Definition pairs_of (h : heap) (init : HeadersInit) : list header :=
  match init with
  | InitHeaders l => sort_and_combine (default [] (h !! l))
  | InitRecord r => r
  end.

(** A header of the new object against the pair it was read from: the
    name up to case, the value normalised. *)
Definition as_stored (hdr p : header) : Prop :=
  same_name (fst hdr) (fst p) = true ∧ snd hdr = normalize (snd p).

Definition acceptable_pair (p : header) : Prop :=
  acceptable_name (fst p) = true ∧ acceptable_value (snd p) = true.

(** The value found under the dedicated name in the outcome of a call. *)
Definition real_client_ip (outcome : (Error + loc) * heap) : option jsstring :=
  match outcome with
  | (inr l, h) => get (default [] (h !! l)) REAL_CLIENT_IP_HEADER
  | (inl _, _) => None
  end.

(** The value that the dedicated header is expected to hold. *)
Definition expected_real_client_ip (clientIp : option jsstring) : option jsstring :=
  match clientIp with
  | Some ip => if truthy ip then Some (normalize ip) else None
  | None => None
  end.

Definition example_headers : list (jsstring * jsstring) :=
  [(lit "Content-Type", lit "application/json; charset=utf-8");
   (lit "CF-Ray", lit "8a1b2c3d4e5f");
   (lit "X-Forwarded-For", lit "198.51.100.4");
   (lit "x-real-client-ip", lit "192.0.2.66");
   (lit "Via", lit "1.1 relay");
   (lit "Accept", lit "*/*")].

End HeaderReference.

Module RateReference.
Import JS Value RateLimit.
Local Open Scope Q_scope.

(** The state kept for one identity: its cache entry and its stored record. *)
Definition bucket (identity : jsstring) (st : Store)
  : option CacheEntry * option RateLimitEntry :=
  (rateCache st !! (lit "rate:" ++ identity),
   RATE_LIMIT_KV st !! (lit "rate:" ++ identity)).


Definition in_range (t : Q) : Prop := 0 <= t ∧ t <= DEFAULT_TOKENS_PER_MINUTE.

(** Every token count kept anywhere lies between 0 and the capacity. *)
Definition tokens_in_range (st : Store) : Prop :=
  map_Forall (fun _ c => in_range (cache_tokens c)) (rateCache st)
  ∧ map_Forall (fun _ e => in_range (tokens e)) (RATE_LIMIT_KV st).

(** The invariant of the store at the clock reading [T]: token counts in
    range, and no refill anchor ahead of the clock. *)
Definition store_ok (T : Z) (st : Store) : Prop :=
  map_Forall (fun _ c => in_range (cache_tokens c) ∧ (cache_lastRefill c <= T)%Z)
    (rateCache st)
  ∧ map_Forall (fun _ e => in_range (tokens e) ∧ (lastRefill e <= T)%Z)
      (RATE_LIMIT_KV st).

(** The calls come in the order of a clock that does not run backwards,
    starting at [T]; any amount of time may pass between two of them. *)
Fixpoint chronological (T : Z) (calls : list (jsstring * Z * KvOutcome)) : Prop :=
  match calls with
  | [] => True
  | (_, now, _) :: calls' => (T <= now)%Z ∧ chronological now calls'
  end.




Definition client_limit : RateLimitResult :=
  {| allowed := false; reason := Some (lit "Client rate limit exceeded") |}.

Definition proxy_limit : RateLimitResult :=
  {| allowed := false; reason := Some (lit "Proxy rate limit exceeded") |}.

Definition granted : RateLimitResult := {| allowed := true; reason := None |}.

(** A store in which the bucket of the egress [https://proxy.example] is
    empty, written at the time 1700000000000. *)
Definition exhausted_proxy_store : Store :=
  {| rateCache :=
       {[ lit "rate:https://proxy.example" :=
            {| cache_tokens := 0; cache_lastRefill := 1700000000000;
               cache_lastUpdate := 1700000000000 |} ]};
     RATE_LIMIT_KV := ∅ |}.

Definition empty_store : Store := {| rateCache := ∅; RATE_LIMIT_KV := ∅ |}.

Definition kv_fine : KvOutcome := {| get_delivers := true; put_succeeds := true |}.


End RateReference.

(** ** [checkRateLimit] with its detached read left under way

    [checkRateLimit] awaits nothing: the read of the durable store is
    issued and the function goes on and returns; the callback of the read
    runs when the read settles, which may be before the next check, after
    any number of later checks, or never. Here the reads under way are part
    of the state and the settling of one is an event of its own. A read is
    issued before the write of the same check; when it settles it delivers
    what the namespace held as the check found it, or, served late, what the
    namespace holds by then. A write lands at once or is lost. The token
    counts of the code are doubles: [fl] is the rounding of the result of
    an operation, and with the identity for [fl] the counts are the exact
    ones of [RateLimit]. *)

Module Detached.
Import JS Value RateLimit.
Local Open Scope Q_scope.

(** A read under way: the key, the clock reading of the check that issued
    it, and what the namespace held under the key at that moment. *)
Record PendingRead := {
  read_key : jsstring;
  read_now : Z;
  read_found : option RateLimitEntry
}.

Record State := { store : Store; reads : list PendingRead }.

Inductive Event :=
| Check (clientIP : jsstring) (now : Z) (oc : KvOutcome)
| Settle (n : nat) (late : bool).

Section Arithmetic.
Variable fl : Q → Q.

(** Lines 52-53 and 59-60: the refill since the anchor, clamped. *)
Definition refill (tokens : Q) (now lastRefill : Z) : Q :=
  let timePassed := fl (inject_Z (now - lastRefill) / 1000) in
  Qmin DEFAULT_TOKENS_PER_MINUTE (fl (tokens + fl (timePassed * REFILL_RATE))).

(** The callback of the read [r] (lines 57-62), handed [existing]. *)
Definition callback (r : PendingRead) (existing : option RateLimitEntry)
    (st : Store) : Store :=
  match existing with
  | Some existing =>
      cache_set (read_key r)
        {| cache_tokens := refill (tokens existing) (read_now r) (lastRefill existing);
           cache_lastRefill := lastRefill existing;
           cache_lastUpdate := read_now r |} st
  | None => st
  end.

(** [checkRateLimit(clientIP, env)] at the time [now], up to its return. A
    read that fails never runs its callback and is not kept. *)
Definition checkRateLimit (clientIP : jsstring) (now : Z) (oc : KvOutcome)
    (s : State) : bool * State :=
  let key := lit "rate:" ++ clientIP in
  let st := store s in
  let '(tokens, issued) :=
    match rateCache st !! key with
    | Some cached =>
        if (now - cache_lastUpdate cached <? CACHE_TTL)%Z
        then (refill (cache_tokens cached) now (cache_lastRefill cached), false)
        else (DEFAULT_TOKENS_PER_MINUTE, get_delivers oc)
    | None => (DEFAULT_TOKENS_PER_MINUTE, get_delivers oc)
    end in
  let reads :=
    if issued
    then reads s ++ [{| read_key := key; read_now := now;
                        read_found := RATE_LIMIT_KV st !! key |}]
    else reads s in
  if Qlt_le_dec tokens 1 then
    let st := cache_set key
                {| cache_tokens := tokens; cache_lastRefill := now;
                   cache_lastUpdate := now |} st in
    let st := kv_put oc key {| RateLimit.tokens := tokens; lastRefill := now |} st in
    (false, {| store := st; reads := reads |})
  else
    let tokens := fl (tokens - 1) in
    let st := cache_set key
                {| cache_tokens := tokens; cache_lastRefill := now;
                   cache_lastUpdate := now |} st in
    let st := kv_put oc key {| RateLimit.tokens := tokens; lastRefill := now |} st in
    (true, {| store := st; reads := reads |}).

(** The read numbered [n] among those under way settles and its callback
    runs, on what the namespace held when the read was issued or, for a
    read served [late], on what it holds now. *)
Definition settle (n : nat) (late : bool) (s : State) : State :=
  match reads s !! n with
  | Some r =>
      let existing :=
        if late then RATE_LIMIT_KV (store s) !! read_key r else read_found r in
      {| store := callback r existing (store s); reads := delete n (reads s) |}
  | None => s
  end.

(** A history of the limiter: checks, and reads that settle in between,
    in any order. The verdicts of the checks are collected. *)
Fixpoint exec (events : list Event) (s : State) : list bool * State :=
  match events with
  | [] => ([], s)
  | Check clientIP now oc :: events' =>
      let '(ok, s) := checkRateLimit clientIP now oc s in
      let '(oks, s) := exec events' s in
      (ok :: oks, s)
  | Settle n late :: events' => exec events' (settle n late s)
  end.

End Arithmetic.

(** The checks of a history read a clock that does not run backwards,
    from [T] on. *)
Fixpoint in_clock_order (T : Z) (events : list Event) : Prop :=
  match events with
  | [] => True
  | Check _ now _ :: events' => (T <= now)%Z ∧ in_clock_order now events'
  | Settle _ _ :: events' => in_clock_order T events'
  end.

(** No read of the history is served late: each delivers what the
    namespace held when its check issued it. *)
Fixpoint served_at_issue (events : list Event) : Prop :=
  match events with
  | [] => True
  | Check _ _ _ :: events' => served_at_issue events'
  | Settle _ late :: events' => late = false ∧ served_at_issue events'
  end.

(** A read under way at the clock reading [T]: a record that it found is
    in range, with an anchor that is not after the check that issued it. *)
Definition read_ok (T : Z) (r : PendingRead) : Prop :=
  (read_now r <= T)%Z
  ∧ ∀ e, read_found r = Some e →
         RateReference.in_range (tokens e) ∧ (lastRefill e <= read_now r)%Z.

(** The invariant at the clock reading [T]. *)
Definition state_ok (T : Z) (s : State) : Prop :=
  RateReference.store_ok T (store s) ∧ Forall (read_ok T) (reads s).

(** No token count above the capacity, in the store or under way. *)
Definition below_capacity (s : State) : Prop :=
  map_Forall (fun _ c => cache_tokens c <= DEFAULT_TOKENS_PER_MINUTE)
    (rateCache (store s))
  ∧ map_Forall (fun _ e => tokens e <= DEFAULT_TOKENS_PER_MINUTE)
      (RATE_LIMIT_KV (store s)).

(** A rounding as that of the doubles: monotone, and exact on 0 and on
    the capacity. *)
Definition rounding (fl : Q → Q) : Prop :=
  (∀ x y, x <= y → fl x <= fl y) ∧ fl 0 == 0 ∧ fl 60 == 60.

Definition start : State := {| store := RateReference.empty_store; reads := [] |}.

(** A record left by an earlier run, and a history in which its read
    settles two checks late. *)
Definition stored_start : State :=
  {| store :=
       {| rateCache := ∅;
          RATE_LIMIT_KV :=
            {[ lit "rate:203.0.113.7" :=
                 {| tokens := 3; lastRefill := 1700000000000 |} ]} |};
     reads := [] |}.

Definition late_history : list Event :=
  [Check (lit "203.0.113.7") 1700000020000 RateReference.kv_fine;
   Check (lit "203.0.113.7") 1700000020010 RateReference.kv_fine;
   Check (lit "203.0.113.7") 1700000020020 RateReference.kv_fine;
   Settle 0 false;
   Check (lit "203.0.113.7") 1700000020030 RateReference.kv_fine].

(** A clock that steps back by 61 s between two checks. *)
Definition backward_history : list Event :=
  [Check (lit "203.0.113.7") 1700000061000 RateReference.kv_fine;
   Check (lit "203.0.113.7") 1700000000000 RateReference.kv_fine].

(** A clock that runs forward and a read that is served late: the
    identity spends its 60 tokens at once, is admitted again one second
    later, and only then the read of its first check settles, on the
    record that the last check wrote. *)
Definition late_served_history : list Event :=
  repeat (Check (lit "203.0.113.7") 1700000000000 RateReference.kv_fine) 61
  ++ [Check (lit "203.0.113.7") 1700000001000 RateReference.kv_fine;
      Settle 0 true].

End Detached.

(** ** Further definitions for the statements on the token bucket *)

Module RateExtra.
Import JS Value RateLimit RateReference.
Local Open Scope Q_scope.





(** What a check of [clientIP] writes, read off the bucket it finds: the
    verdict, the cache entry and the record. *)
Definition check_effect (found : option CacheEntry * option RateLimitEntry)
    (now : Z) (oc : KvOutcome) : bool * CacheEntry * RateLimitEntry :=
  let start :=
    match fst found with
    | Some cached =>
        if (now - cache_lastUpdate cached <? CACHE_TTL)%Z then
          (Qmin DEFAULT_TOKENS_PER_MINUTE
             (cache_tokens cached
              + inject_Z (now - cache_lastRefill cached) / 1000 * REFILL_RATE),
           None)
        else (DEFAULT_TOKENS_PER_MINUTE, if get_delivers oc then snd found else None)
    | None => (DEFAULT_TOKENS_PER_MINUTE, if get_delivers oc then snd found else None)
    end in
  let verdict := if Qlt_le_dec (fst start) 1 then false else true in
  let left := if verdict then fst start - 1 else fst start in
  let entry :=
    match snd start with
    | Some existing =>
        {| cache_tokens :=
             Qmin DEFAULT_TOKENS_PER_MINUTE
               (tokens existing
                + inject_Z (now - lastRefill existing) / 1000 * REFILL_RATE);
           cache_lastRefill := lastRefill existing; cache_lastUpdate := now |}
    | None =>
        {| cache_tokens := left; cache_lastRefill := now; cache_lastUpdate := now |}
    end in
  (verdict, entry, {| tokens := left; lastRefill := now |}).


(** A record that says the bucket is empty, written at 1700000000000. *)
Definition drained_record_store : Store :=
  {| rateCache := ∅;
     RATE_LIMIT_KV :=
       {[ lit "rate:203.0.113.7" := {| tokens := 0; lastRefill := 1700000000000 |} ]} |}.


(** A run of combined checks against one egress: the client of each call
    and, for each of its two checks, the clock reading and the outcomes of
    the store operations. *)
Fixpoint run_combined (proxyUrl : option jsstring)
    (calls : list (jsstring * (Z * KvOutcome) * (Z * KvOutcome))) (st : Store)
    : list RateLimitResult * Store :=
  match calls with
  | [] => ([], st)
  | (clientIP, (now1, oc1), (now2, oc2)) :: calls' =>
      let '(r, st) := checkCombinedRateLimit clientIP proxyUrl now1 oc1 now2 oc2 st in
      let '(rs, st) := run_combined proxyUrl calls' st in
      (r :: rs, st)
  end.

(** The number of admissions among the results. *)
Definition served (results : list RateLimitResult) : nat :=
  length (List.filter allowed results).



(** Seventy calls of seventy clients, 10 ms apart, through one egress. *)
Definition example_crowd : list (jsstring * (Z * KvOutcome) * (Z * KvOutcome)) :=
  List.map (fun k => (lit "client-" ++ [N.of_nat k],
                      (1700000000000 + 10 * Z.of_nat k, kv_fine),
                      (1700000000000 + 10 * Z.of_nat k, kv_fine))%Z)
    (seq 0 70).

End RateExtra.

(** ** [getClientIP] of [src/lib/rateLimit.ts] *)

Module ClientAddress.
Import JS Value Fetch.

(** [headers.get("X-Forwarded-For")?.split(",")[0]?.trim()]; [None] is
    [undefined]. *)
Definition first_forwarded (headers : header_list) : option jsstring :=
  match get headers (lit "X-Forwarded-For") with
  | Some forwarded => trim <$> head (split 44 forwarded)
  | None => None
  end.

(** [x || "unknown"]. *)
Definition or_default_string (x : option jsstring) : jsstring :=
  match x with
  | Some s => if truthy s then s else lit "unknown"
  | None => lit "unknown"
  end.

(** [getClientIP(request)], on the headers of the request. *)
Definition getClientIP (headers : header_list) : jsstring :=
  match get headers (lit "CF-Connecting-IP") with
  | Some ip =>
      if truthy ip then ip
      else or_default_string (first_forwarded headers)
  | None => or_default_string (first_forwarded headers)
  end.

Definition example_request_headers : header_list :=
  [(lit "x-forwarded-for", lit " 198.51.100.4 , 10.0.0.1");
   (lit "accept", lit "*/*")].

Definition example_env : ProxyManager.Env :=
  {| ProxyManager.PROXY_URLS := Some (lit "https://a.example, https://b.example ,") |}.

End ClientAddress.

(** ** Further definitions for the statements on the request *)

Module QueryExtra.
Import JS Value Query Reference.
Local Open Scope Z_scope.

(** A code of the table normalises to itself. *)
Definition code_fixed (e : jsstring * jsstring) : bool :=
  match normalizeLanguageCode (Some (snd e)) with
  | VString r => str_eqb r (snd e)
  | _ => false
  end
  && forallb (fun c => negb (is_lower c)) (snd e).

(** Lines 227-231: the record of headers that [makeRequest] prepares. *)
Definition base_headers (fingerprint : list (jsstring * jsstring))
    (customHeader : option (list (jsstring * jsstring)))
    : list (jsstring * jsstring) :=
  object_spread
    (object_spread [(lit "Content-Type", lit "application/json; charset=utf-8")]
       fingerprint)
    (default [] customHeader).

(** What [makeRequest] makes of the outcome of [fetch]. *)
Definition fetch_outcome (timeoutSeconds : Z) (endpoint : jsstring)
    (fetched : Error + Response) : Error + Response :=
  match fetched with
  | inr response => inr response
  | inl error =>
      if str_eqb (name error) (lit "AbortError") then
        inl (with_status
               (new_Error (lit "Request timeout after "
                           ++ number_to_string timeoutSeconds
                           ++ lit " seconds to " ++ endpoint))
               (Some 408))
      else inl error
  end.

Definition plain_config : Config :=
  {| proxyEndpoint := None; clientIP := Some (lit "203.0.113.7");
     customHeader := None; env := None |}.


(** The admissions of a sequence of attempts, of whatever requests and
    callers, on the one store of the worker. *)
Fixpoint admissions_of (API_URL : jsstring)
    (attempts : list (option Config * AttemptWorld)) (st : RateLimit.Store)
    : list RateLimit.RateLimitResult * RateLimit.Store :=
  match attempts with
  | [] => ([], st)
  | (config, w) :: attempts' =>
      let '(r, st) := admission API_URL config w st in
      let '(rs, st) := admissions_of API_URL attempts' st in
      (r :: rs, st)
  end.


(** A caller without a proxy: the environment names none. *)
Definition direct_config (caller : jsstring) : Config :=
  {| proxyEndpoint := None; clientIP := Some caller; customHeader := None;
     env := Some {| ProxyManager.PROXY_URLS := None |} |}.

(** The surroundings of an attempt that starts at the time [t]; the
    upstream answers as in [example_world]. *)
Definition world_at (t : Z) : AttemptWorld :=
  {| proxyIndex := 0; clientCheckTime := t;
     clientCheckKv := RateLimit.Build_KvOutcome true true;
     proxyCheckTime := t + 1;
     proxyCheckKv := RateLimit.Build_KvOutcome true true;
     uaIndex := 1; langIndex := 2;
     paramsTime := t + 2; randomComponent := 24;
     timestampTime := t + 3;
     fetched := fetched (QueryReference.example_world 0) |}.

(** Seventy callers, 10 ms apart, none with a proxy. *)
Definition example_callers : list (option Config * AttemptWorld) :=
  List.map (fun k => (Some (direct_config (lit "client-" ++ [N.of_nat k])),
                      world_at (1700000000100 + 10 * Z.of_nat k)))
    (seq 0 70).

(** The surroundings [w] with another outcome of [fetch]. *)
Definition with_fetched (w : AttemptWorld) (f : Error + Response) : AttemptWorld :=
  {| proxyIndex := proxyIndex w; clientCheckTime := clientCheckTime w;
     clientCheckKv := clientCheckKv w; proxyCheckTime := proxyCheckTime w;
     proxyCheckKv := proxyCheckKv w; uaIndex := uaIndex w; langIndex := langIndex w;
     paramsTime := paramsTime w; randomComponent := randomComponent w;
     timestampTime := timestampTime w; fetched := f |}.

End QueryExtra.

(** ** The earlier edition of [src/lib/proxyManager.ts]

    The sources hold the module a second time, as it was before the
    deny-list came in: the loop runs over [entries()] and tests the
    prefix cf- alone. *)

Module ProxyManagerEarlier.
Import JS Value Fetch.

(** [Array.from(headers.entries())]. *)
Definition Headers_entries (l : loc) : M (list header) :=
  bind (read l) (fun hl => ret (sort_and_combine hl)).

Definition REAL_CLIENT_IP_HEADER : jsstring := lit "X-Real-Client-IP".

(** The test of the loop body. *)
Definition internal (name : jsstring) : bool :=
  startsWith (toLowerCase name) (lit "cf-").

(** [prepareRequestHeaders(origHeaders, clientIp)] of the earlier edition. *)
Definition prepareRequestHeaders (origHeaders : HeadersInit)
    (clientIp : option jsstring) : M loc :=
  bind (new_Headers origHeaders) (fun newHeaders =>
  bind (Headers_entries newHeaders) (fun entries =>
  bind (for_of entries (fun entry =>
          let name := fst entry in
          if internal name then Headers_delete newHeaders name else ret tt))
       (fun _ =>
  bind (match clientIp with
        | Some ip =>
            if truthy ip then Headers_set newHeaders REAL_CLIENT_IP_HEADER ip
            else ret tt
        | None => ret tt
        end) (fun _ =>
  ret newHeaders)))).

(** The list operation of a loop that deletes the names a test selects. *)
Definition strip_with (sel : jsstring → bool) (names : list jsstring)
    (hl : header_list) : header_list :=
  List.fold_left (fun hl name => if sel name then delete_all hl name else hl) names hl.

(** What the earlier edition leaves of a list of headers. *)
Definition kept_earlier (hl : header_list) : header_list :=
  List.filter (fun h => negb (internal (fst h))) hl.

(** The list after the address is set, when one is supplied. *)
Definition set_injected (hl : header_list) (clientIp : option jsstring) : header_list :=
  match clientIp with
  | Some ip =>
      if truthy ip then set_first hl REAL_CLIENT_IP_HEADER (normalize ip) else hl
  | None => hl
  end.

End ProxyManagerEarlier.

(** * Properties *)

(** ** The timestamp perturbation *)

Module TimestampFacts.
Import JS Value Query Reference.
Local Open Scope Z_scope.

Lemma split_nonempty sep s : split sep s ≠ [].
Proof.
  destruct s as [|c s]; simpl; [discriminate|].
  destruct (c =? sep)%N; [discriminate|].
  destruct (split sep s); discriminate.
Qed.

Lemma split_length sep s :
  length (split sep s) = S (length (List.filter (fun c => (c =? sep)%N) s)).
Proof.
  induction s as [|c s IH]; simpl; [reflexivity|].
  destruct (c =? sep)%N; simpl.
  - now rewrite IH.
  - pose proof (split_nonempty sep s) as Hne.
    destruct (split sep s) as [|piece pieces]; [congruence|].
    exact IH.
Qed.

Lemma countLetterI_occurrences s :
  countLetterI s = Z.of_nat (occurrences_of_i s).
Proof. unfold countLetterI, occurrences_of_i. rewrite split_length. lia. Qed.

Lemma countLetterI_nonneg s : 0 <= countLetterI s.
Proof. rewrite countLetterI_occurrences. lia. Qed.

Lemma adjusted_multiple now m :
  0 < m → (now - now mod m + m) mod m = 0.
Proof.
  intros Hm.
  replace (now - now mod m + m) with ((now / m + 1) * m).
  - apply Z.mod_mul. lia.
  - pose proof (Z.div_mod now m). lia.
Qed.

Lemma adjusted_bounds now m :
  0 < m → now < now - now mod m + m <= now + m.
Proof. intros Hm. pose proof (Z.mod_pos_bound now m Hm). lia. Qed.

(** The value of [getTimestamp] for a count within the guard. *)
Lemma getTimestamp_small n now :
  0 <= now → 0 < n → n + 1 <= 1000 →
  getTimestamp n now =
    if (now - now mod (n + 1) + (n + 1) <=? MAX_SAFE_INTEGER)
    then now - now mod (n + 1) + (n + 1) else now.
Proof.
  intros Hnow Hn Hguard. unfold getTimestamp.
  rewrite Z.max_r by lia.
  destruct (Z.eqb_spec n 0); [lia|].
  destruct (Z.leb_spec (n + 1) 0); [lia|].
  destruct (Z.ltb_spec 1000 (n + 1)); [lia|]. simpl.
  rewrite Z.rem_mod_nonneg by lia.
  pose proof (adjusted_bounds now (n + 1)) as Hb.
  destruct (Z.ltb_spec 0 (now - now mod (n + 1) + (n + 1))); [|lia].
  destruct (Z.leb_spec (now - 1000) (now - now mod (n + 1) + (n + 1))); [|lia].
  now rewrite andb_true_r.
Qed.

Lemma getTimestamp_zero now : getTimestamp 0 now = now.
Proof. reflexivity. Qed.

Lemma getTimestamp_large n now : 1000 < n + 1 → getTimestamp n now = now.
Proof.
  intros Hn. unfold getTimestamp. rewrite Z.max_r by lia.
  destruct (Z.eqb_spec n 0); [reflexivity|].
  destruct (Z.ltb_spec 1000 (n + 1)); [|lia].
  now rewrite orb_true_r.
Qed.

(** C1, as stated, fails: a text with 1000 letters "i" read at the time
    1700000000000 has an adjusted timestamp 699 ms (at most 1000)
    ahead, positive and safe, yet [getTimestamp] returns the raw time. *)
Lemma getTimestamp_differs_from_specified :
  let text := repeat 105%N 1000 in
  let now := 1700000000000 in
  countLetterI text = 1000
  ∧ timestamp_as_specified (countLetterI text) now = 1700000000699
  ∧ getTimestamp (countLetterI text) now = now.
Proof. vm_compute. repeat split. Qed.

(** C1 (amended): with [n] the number of "i" in the text and [now] the
    raw time, [getTimestamp] returns [now] when [n = 0]; when [0 < n] and
    [n + 1 <= 1000] it returns the adjusted timestamp of the
    specification, taken exactly when within 1000 ms, positive and safe;
    when [n + 1 > 1000] it returns [now]; and whenever its result is not
    the raw time, the result is the adjusted value, a multiple of [n + 1]
    at most 1000 ms ahead. *)
Theorem getTimestamp_rule (text : jsstring) (now : Z) :
  0 <= now →
  let n := countLetterI text in
  n = Z.of_nat (occurrences_of_i text)
  ∧ (n = 0 → getTimestamp n now = now)
  ∧ (0 < n → n + 1 <= 1000 →
     getTimestamp n now = timestamp_as_specified n now)
  ∧ (1000 < n + 1 → getTimestamp n now = now)
  ∧ (getTimestamp n now ≠ now →
     getTimestamp n now = now - now mod (n + 1) + (n + 1)
     ∧ getTimestamp n now mod (n + 1) = 0
     ∧ now < getTimestamp n now <= now + 1000
     ∧ getTimestamp n now <= MAX_SAFE_INTEGER).
Proof.
  intros Hnow n.
  assert (Hn : 0 <= n) by apply countLetterI_nonneg.
  split; [apply countLetterI_occurrences|].
  split; [intros ->; apply getTimestamp_zero|].
  split.
  { intros Hpos Hguard. rewrite getTimestamp_small by lia.
    unfold timestamp_as_specified.
    pose proof (adjusted_bounds now (n + 1)) as Hb.
    destruct (Z.leb_spec (Z.abs (now - now mod (n + 1) + (n + 1) - now)) 1000);
      [|lia].
    destruct (Z.ltb_spec 0 (now - now mod (n + 1) + (n + 1))); [|lia].
    reflexivity. }
  split; [apply getTimestamp_large|].
  intros Hne.
  destruct (Z.eq_dec n 0) as [Hz|Hz];
    [rewrite Hz in Hne; now rewrite getTimestamp_zero in Hne|].
  destruct (Z_lt_le_dec 1000 (n + 1)) as [Hbig|Hsmall];
    [now rewrite getTimestamp_large in Hne|].
  rewrite getTimestamp_small in * by lia.
  pose proof (adjusted_bounds now (n + 1)) as Hb.
  destruct (Z.leb_spec (now - now mod (n + 1) + (n + 1)) MAX_SAFE_INTEGER);
    [|congruence].
  repeat split; try lia. apply adjusted_multiple. lia.
Qed.

Lemma getTimestamp_rule_witness :
  let text := lit "Hi, this is it" in
  let now := 1700000000123 in
  countLetterI text = 4
  ∧ getTimestamp (countLetterI text) now = 1700000000125
  ∧ getTimestamp (countLetterI text) now mod (countLetterI text + 1) = 0.
Proof.
  pose proof (getTimestamp_rule (lit "Hi, this is it") 1700000000123) as H.
  assert (Hnow : 0 <= 1700000000123) by lia.
  specialize (H Hnow). cbv zeta in H.
  destruct H as (_ & _ & _ & _ & H).
  assert (Hne : getTimestamp (countLetterI (lit "Hi, this is it")) 1700000000123
                ≠ 1700000000123) by (vm_compute; discriminate).
  destruct (H Hne) as (_ & Hmod & _).
  split; [vm_compute; reflexivity|].
  split; [vm_compute; reflexivity|exact Hmod].
Defined.

End TimestampFacts.

(** ** The spacing variant of the serialised body *)

Module SpacingFacts.
Import JS Value Query Reference.
Local Open Scope Z_scope.

Lemma replace_after_head rep tail :
  replace spacing_pattern rep (envelope_head ++ spacing_pattern ++ tail)
  = envelope_head ++ rep ++ tail.
Proof. reflexivity. Qed.

Lemma or_value_idem v b : or_value (or_value v b) b = or_value v b.
Proof.
  unfold or_value. destruct (truthy_value v) eqn:E; [now rewrite E|].
  simpl. now destruct (truthy b).
Qed.

(** An envelope that is built is the record of [buildRequestParams] with
    the text and the timestamp put in. *)
Lemma requestEnvelope_returns alts text data now1 rand now2 requestData :
  requestEnvelope alts text data now1 rand now2 = inr requestData →
  ∃ source target,
    normalizeLanguageCode_value (or_value (source_lang data) (lit "auto")) = inr source
    ∧ normalizeLanguageCode_value (or_value (target_lang data) (lit "en")) = inr target
    ∧ requestData
      = {| Envelope.jsonrpc := lit "2.0";
           Envelope.method := lit "LMT_handle_texts";
           Envelope.id := Z.rem now1 100000000 + Z.rem rand 100000000;
           Envelope.params :=
             {| Envelope.texts :=
                  [{| Envelope.text := text; Envelope.requestAlternatives := alts |}];
                Envelope.timestamp := getTimestamp (countLetterI text) now2;
                Envelope.splitting := lit "newlines";
                Envelope.lang :=
                  {| Envelope.source_lang_user_selected := source;
                     Envelope.target_lang := target |} |} |}.
Proof.
  unfold requestEnvelope, buildRequestParams. cbv zeta. rewrite !or_value_idem.
  destruct (normalizeLanguageCode_value (or_value (source_lang data) (lit "auto")))
    as [e|source]; [intros H; cbv beta iota in H; discriminate H|].
  destruct (normalizeLanguageCode_value (or_value (target_lang data) (lit "en")))
    as [e|target]; [intros H; cbv beta iota in H; discriminate H|].
  intros H. cbv beta iota in H. exists source, target.
  split; [reflexivity|]. split; [reflexivity|].
  symmetry. exact (f_equal (fun r => match r with inr d => d | inl _ => requestData end) H).
Qed.

Lemma stringify_shape alts text data now1 rand now2 requestData :
  requestEnvelope alts text data now1 rand now2 = inr requestData →
  Envelope.id requestData = Z.rem now1 100000000 + Z.rem rand 100000000
  ∧ ∃ tail,
      Envelope.stringify requestData = envelope_head ++ spacing_pattern ++ tail.
Proof.
  intros H. apply requestEnvelope_returns in H as (source & target & _ & _ & ->).
  split; [reflexivity|]. eexists. reflexivity.
Qed.

Lemma rem_zero_iff_mod_zero a b : b ≠ 0 → Z.rem a b = 0 ↔ a mod b = 0.
Proof.
  intros Hb. rewrite Z.rem_divide by exact Hb. now rewrite Z.mod_divide by exact Hb.
Qed.

Lemma spaced_id_spec requestId :
  spaced_id requestId = true
  ↔ (requestId + 5) mod 29 = 0 ∨ (requestId + 3) mod 13 = 0.
Proof.
  unfold spaced_id. rewrite orb_true_iff, !Z.eqb_eq.
  now rewrite !rem_zero_iff_mod_zero by discriminate.
Qed.

Lemma forms_differ tail :
  envelope_head ++ spaced_form ++ tail ≠ envelope_head ++ compact_form ++ tail.
Proof. intros H. apply app_inv_head in H. discriminate H. Qed.

Lemma buildRequestBody_returns limits alts data now1 rand now2 out :
  buildRequestBody limits alts (Some data) now1 rand now2 = inr out →
  ∃ trimmedText requestData,
    text data = VString trimmedText
    ∧ requestEnvelope alts trimmedText data now1 rand now2 = inr requestData
    ∧ out = formatRequestString requestData.
Proof.
  unfold buildRequestBody. intros H.
  destruct (text data) as [| |b|z|trimmedText|f|]; try discriminate;
    try (destruct (_ || _); discriminate).
  destruct (negb (truthy_value (VString trimmedText)) || negb (is_string (VString trimmedText)));
    [discriminate|].
  destruct (negb (truthy trimmedText)); [discriminate|].
  destruct (MAX_TEXT_LENGTH limits <? str_length trimmedText); [discriminate|].
  destruct (requestEnvelope alts trimmedText data now1 rand now2)
    as [e|requestData] eqn:Henvelope; [discriminate|].
  exists trimmedText, requestData. split; [reflexivity|]. split; [exact Henvelope|].
  cbv zeta in H.
  destruct (getTimestamp (countLetterI trimmedText) now2 <=? 0); [discriminate|].
  destruct (MAX_REQUEST_SIZE limits <? _); [discriminate|].
  now inversion H.
Qed.

(** C2: a body returned by [buildRequestBody] is the serialised envelope
    with its first [spacing_pattern] rewritten, and the request id alone
    decides how: to the form with a space on both sides of the colon when
    [(id+5) mod 29 = 0] or [(id+3) mod 13 = 0], to the form with a single
    space after the colon otherwise. The two results differ, so exactly one
    form is applied; the id 24 takes the first, the id 1 the second. *)
Theorem spacing_variant_by_id limits alts data now1 rand now2 out :
  buildRequestBody limits alts (Some data) now1 rand now2 = inr out →
  let requestId := Z.rem now1 100000000 + Z.rem rand 100000000 in
  ∃ trimmedText requestData tail,
    text data = VString trimmedText
    ∧ requestEnvelope alts trimmedText data now1 rand now2 = inr requestData
    ∧ Envelope.id requestData = requestId
    ∧ Envelope.stringify requestData = envelope_head ++ spacing_pattern ++ tail
    ∧ ((requestId + 5) mod 29 = 0 ∨ (requestId + 3) mod 13 = 0 →
       out = envelope_head ++ spaced_form ++ tail)
    ∧ (¬ ((requestId + 5) mod 29 = 0 ∨ (requestId + 3) mod 13 = 0) →
       out = envelope_head ++ compact_form ++ tail)
    ∧ envelope_head ++ spaced_form ++ tail ≠ envelope_head ++ compact_form ++ tail
    ∧ spaced_id 24 = true ∧ spaced_id 1 = false.
Proof.
  intros Hout requestId.
  destruct (buildRequestBody_returns _ _ _ _ _ _ _ Hout)
    as (trimmedText & requestData & Htext & Henvelope & ->).
  destruct (stringify_shape _ _ _ _ _ _ _ Henvelope) as [Hid [tail Htail]].
  exists trimmedText, requestData, tail.
  split; [exact Htext|]. split; [exact Henvelope|]. split; [exact Hid|].
  split; [exact Htail|].
  unfold formatRequestString. rewrite Htail, Hid. fold requestId.
  split; [|split; [|split; [apply forms_differ|split; reflexivity]]].
  - intros Hrule. apply spaced_id_spec in Hrule. rewrite Hrule.
    apply replace_after_head.
  - intros Hrule. destruct (spaced_id requestId) eqn:E.
    + apply spaced_id_spec in E. contradiction.
    + apply replace_after_head.
Qed.

Lemma spacing_variant_by_id_witness :
  buildRequestBody example_limits 3 (Some example_request)
    1700000000000 24 1700000000123 = inr example_body_24
  ∧ ∃ tail, example_body_24 = envelope_head ++ spaced_form ++ tail.
Proof.
  assert (Hout : buildRequestBody example_limits 3 (Some example_request)
                   1700000000000 24 1700000000123 = inr example_body_24)
    by (vm_compute; reflexivity).
  split; [exact Hout|].
  destruct (spacing_variant_by_id _ _ _ _ _ _ _ Hout)
    as (trimmedText & requestData & tail & _ & _ & _ & _ & Hspaced & _).
  exists tail. apply Hspaced. left. vm_compute. reflexivity.
Defined.

(** The same request with the id 1 takes the other form. *)
Example compact_form_for_id_1 :
  ∃ out tail,
    buildRequestBody example_limits 3 (Some example_request)
      1700000000000 1 1700000000123 = inr out
    ∧ out = envelope_head ++ compact_form ++ tail.
Proof. eexists. eexists. split; vm_compute; reflexivity. Qed.

End SpacingFacts.

(** ** The rejections of the request builder *)

Module RequestBodyFacts.
Import JS Value Query Reference.
Local Open Scope Z_scope.

Lemma getTimestamp_positive n now : 0 < now → 0 < getTimestamp n now.
Proof.
  intros Hnow. unfold getTimestamp.
  destruct (Z.max 0 n =? 0); [exact Hnow|].
  destruct ((Z.max 0 n + 1 <=? 0) || (1000 <? Z.max 0 n + 1)); [exact Hnow|].
  cbv zeta.
  destruct (Z.ltb_spec 0 (now - Z.rem now (Z.max 0 n + 1) + (Z.max 0 n + 1)));
    simpl; [|exact Hnow].
  destruct (_ && _); [assumption|exact Hnow].
Qed.

Lemma truthy_false s : truthy s = false ↔ s = [].
Proof. destruct s; simpl; split; congruence. Qed.

(** [normalizeLanguageCode] throws on the values that are neither strings
    nor falsy, and on no other. *)
Lemma language_thrown v b :
  truthy b = true →
  (∃ e, normalizeLanguageCode_value (or_value v b) = inl e) ↔ language_ok v = false.
Proof.
  intros Hb. unfold or_value, language_ok.
  destruct (truthy_value v) eqn:E; cbn [negb].
  - rewrite orb_false_r.
    destruct v; cbn [normalizeLanguageCode_value is_string]; rewrite ?E;
      (split;
       [intros [e He]; try discriminate He; reflexivity
       |intros H; try discriminate H; eexists; reflexivity]).
  - rewrite orb_true_r. split; [intros [e He]; discriminate He|discriminate].
Qed.

Lemma language_returned v b :
  truthy b = true →
  (∃ r, normalizeLanguageCode_value (or_value v b) = inr r) ↔ language_ok v = true.
Proof.
  intros Hb. pose proof (language_thrown v b Hb) as Hthrown.
  destruct (language_ok v).
  - split; [reflexivity|]. intros _.
    destruct (normalizeLanguageCode_value (or_value v b)) as [e|r]; [|eauto].
    destruct Hthrown as [H _]. discriminate (H (ex_intro _ e eq_refl)).
  - split; [|discriminate]. intros [r Hr].
    destruct Hthrown as [_ H]. destruct (H eq_refl) as [e He]. congruence.
Qed.

(** The envelope is built exactly when both languages are strings or
    falsy; otherwise a TypeError is thrown. *)
Lemma requestEnvelope_built alts t d now1 rand now2 :
  (∃ requestData, requestEnvelope alts t d now1 rand now2 = inr requestData)
  ↔ language_ok (source_lang d) && language_ok (target_lang d) = true.
Proof.
  rewrite andb_true_iff.
  rewrite <- (language_returned (source_lang d) (lit "auto") eq_refl).
  rewrite <- (language_returned (target_lang d) (lit "en") eq_refl).
  split.
  - intros [requestData H].
    apply SpacingFacts.requestEnvelope_returns in H as (source & target & Hs & Ht & _).
    eauto.
  - intros [[source Hs] [target Ht]].
    unfold requestEnvelope, buildRequestParams. cbv zeta.
    rewrite !SpacingFacts.or_value_idem, Hs, Ht. eexists. reflexivity.
Qed.

Lemma requestEnvelope_thrown alts t d now1 rand now2 e :
  requestEnvelope alts t d now1 rand now2 = inl e →
  language_ok (source_lang d) && language_ok (target_lang d) = false
  ∧ name e = lit "TypeError".
Proof.
  intros H. split.
  - apply not_true_is_false. intros Hok.
    apply (requestEnvelope_built alts t d now1 rand now2) in Hok as [requestData Hr].
    congruence.
  - revert H. unfold requestEnvelope, buildRequestParams. cbv zeta.
    assert (Hname : ∀ v e', normalizeLanguageCode_value v = inl e' →
                            name e' = lit "TypeError").
    { intros v e'. unfold normalizeLanguageCode_value.
      destruct v as [| |b|z|s'|f|]; try discriminate;
        destruct (truthy_value _); try discriminate;
        intros H; inversion H; reflexivity. }
    destruct (normalizeLanguageCode_value (or_value (or_value (source_lang d) _) _))
      as [e1|source] eqn:Hs.
    { intros H. cbv beta iota in H. inversion H; subst. exact (Hname _ _ Hs). }
    destruct (normalizeLanguageCode_value (or_value (or_value (target_lang d) _) _))
      as [e2|target] eqn:Ht.
    { intros H. cbv beta iota in H. inversion H; subst. exact (Hname _ _ Ht). }
    intros H. cbv beta iota in H. discriminate H.
Qed.

(** C7, as stated, fails: a request with a text that passes every test and
    a source language that is a number makes [buildRequestBody] throw a
    TypeError, and none of the named cases holds. *)
Lemma buildRequestBody_throws_on_language :
  ∃ e, buildRequestBody example_limits 3
         (Some {| text := VString (lit "Hi"); source_lang := VNumber 5;
                  target_lang := VString (lit "de") |})
         1700000000000 24 1700000000123 = inl e
       ∧ name e = lit "TypeError"
       ∧ ¬ Rejected example_limits 3 1700000000000 24 1700000000123
             (Some {| text := VString (lit "Hi"); source_lang := VNumber 5;
                      target_lang := VString (lit "de") |}).
Proof.
  eexists. split; [vm_compute; reflexivity|]. split; [reflexivity|].
  intros Hrej.
  inversion Hrej as [|d Hns|d He|d t Ht Hl|d t requestData Ht Henv Hl]; subst.
  - discriminate Hns.
  - discriminate He.
  - cbn [text] in Ht. inversion Ht; subst. vm_compute in Hl. discriminate Hl.
  - vm_compute in Henv. discriminate Henv.
Qed.

(** C7 (amended): [buildRequestBody] throws exactly when the text is
    missing, no string or empty, or longer than the configured maximum, or
    when the encoded length of the final payload exceeds the configured
    maximum, or -- the two cases that the rule leaves out -- when a language
    is neither a string nor falsy, or when the timestamp is not positive;
    otherwise it returns the serialised request string. With the clock past
    the epoch and languages that are strings or falsy, the two further cases
    do not arise. *)
Theorem buildRequestBody_rejects_exactly limits alts data now1 rand now2 :
  ((∃ e, buildRequestBody limits alts data now1 rand now2 = inl e)
   ↔ Rejected limits alts now1 rand now2 data ∨ AlsoThrown limits now2 data)
  ∧ (¬ (Rejected limits alts now1 rand now2 data ∨ AlsoThrown limits now2 data) →
     ∃ d trimmedText requestData,
       data = Some d ∧ text d = VString trimmedText
       ∧ requestEnvelope alts trimmedText d now1 rand now2 = inr requestData
       ∧ buildRequestBody limits alts data now1 rand now2
         = inr (formatRequestString requestData))
  ∧ (0 < now2 →
     (∀ d, data = Some d →
           language_ok (source_lang d) && language_ok (target_lang d) = true) →
     ¬ AlsoThrown limits now2 data).
Proof.
  assert (Hcases :
    (Rejected limits alts now1 rand now2 data ∨ AlsoThrown limits now2 data)
    ∧ (∃ e, buildRequestBody limits alts data now1 rand now2 = inl e)
    ∨ ¬ (Rejected limits alts now1 rand now2 data ∨ AlsoThrown limits now2 data)
      ∧ ∃ d trimmedText requestData,
          data = Some d ∧ text d = VString trimmedText
          ∧ requestEnvelope alts trimmedText d now1 rand now2 = inr requestData
          ∧ buildRequestBody limits alts data now1 rand now2
            = inr (formatRequestString requestData)).
  { destruct data as [d|]; [|left; split; [left; constructor|eexists; reflexivity]].
    unfold buildRequestBody.
    destruct (text d) as [| |b|z|t|f|] eqn:Ht;
      try (left; split;
           [left; apply rejected_not_a_string; rewrite Ht; reflexivity
           |destruct (_ || _); eexists; reflexivity]).
    cbn [truthy_value is_string negb]. rewrite orb_false_r.
    destruct (truthy t) eqn:Htruthy; cbn [negb];
      [|left; apply truthy_false in Htruthy; subst t; split;
        [left; now apply rejected_empty|eexists; reflexivity]].
    destruct (Z.ltb_spec (MAX_TEXT_LENGTH limits) (str_length t)) as [Hlong|Hlen];
      [left; split; [left; eapply rejected_text_too_long; eauto|eexists; reflexivity]|].
    destruct (requestEnvelope alts t d now1 rand now2) as [e|requestData] eqn:Henv.
    { left. split; [|eexists; reflexivity]. right.
      apply (thrown_language limits now2 d t Ht); [|exact Hlen|].
      - intros ->. discriminate Htruthy.
      - exact (proj1 (requestEnvelope_thrown _ _ _ _ _ _ _ Henv)). }
    cbv zeta.
    destruct (Z.leb_spec (getTimestamp (countLetterI t) now2) 0) as [Hneg|Hpos];
      [left; split; [right; eapply thrown_timestamp; eauto|eexists; reflexivity]|].
    destruct (Z.ltb_spec (MAX_REQUEST_SIZE limits)
                (utf8_length (formatRequestString requestData))) as [Hbig|Hsize];
      [left; split; [left; eapply rejected_payload_too_large; eauto|eexists; reflexivity]|].
    right. split; [|exists d, t, requestData; repeat split; assumption].
    intros [Hrej|Halso].
    - inversion Hrej as [|d' Hns|d' He|d' t' Ht' Hl|d' t' rd' Ht' Henv' Hl]; subst.
      + rewrite Ht in Hns. discriminate.
      + rewrite Ht in He. inversion He; subst. discriminate.
      + rewrite Ht in Ht'. inversion Ht'; subst. lia.
      + rewrite Ht in Ht'. inversion Ht'; subst.
        rewrite Henv in Henv'. inversion Henv'; subst. lia.
    - inversion Halso as [d' t' Ht' Hne Hl Hlang|d' t' Ht' Hts]; subst.
      + pose proof (proj1 (requestEnvelope_built alts t d now1 rand now2)
                      (ex_intro _ requestData Henv)) as Hok.
        congruence.
      + rewrite Ht in Ht'. inversion Ht'; subst. lia. }
  split; [split|split].
  - intros [e He]. destruct Hcases as [[Hr _]|[_ (d & t & rd & _ & _ & _ & Hok)]];
      [exact Hr|congruence].
  - intros Hr. destruct Hcases as [[_ He]|[Hn _]]; [exact He|contradiction].
  - intros Hn. destruct Hcases as [[Hr _]|[_ Hok]]; [contradiction|exact Hok].
  - intros Hnow Hlang Halso.
    inversion Halso as [d t Ht Hne Hl Hbad|d t Ht Hts]; subst.
    + rewrite (Hlang d eq_refl) in Hbad. discriminate.
    + pose proof (getTimestamp_positive (countLetterI t) now2 Hnow). lia.
Qed.

Lemma buildRequestBody_rejects_exactly_witness :
  (∃ e, buildRequestBody example_limits 3
          (Some {| text := VString long_text; source_lang := VUndefined;
                   target_lang := VUndefined |})
          1700000000000 24 1700000000123 = inl e)
  ∧ (∃ e, buildRequestBody example_limits 3
            (Some {| text := VString (lit "Hi"); source_lang := VBoolean true;
                     target_lang := VNull |})
            1700000000000 24 1700000000123 = inl e)
  ∧ ¬ AlsoThrown example_limits 1700000000123 (Some example_request).
Proof.
  split; [|split].
  - apply (proj1 (buildRequestBody_rejects_exactly example_limits 3 _
                    1700000000000 24 1700000000123)).
    left. eapply rejected_text_too_long; [reflexivity|]. vm_compute. reflexivity.
  - apply (proj1 (buildRequestBody_rejects_exactly example_limits 3 _
                    1700000000000 24 1700000000123)).
    right. eapply thrown_language; [reflexivity|discriminate| |reflexivity].
    vm_compute. discriminate.
  - apply (proj2 (proj2 (buildRequestBody_rejects_exactly example_limits 3
                           (Some example_request) 1700000000000 24 1700000000123)));
      [lia|]. intros d Hd. inversion Hd; subst. reflexivity.
Defined.

(** Each rejection on an example. *)
Example rejects_empty_text :
  ∃ e, buildRequestBody example_limits 3
         (Some {| text := VString []; source_lang := VUndefined;
                  target_lang := VUndefined |})
         1700000000000 24 1700000000123 = inl e.
Proof. eexists. reflexivity. Qed.

Example rejects_number_text :
  ∃ e, buildRequestBody example_limits 3
         (Some {| text := VNumber 7; source_lang := VUndefined;
                  target_lang := VUndefined |})
         1700000000000 24 1700000000123 = inl e.
Proof. eexists. reflexivity. Qed.

Example rejects_large_payload :
  ∃ e, buildRequestBody {| MAX_TEXT_LENGTH := 5000; MAX_REQUEST_SIZE := 100 |} 3
         (Some example_request) 1700000000000 24 1700000000123 = inl e.
Proof. eexists. vm_compute. reflexivity. Qed.

(** At the epoch the timestamp of a text without the letter is 0, and the
    builder throws for that alone. *)
Example rejects_clock_at_epoch :
  buildRequestBody example_limits 3
    (Some {| text := VString (lit "Hallo"); source_lang := VUndefined;
             target_lang := VUndefined |})
    1700000000000 24 0
  = inl (new_Error (lit "Invalid timestamp generated")).
Proof. vm_compute. reflexivity. Qed.

End RequestBodyFacts.

(** ** Language-code normalisation *)

Module LanguageFacts.
Import JS Value Query Reference.

Lemma lower_unit_casing c b :
  is_lower b = true → c = b ∨ c = upper_unit b → lower_unit c = b.
Proof.
  intros Hb. unfold upper_unit. rewrite Hb.
  unfold is_lower in Hb. apply andb_true_iff in Hb as [H1 H2].
  apply N.leb_le in H1, H2.
  unfold lower_unit, is_upper.
  intros [->| ->].
  - destruct (N.leb_spec 65 b), (N.leb_spec b 90); simpl; lia.
  - destruct (N.leb_spec 65 (b - 32)), (N.leb_spec (b - 32) 90); simpl; lia.
Qed.

Lemma toLowerCase_casing s base :
  lower_case base → casing_of s base → toLowerCase s = base.
Proof.
  intros Hlow Hcas. induction Hcas as [|c b s base Hcb _ IH]; [reflexivity|].
  inversion Hlow; subst. simpl. f_equal; [now apply lower_unit_casing|now apply IH].
Qed.

Lemma casing_nonempty s base : casing_of s base → truthy base = true → truthy s = true.
Proof. intros H. destruct H; simpl; congruence. Qed.

Lemma upper_lower_unit c : upper_unit (lower_unit c) = upper_unit c.
Proof.
  unfold upper_unit, lower_unit, is_lower, is_upper.
  destruct (N.leb_spec 65 c), (N.leb_spec c 90); simpl; try reflexivity.
  destruct (N.leb_spec 97 (c + 32)), (N.leb_spec (c + 32) 122); simpl; try lia.
  destruct (N.leb_spec 97 c), (N.leb_spec c 122); simpl; lia.
Qed.

Lemma toUpperCase_toLowerCase s : toUpperCase (toLowerCase s) = toUpperCase s.
Proof.
  unfold toUpperCase, toLowerCase. rewrite List.map_map.
  apply List.map_ext. apply upper_lower_unit.
Qed.

(** A missing value, the empty string and any casing of "auto" give "auto". *)
Lemma normalizeLanguageCode_auto :
  normalizeLanguageCode None = VString (lit "auto")
  ∧ normalizeLanguageCode (Some []) = VString (lit "auto")
  ∧ ∀ s, casing_of s (lit "auto") →
         normalizeLanguageCode (Some s) = VString (lit "auto").
Proof.
  split; [reflexivity|]. split; [reflexivity|].
  intros s Hs. unfold normalizeLanguageCode.
  rewrite (toLowerCase_casing s (lit "auto")); [|repeat constructor|exact Hs].
  now rewrite orb_true_r.
Qed.

Lemma languageMap_entries_ok : forallb entry_ok languageMap = true.
Proof. vm_compute. reflexivity. Qed.

(** Every name of the table, in any casing, gives its code. *)
Lemma normalizeLanguageCode_table s name code :
  (name, code) ∈ languageMap → casing_of s name →
  normalizeLanguageCode (Some s) = VString code.
Proof.
  intros Hin Hcas.
  pose proof languageMap_entries_ok as Hok.
  rewrite forallb_forall in Hok.
  specialize (Hok (name, code)).
  rewrite <- list_elem_of_In in Hok. specialize (Hok Hin).
  unfold entry_ok in Hok. cbn [fst snd] in Hok.
  rewrite !andb_true_iff in Hok.
  destruct Hok as [[[Hget Hlow] Hauto] Hne].
  destruct (object_get languageMap name) as [| | | |c| |] eqn:Eget; try discriminate.
  apply andb_true_iff in Hget as [Hc Htr].
  unfold str_eqb in Hc. apply bool_decide_eq_true in Hc. subst c.
  assert (Hl : toLowerCase s = name).
  { apply toLowerCase_casing; [|exact Hcas].
    unfold lower_case. rewrite Forall_forall. intros c Hc.
    rewrite forallb_forall in Hlow. apply Hlow. now apply list_elem_of_In. }
  unfold normalizeLanguageCode. rewrite Hl.
  rewrite (casing_nonempty s name Hcas Hne).
  apply negb_true_iff in Hauto. rewrite Hauto. cbn [negb orb].
  rewrite Eget. cbn [truthy_value]. now rewrite Htr.
Qed.

Lemma languageMap_size : length languageMap = 29%nat.
Proof. reflexivity. Qed.

Example normalizeLanguageCode_german :
  normalizeLanguageCode (Some (lit "GeRmAn")) = VString (lit "DE").
Proof. reflexivity. Qed.

Lemma object_get_other own k :
  k ∉ List.map fst own → inherited_name k = false →
  object_get own k = VUndefined.
Proof.
  intros Hnot Hinh. induction own as [|[k' v] own IH]; simpl.
  - unfold Object_prototype_get. unfold inherited_name in Hinh.
    apply orb_false_iff in Hinh as [-> ->]. reflexivity.
  - simpl in Hnot. rewrite not_elem_of_cons in Hnot. destruct Hnot as [Hne Hnot].
    unfold str_eqb. rewrite bool_decide_eq_false_2 by exact Hne. now apply IH.
Qed.

(** A value that is none of the above, and whose lower-case form is not a
    name inherited by the table object, comes back in upper case. *)
Lemma normalizeLanguageCode_other s :
  truthy s = true →
  toLowerCase s ≠ lit "auto" →
  toLowerCase s ∉ List.map fst languageMap →
  inherited_name (toLowerCase s) = false →
  normalizeLanguageCode (Some s) = VString (toUpperCase s).
Proof.
  intros Htr Hauto Htable Hinh. unfold normalizeLanguageCode.
  rewrite Htr. unfold str_eqb at 1. rewrite bool_decide_eq_false_2 by exact Hauto.
  cbn [negb orb]. rewrite object_get_other by assumption. cbn [truthy_value].
  now rewrite toUpperCase_toLowerCase.
Qed.

(** C9 at the input "constructor": the table is an object literal, the
    lookup finds the constructor it inherits, and the function value is
    returned where the upper-cased text was meant. Serialised in a request,
    the language member is then left out. *)
Theorem normalizeLanguageCode_inherited_name :
  normalizeLanguageCode (Some (lit "constructor")) = VFunction (lit "constructor")
  ∧ normalizeLanguageCode (Some (lit "constructor"))
    ≠ VString (toUpperCase (lit "constructor"))
  ∧ normalizeLanguageCode (Some (lit "__PROTO__")) = VObjectPrototype
  ∧ json_value (normalizeLanguageCode (Some (lit "constructor"))) = None.
Proof. repeat split; try reflexivity. discriminate. Qed.

End LanguageFacts.

(** ** The token bucket *)

Module RateLimitFacts.
Import JS Value RateLimit RateReference.
Local Open Scope Q_scope.

Lemma inject_Z_sub a b : inject_Z (a - b) == inject_Z a - inject_Z b.
Proof. unfold Z.sub. rewrite inject_Z_plus, inject_Z_opp. reflexivity. Qed.

Lemma inject_Z_le a b : (a <= b)%Z → inject_Z a <= inject_Z b.
Proof. intros H. now rewrite <- Zle_Qle. Qed.


(** The refill for the time since [l], one token per second. *)
Lemma refill_amount now l :
  inject_Z (now - l) / 1000 * REFILL_RATE
  == (inject_Z now - inject_Z l) * (1 # 1000).
Proof.
  rewrite inject_Z_sub. unfold REFILL_RATE, DEFAULT_TOKENS_PER_MINUTE. field.
Qed.

Lemma refilled_in_range t now l :
  in_range t → (l <= now)%Z →
  in_range (Qmin DEFAULT_TOKENS_PER_MINUTE (t + inject_Z (now - l) / 1000 * REFILL_RATE)).
Proof.
  unfold in_range, DEFAULT_TOKENS_PER_MINUTE. intros [H0 H60] Hle.
  rewrite refill_amount. rewrite Zle_Qle in Hle.
  destruct (Q.min_spec 60 (t + (inject_Z now - inject_Z l) * (1 # 1000)))
    as [[Hlt ->]|[Hge ->]]; split; lra.
Qed.

Lemma refilled_at_most_capacity t d :
  Qmin DEFAULT_TOKENS_PER_MINUTE (t + d) <= DEFAULT_TOKENS_PER_MINUTE.
Proof. apply Q.le_min_l. Qed.

Lemma capacity_in_range : in_range DEFAULT_TOKENS_PER_MINUTE.
Proof. unfold in_range, DEFAULT_TOKENS_PER_MINUTE. split; lra. Qed.

Lemma store_ok_mono T T' st : (T <= T')%Z → store_ok T st → store_ok T' st.
Proof.
  intros Hle [Hc Hk].
  split; (eapply map_Forall_impl; [eassumption|]); intros ? ? [? ?];
    (split; [assumption|lia]).
Qed.

Lemma store_ok_tokens T st : store_ok T st → tokens_in_range st.
Proof.
  intros [Hc Hk].
  split; (eapply map_Forall_impl; [eassumption|]); intros ? ? [? ?]; assumption.
Qed.

Lemma cache_set_ok T key e st :
  store_ok T st → in_range (cache_tokens e) → (cache_lastRefill e <= T)%Z →
  store_ok T (cache_set key e st).
Proof.
  intros [Hc Hk] Hr Hl. split; [|exact Hk].
  simpl. apply map_Forall_insert_2; [split; assumption|exact Hc].
Qed.

Lemma kv_put_ok T oc key e st :
  store_ok T st → in_range (tokens e) → (lastRefill e <= T)%Z →
  store_ok T (kv_put oc key e st).
Proof.
  intros [Hc Hk] Hr Hl. unfold kv_put.
  destruct (put_succeeds oc); [|split; assumption].
  split; [exact Hc|]. simpl. apply map_Forall_insert_2; [split; assumption|exact Hk].
Qed.

Lemma kv_get_ok T oc key st e :
  store_ok T st → kv_get oc key st = Some e →
  in_range (tokens e) ∧ (lastRefill e <= T)%Z.
Proof.
  unfold kv_get. intros [_ Hk] H.
  destruct (get_delivers oc); [|discriminate]. exact (Hk _ _ H).
Qed.

Lemma kv_refresh_ok T key now pending st :
  store_ok now st → (T <= now)%Z →
  (∀ e, pending = Some e → in_range (tokens e) ∧ (lastRefill e <= T)%Z) →
  store_ok now (kv_refresh key now pending st).
Proof.
  intros Hst Hle Hp. destruct pending as [e|]; [|exact Hst].
  destruct (Hp e eq_refl) as [Hr Hl]. unfold kv_refresh.
  apply cache_set_ok; simpl; [exact Hst| |lia].
  apply refilled_in_range; [exact Hr|lia].
Qed.

Lemma available_ok T key now oc st :
  store_ok T st → (T <= now)%Z →
  in_range (fst (available key now oc st))
  ∧ ∀ e, snd (available key now oc st) = Some e →
         in_range (tokens e) ∧ (lastRefill e <= T)%Z.
Proof.
  intros Hst Hle. unfold available.
  destruct (rateCache st !! key) as [cached|] eqn:Hc.
  - destruct (now - cache_lastUpdate cached <? CACHE_TTL)%Z; simpl.
    + destruct Hst as [Hcache _]. destruct (Hcache _ _ Hc) as [Hr Hl].
      split; [apply refilled_in_range; [exact Hr|lia]|discriminate].
    + split; [apply capacity_in_range|]. intros e He. eapply kv_get_ok; eauto.
  - simpl. split; [apply capacity_in_range|]. intros e He. eapply kv_get_ok; eauto.
Qed.

(** One check keeps the invariant, whatever the time that has passed. *)
Lemma checkRateLimit_ok T clientIP now oc st :
  store_ok T st → (T <= now)%Z →
  store_ok now (snd (checkRateLimit clientIP now oc st)).
Proof.
  intros Hst Hle. unfold checkRateLimit.
  pose proof (available_ok T (lit "rate:" ++ clientIP) now oc st Hst Hle) as [Hr Hp].
  destruct (available (lit "rate:" ++ clientIP) now oc st) as [tk pending].
  simpl in Hr, Hp. apply (store_ok_mono T now) in Hst; [|exact Hle].
  destruct (Qlt_le_dec tk 1) as [Hlt|Hge]; simpl.
  - apply (kv_refresh_ok T); [|exact Hle|exact Hp].
    apply kv_put_ok; simpl; [|exact Hr|lia].
    apply cache_set_ok; simpl; [exact Hst|exact Hr|lia].
  - assert (Hr' : in_range (tk - 1)).
    { unfold in_range, DEFAULT_TOKENS_PER_MINUTE in *. destruct Hr. split; lra. }
    apply (kv_refresh_ok T); [|exact Hle|exact Hp].
    apply kv_put_ok; simpl; [|exact Hr'|lia].
    apply cache_set_ok; simpl; [exact Hst|exact Hr'|lia].
Qed.

Lemma run_ok calls : ∀ T st,
  store_ok T st → chronological T calls →
  ∃ T', store_ok T' (snd (run calls st)).
Proof.
  induction calls as [|[[clientIP now] oc] calls IH]; intros T st Hst Hch.
  - exists T. exact Hst.
  - destruct Hch as [Hle Hch]. simpl.
    pose proof (checkRateLimit_ok T clientIP now oc st Hst Hle) as Hstep.
    destruct (checkRateLimit clientIP now oc st) as [ok st1]. simpl in Hstep.
    destruct (IH now st1 Hstep Hch) as [T' HT'].
    destruct (run calls st1) as [oks st2]. exists T'. exact HT'.
Qed.

Lemma chronological_take n : ∀ T calls,
  chronological T calls → chronological T (take n calls).
Proof.
  induction n as [|n IH]; intros T [|[[clientIP now] oc] calls] H; simpl; auto.
  destruct H as [Hle H]. split; [exact Hle|now apply IH].
Qed.

(** The capacity alone needs no assumption on the clock: whatever the
    readings, a check writes no token count above the capacity. *)
Lemma checkRateLimit_capacity clientIP now oc st :
  let st' := snd (checkRateLimit clientIP now oc st) in
  (map_Forall (fun _ c => cache_tokens c <= DEFAULT_TOKENS_PER_MINUTE) (rateCache st) →
   map_Forall (fun _ c => cache_tokens c <= DEFAULT_TOKENS_PER_MINUTE) (rateCache st'))
  ∧ (map_Forall (fun _ e => tokens e <= DEFAULT_TOKENS_PER_MINUTE) (RATE_LIMIT_KV st) →
     map_Forall (fun _ e => tokens e <= DEFAULT_TOKENS_PER_MINUTE) (RATE_LIMIT_KV st')).
Proof.
  unfold checkRateLimit.
  assert (Ha : fst (available (lit "rate:" ++ clientIP) now oc st)
               <= DEFAULT_TOKENS_PER_MINUTE).
  { unfold available. destruct (rateCache st !! _) as [cached|]; [|simpl; apply Qle_refl].
    destruct (_ <? _)%Z; simpl; [apply Q.le_min_l|apply Qle_refl]. }
  destruct (available (lit "rate:" ++ clientIP) now oc st) as [tk pending]. simpl in Ha.
  assert (Hsub : tk - 1 <= DEFAULT_TOKENS_PER_MINUTE) by lra.
  destruct (Qlt_le_dec tk 1); simpl; unfold kv_refresh, kv_put, cache_set;
    destruct pending as [e|], (put_succeeds oc); simpl; split; intros H;
    repeat (apply map_Forall_insert_2; simpl; [first [apply Q.le_min_l|assumption]|]);
    assumption.
Qed.








(** A check touches the bucket of its own identity only. *)
Lemma checkRateLimit_other_bucket clientIP other now oc st :
  other ≠ clientIP →
  bucket other (snd (checkRateLimit clientIP now oc st)) = bucket other st.
Proof.
  intros Hne.
  assert (Hkey : lit "rate:" ++ clientIP ≠ lit "rate:" ++ other)
    by (intros H; apply app_inv_head in H; congruence).
  unfold checkRateLimit. cbv zeta.
  destruct (available (lit "rate:" ++ clientIP) now oc st) as [tk pending].
  unfold bucket.
  destruct (Qlt_le_dec tk 1); cbn [snd]; unfold kv_refresh, kv_put, cache_set;
    destruct pending as [e|], (put_succeeds oc); cbn [rateCache RATE_LIMIT_KV];
    rewrite ?lookup_insert_ne by exact Hkey; reflexivity.
Qed.

(** C5: the combined check runs the client's check first. When that check
    rejects, the answer is the client-limit reason and the store is the one
    the client's check left, so that the bucket of any other identity is
    as before. When it grants and no egress identity is given, the answer is
    an admission. When it grants and an egress identity is given, the same
    check is run for that identity on the store the client's check left,
    its rejection answers with the proxy-limit reason, and the client's
    bucket stays as the client's check left it, whatever the egress verdict. *)
Theorem combined_check_order clientIP proxyUrl now1 oc1 now2 oc2 st :
  let client := checkRateLimit clientIP now1 oc1 st in
  (fst client = false →
   checkCombinedRateLimit clientIP proxyUrl now1 oc1 now2 oc2 st
   = (client_limit, snd client)
   ∧ ∀ other, other ≠ clientIP → bucket other (snd client) = bucket other st)
  ∧ (fst client = true → (proxyUrl = None ∨ proxyUrl = Some []) →
     checkCombinedRateLimit clientIP proxyUrl now1 oc1 now2 oc2 st
     = (granted, snd client))
  ∧ (fst client = true → ∀ egress, proxyUrl = Some egress → egress ≠ [] →
     let proxy := checkRateLimit egress now2 oc2 (snd client) in
     checkCombinedRateLimit clientIP proxyUrl now1 oc1 now2 oc2 st
     = (if fst proxy then granted else proxy_limit, snd proxy)
     ∧ (egress ≠ clientIP →
        bucket clientIP (snd proxy) = bucket clientIP (snd client))).
Proof.
  intros client. unfold checkCombinedRateLimit. fold client.
  destruct client as [ok st1] eqn:Hclient. cbn [fst snd].
  split; [|split].
  - intros ->. split; [reflexivity|].
    intros other Hne.
    replace st1 with (snd (checkRateLimit clientIP now1 oc1 st))
      by (fold client; now rewrite Hclient).
    now apply checkRateLimit_other_bucket.
  - intros -> [-> | ->]; reflexivity.
  - intros -> egress -> Hne. cbn [negb].
    destruct egress as [|c egress]; [congruence|]. cbn [truthy].
    destruct (checkRateLimit (c :: egress) now2 oc2 st1) as [proxyOk st2] eqn:Hproxy.
    cbn [fst snd]. split; [now destruct proxyOk|].
    intros Hdiff.
    replace st2 with (snd (checkRateLimit (c :: egress) now2 oc2 st1))
      by now rewrite Hproxy.
    apply checkRateLimit_other_bucket. congruence.
Qed.

(** A fresh client behind an exhausted egress: the answer is the proxy
    limit, and the client's bucket has paid its token all the same. *)
Lemma combined_check_order_witness :
  let result :=
    checkCombinedRateLimit (lit "203.0.113.7") (Some (lit "https://proxy.example"))
      1700000000100 kv_fine 1700000000101 kv_fine exhausted_proxy_store in
  fst result = proxy_limit
  ∧ bucket (lit "203.0.113.7") (snd result)
    = bucket (lit "203.0.113.7")
        (snd (checkRateLimit (lit "203.0.113.7") 1700000000100 kv_fine
                exhausted_proxy_store))
  ∧ (fmap cache_tokens (fst (bucket (lit "203.0.113.7") (snd result))) = Some 59).
Proof.
  pose proof (combined_check_order (lit "203.0.113.7")
                (Some (lit "https://proxy.example"))
                1700000000100 kv_fine 1700000000101 kv_fine exhausted_proxy_store)
    as (_ & _ & H).
  assert (Hadm : fst (checkRateLimit (lit "203.0.113.7") 1700000000100 kv_fine
                        exhausted_proxy_store) = true) by (vm_compute; reflexivity).
  destruct (H Hadm (lit "https://proxy.example") eq_refl ltac:(discriminate))
    as [Heq Hbucket].
  cbv zeta. rewrite Heq. cbn [fst snd].
  split; [vm_compute; reflexivity|].
  split; [apply Hbucket; discriminate|].
  rewrite Hbucket by discriminate. vm_compute. reflexivity.
Defined.

End RateLimitFacts.

(** ** Header preparation *)

Module HeaderFacts.
Import JS Value Fetch ProxyManager HeaderReference.

Lemma str_eqb_true a b : str_eqb a b = true ↔ a = b.
Proof. unfold str_eqb. apply bool_decide_eq_true. Qed.

Lemma lower_unit_idem c : lower_unit (lower_unit c) = lower_unit c.
Proof.
  unfold lower_unit, is_upper.
  destruct (N.leb_spec 65 c), (N.leb_spec c 90); simpl; try reflexivity;
    destruct (N.leb_spec 65 (c + 32)), (N.leb_spec (c + 32) 90); simpl; try lia;
    destruct (N.leb_spec 65 c), (N.leb_spec c 90); simpl; lia.
Qed.

Lemma toLowerCase_idem s : toLowerCase (toLowerCase s) = toLowerCase s.
Proof.
  unfold toLowerCase. rewrite List.map_map. apply List.map_ext, lower_unit_idem.
Qed.

Lemma same_name_lower a : same_name a (toLowerCase a) = true.
Proof. unfold same_name. rewrite toLowerCase_idem. now apply str_eqb_true. Qed.

Lemma same_name_eq a b : same_name a b = true ↔ toLowerCase a = toLowerCase b.
Proof. unfold same_name. apply str_eqb_true. Qed.

(** The test of the loop looks at the lower-case form of the name only. *)
Lemma stripped_lower prefix n : stripped prefix (toLowerCase n) = stripped prefix n.
Proof. unfold stripped. now rewrite toLowerCase_idem. Qed.

Lemma stripped_same_name prefix a b :
  same_name a b = true → stripped prefix a = stripped prefix b.
Proof. intros H. apply same_name_eq in H. unfold stripped. now rewrite H. Qed.

Lemma insert_sorted_In x y l : In x (insert_sorted y l) ↔ x = y ∨ In x l.
Proof.
  induction l as [|z l IH]; simpl; [intuition|].
  destruct (str_eqb y z) eqn:E.
  - apply str_eqb_true in E. subst z. simpl. intuition.
  - destruct (str_ltb y z); simpl; [intuition|]. rewrite IH. intuition.
Qed.

Lemma sorted_names_In n hl :
  In n (sorted_names hl) ↔ ∃ h, In h hl ∧ n = toLowerCase (fst h).
Proof.
  unfold sorted_names. induction hl as [|h hl IH]; simpl.
  - split; [intros []|intros (h & [] & _)].
  - rewrite insert_sorted_In, IH. split.
    + intros [->|(h' & Hin & ->)]; eauto.
    + intros (h' & [->|Hin] & ->); eauto.
Qed.

Lemma values_of_nonempty hl h :
  In h hl → values_of hl (toLowerCase (fst h)) ≠ [].
Proof.
  intros Hin Hnil. unfold values_of in Hnil.
  assert (Hf : In h (List.filter (fun h' => same_name (fst h') (toLowerCase (fst h))) hl))
    by (apply filter_In; split; [exact Hin|apply same_name_lower]).
  apply (in_map snd) in Hf. rewrite Hnil in Hf. exact Hf.
Qed.

(** The names that iterating a list yields are the lower-case forms of the
    names in the list. *)
Lemma keys_In n hl : In n (keys hl) ↔ ∃ h, In h hl ∧ n = toLowerCase (fst h).
Proof.
  rewrite <- sorted_names_In. unfold keys, sort_and_combine.
  rewrite in_map_iff. split.
  - intros ([n' v] & <- & Hin). apply in_flat_map in Hin as (m & Hm & Hin).
    destruct (str_eqb m (lit "set-cookie")).
    + apply in_map_iff in Hin as (v' & Heq & _). inversion Heq; subst. exact Hm.
    + destruct Hin as [Heq|[]]. inversion Heq; subst. exact Hm.
  - intros Hn. pose proof Hn as Hn'. apply sorted_names_In in Hn' as (h & Hin & ->).
    destruct (str_eqb (toLowerCase (fst h)) (lit "set-cookie")) eqn:E.
    + destruct (values_of hl (toLowerCase (fst h))) as [|v vs] eqn:Ev;
        [now apply values_of_nonempty in Ev|].
      exists (toLowerCase (fst h), v). split; [reflexivity|].
      apply in_flat_map. exists (toLowerCase (fst h)). split; [exact Hn|].
      rewrite E, Ev. left. reflexivity.
    + eexists (toLowerCase (fst h), _). split; [reflexivity|].
      apply in_flat_map. exists (toLowerCase (fst h)). split; [exact Hn|].
      rewrite E. left. reflexivity.
Qed.

Lemma filter_filter {A} (f g : A → bool) l :
  List.filter f (List.filter g l) = List.filter (fun x => g x && f x) l.
Proof.
  induction l as [|x l IH]; simpl; [reflexivity|].
  destruct (g x); simpl; [destruct (f x)|]; now rewrite IH.
Qed.

(** The loop, as one filter. *)
Lemma strip_names_filter prefix names : ∀ hl,
  strip_names prefix names hl
  = List.filter
      (fun h => negb (existsb (fun n => stripped prefix n && same_name (fst h) n) names))
      hl.
Proof.
  unfold strip_names. induction names as [|n names IH]; intros hl; simpl.
  - induction hl as [|h hl IHl]; simpl; [reflexivity|]. now rewrite <- IHl.
  - rewrite IH. destruct (stripped prefix n) eqn:E; simpl.
    + unfold delete_all. rewrite filter_filter. apply filter_ext.
      intros h. now rewrite negb_orb.
    + reflexivity.
Qed.

(** Run over the names of the list itself, the loop keeps exactly the
    headers that the test does not select. *)
Lemma strip_names_keys prefix hl : strip_names prefix (keys hl) hl = kept prefix hl.
Proof.
  rewrite strip_names_filter. unfold kept. apply filter_ext_in.
  intros h Hin. f_equal.
  destruct (stripped prefix (fst h)) eqn:E.
  - apply existsb_exists. exists (toLowerCase (fst h)). split.
    + apply keys_In. eauto.
    + rewrite stripped_lower, E. apply same_name_lower.
  - apply not_true_is_false. intros Hex.
    apply existsb_exists in Hex as (n & _ & Hn).
    apply andb_true_iff in Hn as [Hs Hsame].
    rewrite (stripped_same_name prefix _ _ Hsame) in E. congruence.
Qed.

Lemma forallb_strip_leading P s :
  forallb P s = true → forallb P (strip_leading s) = true.
Proof.
  induction s as [|c s IH]; simpl; [reflexivity|].
  intros H. destruct (is_http_whitespace c); [|exact H].
  apply andb_true_iff in H as [_ H]. now apply IH.
Qed.

Lemma forallb_rev {A} (P : A → bool) s : forallb P (rev s) = forallb P s.
Proof.
  induction s as [|c s IH]; simpl; [reflexivity|].
  rewrite forallb_app, IH. simpl. rewrite andb_true_r. apply andb_comm.
Qed.

Lemma forallb_normalize P s : forallb P s = true → forallb P (normalize s) = true.
Proof.
  intros H. unfold normalize. rewrite forallb_rev.
  apply forallb_strip_leading. rewrite forallb_rev.
  now apply forallb_strip_leading.
Qed.

Lemma forallb_join P sep parts :
  forallb P sep = true → Forall (fun p => forallb P p = true) parts →
  forallb P (join sep parts) = true.
Proof.
  intros Hsep Hparts. induction Hparts as [|p ps Hp Hps IH]; [reflexivity|].
  simpl. destruct ps as [|q ps]; [exact Hp|].
  rewrite !forallb_app, Hp, Hsep. exact IH.
Qed.

Lemma is_tchar_lower c : is_tchar c = true → is_tchar (lower_unit c) = true.
Proof.
  unfold lower_unit. destruct (is_upper c) eqn:E; [|trivial]. intros _.
  unfold is_upper in E. apply andb_true_iff in E as [H1 H2].
  apply N.leb_le in H1, H2. unfold is_tchar, is_lower, is_upper.
  destruct (N.leb_spec 97 (c + 32)), (N.leb_spec (c + 32) 122);
    first [lia|simpl; rewrite ?orb_true_r; reflexivity].
Qed.

Lemma acceptable_name_lower n :
  acceptable_name n = true → acceptable_name (toLowerCase n) = true.
Proof.
  unfold acceptable_name, is_byte_string, is_header_name, toLowerCase.
  rewrite !andb_true_iff, !forallb_forall.
  intros (Hb & Ht & Hc). split; [|split].
  - intros c Hin. apply in_map_iff in Hin as (c0 & <- & Hin0).
    specialize (Hb c0 Hin0). apply N.leb_le in Hb. apply N.leb_le.
    unfold lower_unit, is_upper.
    destruct (N.leb_spec 65 c0), (N.leb_spec c0 90); simpl; lia.
  - destruct n; [discriminate|reflexivity].
  - intros c Hin. apply in_map_iff in Hin as (c0 & <- & Hin0).
    apply is_tchar_lower. now apply Hc.
Qed.

Lemma acceptable_value_stored w :
  is_byte_string w = true → is_header_value w = true → acceptable_value w = true.
Proof.
  unfold acceptable_value, is_byte_string, is_header_value. intros Hb Hv.
  apply andb_true_iff. split; now apply forallb_normalize.
Qed.

(** The pairs read from an object of a sound heap are accepted again. *)
Lemma sort_and_combine_acceptable hl :
  Forall stored_header hl → Forall acceptable_pair (sort_and_combine hl).
Proof.
  intros Hhl. rewrite Forall_forall in Hhl. apply Forall_forall.
  intros [n v] Hin.
  assert (Hvalues : ∀ m w, In w (values_of hl m) →
            is_byte_string w = true ∧ is_header_value w = true).
  { intros m w Hw. unfold values_of in Hw.
    apply in_map_iff in Hw as (h & <- & Hh). apply filter_In in Hh as [Hh _].
    apply list_elem_of_In, Hhl in Hh. destruct Hh as (_ & ? & ?). auto. }
  unfold sort_and_combine in Hin. apply list_elem_of_In in Hin.
  apply in_flat_map in Hin as (m & Hm & Hin).
  assert (Hname : acceptable_name m = true).
  { apply sorted_names_In in Hm as (h & Hh & ->).
    apply acceptable_name_lower. apply list_elem_of_In, Hhl in Hh. apply Hh. }
  destruct (str_eqb m (lit "set-cookie")).
  - apply in_map_iff in Hin as (w & Heq & Hw). inversion Heq; subst.
    split; [exact Hname|]. destruct (Hvalues _ _ Hw) as [Hb Hv].
    now apply acceptable_value_stored.
  - destruct Hin as [Heq|[]]. inversion Heq; subst.
    split; [exact Hname|]. cbn [snd].
    apply acceptable_value_stored; unfold is_byte_string, is_header_value;
      (apply forallb_join; [reflexivity|]); apply Forall_forall; intros w Hw;
      apply list_elem_of_In in Hw; apply Hvalues in Hw; apply Hw.
Qed.

Lemma append_accepted hl n v :
  Forall stored_header hl → acceptable_pair (n, v) →
  ∃ n', append hl n v = inr (hl ++ [(n', normalize v)])
        ∧ same_name n' n = true ∧ stored_header (n', normalize v).
Proof.
  intros Hhl [Hn Hv]. simpl in Hn, Hv. unfold append.
  unfold acceptable_name in Hn. unfold acceptable_value in Hv.
  apply andb_true_iff in Hn as [Hn1 Hn2]. apply andb_true_iff in Hv as [Hv1 Hv2].
  rewrite Hn1, Hn2, Hv1, Hv2. simpl.
  destruct (List.find (fun h => same_name (fst h) n) hl) as [h|] eqn:Ef.
  - apply find_some in Ef as [Hin Hsame]. exists (fst h).
    split; [reflexivity|]. split; [exact Hsame|].
    rewrite Forall_forall in Hhl. apply list_elem_of_In, Hhl in Hin.
    destruct Hin as (Ha & _). repeat split; assumption.
  - exists n. split; [reflexivity|].
    split; [unfold same_name; now apply str_eqb_true|].
    repeat split; simpl; [unfold acceptable_name; now rewrite Hn1, Hn2|assumption..].
Qed.

Lemma fill_accepted pairs : ∀ hl,
  Forall stored_header hl → Forall acceptable_pair pairs →
  ∃ added,
    fill pairs hl = inr (hl ++ added)
    ∧ Forall stored_header added
    ∧ Forall2 as_stored added pairs.
Proof.
  induction pairs as [|[n v] pairs IH]; intros hl Hhl Hpairs; simpl.
  - exists []. rewrite app_nil_r. repeat split; constructor.
  - inversion Hpairs as [|? ? Hp Hps]; subst.
    destruct (append_accepted hl n v Hhl Hp) as (n' & -> & Hsame & Hstored).
    destruct (IH (hl ++ [(n', normalize v)])) as (added & Hfill & Hadded & Hrel);
      [|exact Hps|].
    { apply Forall_app. split; [exact Hhl|]. constructor; [exact Hstored|constructor]. }
    exists ((n', normalize v) :: added). rewrite Hfill, <- app_assoc.
    split; [reflexivity|]. split; [now constructor|].
    constructor; [split; [exact Hsame|reflexivity]|exact Hrel].
Qed.

Lemma pairs_of_acceptable h init :
  heap_ok h → init_ok h init → Forall acceptable_pair (pairs_of h init).
Proof.
  intros Hh Hinit. destruct init as [l|r]; unfold pairs_of.
  - destruct Hinit as [hl Hl]. rewrite Hl. cbn [default].
    apply sort_and_combine_acceptable. exact (Hh _ _ Hl).
  - exact Hinit.
Qed.

Lemma bind_returned {A B} (m : M A) (k : A → M B) h a h' :
  m h = (inr a, h') → bind m k h = k a h'.
Proof. intros H. unfold bind. now rewrite H. Qed.

Lemma new_Headers_eq init h :
  new_Headers init h
  = match fill (pairs_of h init) [] with
    | inl e => (inl e, h)
    | inr hl => (inr (fresh (dom h)), <[fresh (dom h) := hl]> h)
    end.
Proof. destruct init; reflexivity. Qed.

Lemma fresh_unused (h : heap) : h !! fresh (dom h) = None.
Proof. apply not_elem_of_dom. apply is_fresh. Qed.

Lemma keys_acceptable hl :
  Forall stored_header hl → Forall (fun n => acceptable_name n = true) (keys hl).
Proof.
  intros Hhl. apply Forall_forall. intros n Hn.
  apply list_elem_of_In, keys_In in Hn as (h & Hin & ->).
  apply acceptable_name_lower.
  rewrite Forall_forall in Hhl. apply list_elem_of_In, Hhl in Hin. apply Hin.
Qed.

(** The loop on the object at [l], as the list operation on its state. *)
Lemma for_of_strip prefix l names : ∀ (h : heap) hl,
  h !! l = Some hl → Forall (fun n => acceptable_name n = true) names →
  for_of names
    (fun name => if stripped prefix name then Headers_delete l name else ret tt) h
  = (inr tt, <[l := strip_names prefix names hl]> h).
Proof.
  induction names as [|n names IH]; intros h hl Hl Hnames.
  - simpl. unfold ret. now rewrite insert_id.
  - inversion Hnames as [|? ? Hn Hrest]; subst. simpl.
    destruct (stripped prefix n) eqn:E.
    + erewrite bind_returned; cycle 1.
      { unfold Headers_delete, update, delete. rewrite Hl. cbn [default].
        unfold acceptable_name in Hn. rewrite Hn. reflexivity. }
      rewrite (IH _ (delete_all hl n)); [|apply lookup_insert_eq|exact Hrest].
      now rewrite insert_insert_eq.
    + erewrite bind_returned; [|reflexivity]. now apply IH.
Qed.

Lemma set_first_absent hl n v :
  contains hl n = false → set_first hl n v = hl ++ [(n, v)].
Proof.
  unfold contains. induction hl as [|h hl IH]; simpl; [reflexivity|].
  intros H. apply orb_false_iff in H as [-> H]. now rewrite IH.
Qed.

(** No header that survives the loop bears the dedicated name. *)
Lemma kept_without_real_ip prefix hl :
  contains (kept prefix hl) REAL_CLIENT_IP_HEADER = false.
Proof.
  unfold contains. apply not_true_is_false. intros H.
  apply existsb_exists in H as (h & Hin & Hsame).
  apply filter_In in Hin as [_ Hkeep].
  rewrite (stripped_same_name prefix _ _ Hsame) in Hkeep.
  unfold stripped in Hkeep. rewrite orb_true_r in Hkeep. discriminate.
Qed.

(** The outcome of [prepareRequestHeaders] on an argument that the class
    accepts. *)
Lemma prepareRequestHeaders_result prefix init clientIp (h : heap) :
  heap_ok h → init_ok h init → clientIp_ok clientIp →
  ∃ filled,
    fill (pairs_of h init) [] = inr filled
    ∧ Forall2 as_stored filled (pairs_of h init)
    ∧ prepareRequestHeaders prefix init clientIp h
      = (inr (fresh (dom h)),
         <[fresh (dom h) := kept prefix filled ++ injected clientIp]> h).
Proof.
  intros Hh Hinit Hip.
  destruct (fill_accepted (pairs_of h init) [] (List.Forall_nil _)
              (pairs_of_acceptable h init Hh Hinit))
    as (filled & Hfill & Hstored & Hrel).
  cbn [app] in Hfill.
  exists filled. split; [exact Hfill|]. split; [exact Hrel|].
  unfold prepareRequestHeaders.
  erewrite bind_returned; [|rewrite new_Headers_eq, Hfill; reflexivity].
  erewrite bind_returned; cycle 1.
  { unfold Headers_keys, read. unfold bind, ret.
    rewrite lookup_insert_eq. reflexivity. }
  erewrite bind_returned; cycle 1.
  { apply (for_of_strip prefix _ _ _ filled);
      [apply lookup_insert_eq|now apply keys_acceptable]. }
  rewrite strip_names_keys, insert_insert_eq.
  destruct clientIp as [ip|]; simpl;
    [|erewrite bind_returned; [|reflexivity];
      unfold ret; now rewrite app_nil_r].
  destruct (truthy ip) eqn:Etr;
    [|erewrite bind_returned; [|reflexivity];
      unfold ret; now rewrite app_nil_r].
  specialize (Hip Etr). unfold acceptable_value in Hip.
  apply andb_true_iff in Hip as [Hb Hv].
  erewrite bind_returned; cycle 1.
  { unfold Headers_set, update, set. rewrite lookup_insert_eq. cbn [default].
    cbv zeta. rewrite Hb, Hv. reflexivity. }
  unfold ret. rewrite insert_insert_eq.
  now rewrite set_first_absent by apply kept_without_real_ip.
Qed.

Lemma get_absent hl n : contains hl n = false → get hl n = None.
Proof. unfold get. now intros ->. Qed.

Lemma get_after_injection prefix hl clientIp :
  get (kept prefix hl ++ injected clientIp) REAL_CLIENT_IP_HEADER
  = expected_real_client_ip clientIp.
Proof.
  pose proof (kept_without_real_ip prefix hl) as Hnone.
  assert (Hplain : get (kept prefix hl ++ []) REAL_CLIENT_IP_HEADER = None)
    by (rewrite app_nil_r; now apply get_absent).
  unfold injected, expected_real_client_ip.
  destruct clientIp as [ip|]; [|exact Hplain].
  destruct (truthy ip); [|exact Hplain].
  unfold get, contains, values_of in *.
  rewrite existsb_app, Hnone. cbn [existsb orb].
  rewrite List.filter_app, List.map_app.
  assert (Hfilter :
    List.filter (fun h => same_name (fst h) REAL_CLIENT_IP_HEADER) (kept prefix hl) = []).
  { clear Hplain. induction (kept prefix hl) as [|x l IH]; [reflexivity|].
    simpl in Hnone |- *. apply orb_false_iff in Hnone as [-> Hl]. now apply IH. }
  rewrite Hfilter. reflexivity.
Qed.

Lemma existsb_filter {A} (f g : A → bool) l :
  existsb f (List.filter g l) = existsb (fun x => g x && f x) l.
Proof.
  induction l as [|x l IH]; simpl; [reflexivity|].
  destruct (g x); simpl; now rewrite IH.
Qed.

Lemma existsb_agree {A} (f g : A → bool) l :
  (∀ x, f x = g x) → existsb f l = existsb g l.
Proof. intros H. induction l as [|x l IH]; simpl; [reflexivity|]. now rewrite H, IH. Qed.

(** Reading a name from what the loop leaves: nothing under a name that the
    test selects, and under any other name what the input held. *)
Lemma get_kept prefix hl n :
  get (kept prefix hl) n = if stripped prefix n then None else get hl n.
Proof.
  assert (Hsame : ∀ h : header, same_name (fst h) n = true →
            stripped prefix (fst h) = stripped prefix n)
    by (intros h; apply stripped_same_name).
  unfold get, contains, values_of, kept.
  rewrite existsb_filter, filter_filter.
  destruct (stripped prefix n) eqn:E.
  - replace (existsb _ hl) with false; [reflexivity|].
    symmetry. apply not_true_is_false. intros H.
    apply existsb_exists in H as (h & _ & H). apply andb_true_iff in H as [Hk Hs].
    rewrite (Hsame h Hs) in Hk. discriminate.
  - rewrite (existsb_agree _ (fun h : header => same_name (fst h) n)); cycle 1.
    { intros h. destruct (same_name (fst h) n) eqn:Es; [|apply andb_false_r].
      now rewrite (Hsame h Es). }
    rewrite (filter_ext _ (fun h : header => same_name (fst h) n)); [reflexivity|].
    intros h. destruct (same_name (fst h) n) eqn:Es; [|apply andb_false_r].
    now rewrite (Hsame h Es).
Qed.

Lemma same_name_sym a b : same_name a b = same_name b a.
Proof.
  unfold same_name, str_eqb.
  destruct (decide (toLowerCase a = toLowerCase b)) as [H|H].
  - rewrite !bool_decide_eq_true_2; congruence.
  - rewrite !bool_decide_eq_false_2; congruence.
Qed.

(** The injected header is seen under the dedicated name only. *)
Lemma get_beside_injection hl clientIp n :
  same_name n REAL_CLIENT_IP_HEADER = false →
  get (hl ++ injected clientIp) n = get hl n.
Proof.
  intros Hn. unfold injected.
  destruct clientIp as [ip|]; [|now rewrite app_nil_r].
  destruct (truthy ip); [|now rewrite app_nil_r].
  unfold get, contains, values_of.
  rewrite existsb_app, List.filter_app. cbn [existsb List.filter fst].
  rewrite same_name_sym, Hn. cbn [orb]. now rewrite orb_false_r, app_nil_r.
Qed.

(** Without a matching header, nothing is removed. *)
Lemma kept_all prefix hl :
  (∀ hdr, In hdr hl → stripped prefix (fst hdr) = false) → kept prefix hl = hl.
Proof.
  intros Hnone. unfold kept. induction hl as [|x l IH]; [reflexivity|].
  simpl. rewrite (Hnone x) by (left; reflexivity). simpl. f_equal.
  apply IH. intros hdr Hin. apply Hnone. now right.
Qed.

(** C6, as stated, fails: a record with a name that is no header name makes
    the constructor of the new collection throw. *)
Lemma prepareRequestHeaders_throws :
  ∃ e, prepareRequestHeaders (lit "cf-") (InitRecord [(lit "X Custom", lit "1")])
         None ∅ = (inl e, ∅).
Proof. eexists. vm_compute. reflexivity. Qed.

(** C6 (amended): on a collection that the class accepts -- any [Headers]
    object, or a record whose names are header names and whose values are
    header values -- and with a client address that is absent, empty or a
    header value, [prepareRequestHeaders] does not throw and returns a new
    object, leaving every existing object as it was. With [filled] the
    headers as the constructor takes them from the input (names up to case,
    values normalised), the new object holds those whose name neither
    starts with the prefix nor is on the deny-list, compared in lower case,
    all of them when none matches, followed by the dedicated header with
    the normalised address when a non-empty one is supplied; read by name,
    a removed header is absent and any other header is as in the input. *)
Theorem prepareRequestHeaders_sanitizes prefix init clientIp (h : heap) :
  heap_ok h → init_ok h init → clientIp_ok clientIp →
  ∃ filled result,
    fill (pairs_of h init) [] = inr filled
    ∧ Forall2 as_stored filled (pairs_of h init)
    ∧ prepareRequestHeaders prefix init clientIp h
      = (inr (fresh (dom h)), <[fresh (dom h) := result]> h)
    ∧ result = kept prefix filled ++ injected clientIp
    ∧ h !! fresh (dom h) = None
    ∧ (∀ l, is_Some (h !! l) → <[fresh (dom h) := result]> h !! l = h !! l)
    ∧ (∀ hdr, In hdr (kept prefix filled) →
         startsWith (toLowerCase (fst hdr)) (toLowerCase prefix) = false
         ∧ toLowerCase (fst hdr) ∉ removeList)
    ∧ (∀ hdr, In hdr filled → stripped prefix (fst hdr) = false →
         In hdr (kept prefix filled))
    ∧ ((∀ hdr, In hdr filled → stripped prefix (fst hdr) = false) →
       kept prefix filled = filled)
    ∧ (∀ n, same_name n REAL_CLIENT_IP_HEADER = false →
         get result n = if stripped prefix n then None else get filled n)
    ∧ get result REAL_CLIENT_IP_HEADER = expected_real_client_ip clientIp.
Proof.
  intros Hh Hinit Hip.
  destruct (prepareRequestHeaders_result prefix init clientIp h Hh Hinit Hip)
    as (filled & Hfill & Hrel & Hrun).
  exists filled, (kept prefix filled ++ injected clientIp).
  split; [exact Hfill|]. split; [exact Hrel|].
  split; [exact Hrun|]. split; [reflexivity|].
  split; [apply fresh_unused|]. split.
  { intros l [hl Hl]. apply lookup_insert_ne. intros <-.
    rewrite fresh_unused in Hl. discriminate. }
  split.
  { intros hdr Hin. apply filter_In in Hin as [_ Hkeep].
    apply negb_true_iff in Hkeep. unfold stripped in Hkeep.
    apply orb_false_iff in Hkeep as [Hp Hd]. split; [exact Hp|].
    now apply bool_decide_eq_false in Hd. }
  split.
  { intros hdr Hin Hs. apply filter_In. split; [exact Hin|]. now rewrite Hs. }
  split; [apply kept_all|]. split; [|apply get_after_injection].
  intros n Hn. rewrite get_beside_injection by exact Hn. apply get_kept.
Qed.

Lemma example_headers_ok : init_ok ∅ (InitRecord example_headers).
Proof. repeat constructor. Qed.

Lemma prepareRequestHeaders_sanitizes_witness :
  prepareRequestHeaders (lit "cf-") (InitRecord example_headers)
    (Some (lit "203.0.113.7")) ∅
  = (inr 0%nat,
     {[ 0%nat := [(lit "Content-Type", lit "application/json; charset=utf-8");
                  (lit "Accept", lit "*/*");
                  (lit "X-Real-Client-IP", lit "203.0.113.7")] ]}).
Proof.
  destruct (prepareRequestHeaders_sanitizes (lit "cf-") (InitRecord example_headers)
              (Some (lit "203.0.113.7")) ∅)
    as (filled & result & Hfill & _ & Hrun & Hresult & _).
  - apply map_Forall_empty.
  - exact example_headers_ok.
  - intros _. reflexivity.
  - rewrite Hrun, Hresult.
    assert (Hfilled : filled = example_headers)
      by (vm_compute in Hfill; now inversion Hfill).
    rewrite Hfilled. vm_compute. reflexivity.
Defined.

(** C10, as stated, fails: an address supplied with a leading space is
    stored without it. *)
Lemma real_client_ip_is_normalised :
  real_client_ip
    (prepareRequestHeaders (lit "cf-") (InitRecord []) (Some (lit " 203.0.113.7")) ∅)
  = Some (lit "203.0.113.7")
  ∧ lit "203.0.113.7" ≠ lit " 203.0.113.7".
Proof. split; [vm_compute; reflexivity|discriminate]. Qed.

(** C10 (amended): in the collection returned, the dedicated header is
    present exactly when a non-empty client address was supplied; its value
    is then that address without leading and trailing HTTP white space, so
    the address itself when it has none; and whatever the input held under
    that name is gone, so that without a client address the header is
    absent. *)
Theorem real_client_ip_from_argument_only prefix init clientIp (h : heap) :
  heap_ok h → init_ok h init → clientIp_ok clientIp →
  real_client_ip (prepareRequestHeaders prefix init clientIp h)
  = expected_real_client_ip clientIp
  ∧ (∀ ip, clientIp = Some ip → truthy ip = true → normalize ip = ip →
       real_client_ip (prepareRequestHeaders prefix init clientIp h) = Some ip)
  ∧ ((clientIp = None ∨ clientIp = Some []) →
     real_client_ip (prepareRequestHeaders prefix init clientIp h) = None).
Proof.
  intros Hh Hinit Hip.
  destruct (prepareRequestHeaders_result prefix init clientIp h Hh Hinit Hip)
    as (filled & Hfill & _ & Hrun).
  assert (Hmain : real_client_ip (prepareRequestHeaders prefix init clientIp h)
                  = expected_real_client_ip clientIp).
  { rewrite Hrun. unfold real_client_ip. rewrite lookup_insert_eq. cbn [default].
    apply get_after_injection. }
  split; [exact Hmain|]. rewrite Hmain. split.
  - intros ip -> Htr Hnorm. unfold expected_real_client_ip. now rewrite Htr, Hnorm.
  - intros [-> | ->]; reflexivity.
Qed.

Lemma real_client_ip_from_argument_only_witness :
  real_client_ip
    (prepareRequestHeaders (lit "cf-") (InitRecord example_headers) None ∅) = None
  ∧ real_client_ip
      (prepareRequestHeaders (lit "cf-") (InitRecord example_headers)
         (Some (lit "203.0.113.7")) ∅) = Some (lit "203.0.113.7").
Proof.
  split.
  - apply (real_client_ip_from_argument_only (lit "cf-") (InitRecord example_headers)
             None ∅ (map_Forall_empty _) example_headers_ok I).
    left. reflexivity.
  - exact (proj1 (proj2 (real_client_ip_from_argument_only (lit "cf-")
                            (InitRecord example_headers) (Some (lit "203.0.113.7")) ∅
                            (map_Forall_empty _) example_headers_ok
                            (fun _ => eq_refl)))
             (lit "203.0.113.7") eq_refl eq_refl eq_refl).
Defined.

End HeaderFacts.

(** ** The orchestrator *)

Module QueryFacts.
Import JS Value Query Reference QueryReference.
Local Open Scope Z_scope.

Section Orchestrator.
Variable PAYLOAD_LIMITS : PayloadLimits.
Variable REQUEST_ALTERNATIVES : Z.
Variable CF_HEADER_PREFIX : jsstring.
Variable REQUEST_TIMEOUT_SECONDS : Z.
Variable API_URL : jsstring.
Variable createErrorResponse : Error → option jsstring → Error + Z.
Variable retryWithBackoff :
  (nat → RateLimit.Store → (Error + ResponseParams) * RateLimit.Store) →
  RateLimit.Store → (Error + ResponseParams) * RateLimit.Store.

Local Abbreviation the_attempt :=
  (attempt PAYLOAD_LIMITS REQUEST_ALTERNATIVES CF_HEADER_PREFIX
     REQUEST_TIMEOUT_SECONDS API_URL).
Local Abbreviation the_query :=
  (query PAYLOAD_LIMITS REQUEST_ALTERNATIVES CF_HEADER_PREFIX
     REQUEST_TIMEOUT_SECONDS API_URL createErrorResponse retryWithBackoff).

(** An attempt that the limiter refuses throws an error coded 429 whose
    message is the limiter's reason, and goes no further. *)
Lemma attempt_rate_limited params config w st :
  RateLimit.allowed (fst (admission API_URL config w st)) = false →
  ∃ e, the_attempt params config w st = (inl e, snd (admission API_URL config w st))
       ∧ code e = Some 429
       ∧ message e
         = or_default (RateLimit.reason (fst (admission API_URL config w st)))
             (lit "Rate limit exceeded").
Proof.
  intros Hdenied. unfold attempt.
  destruct (admission API_URL config w st) as [result st1]. simpl in Hdenied.
  rewrite Hdenied. simpl. eexists. split; [reflexivity|]. split; reflexivity.
Qed.

(** The result without a translation is built when the languages are
    strings or falsy, and a TypeError is thrown in its place otherwise. *)
Lemma failureResponse_built httpStatus params :
  languages_ok params →
  failureResponse httpStatus (default VUndefined (source_lang <$> params))
    (default VUndefined (target_lang <$> params))
  = inr (failure httpStatus params).
Proof.
  assert (Hone : ∀ v b, truthy b = true → language_ok v = true →
            normalizeLanguageCode_value (or_value v b) = inr (fallback_language v b)).
  { intros v b Hb Hok. unfold fallback_language, or_value, language_ok in *.
    destruct (truthy_value v) eqn:E.
    - destruct v; try discriminate Hok; reflexivity.
    - destruct b; [discriminate Hb|reflexivity]. }
  intros Hok. unfold failureResponse, failure, fallback_source, fallback_target.
  destruct params as [p|]; cbv [fmap option_fmap option_map default from_option id] in *.
  - destruct Hok as [Hs Ht].
    now rewrite (Hone _ (lit "auto") eq_refl Hs), (Hone _ (lit "en") eq_refl Ht).
  - reflexivity.
Qed.

Lemma failureResponse_thrown httpStatus source target :
  language_ok source && language_ok target = false →
  ∃ e, failureResponse httpStatus source target = inl e ∧ name e = lit "TypeError".
Proof.
  assert (Hname : ∀ v e, normalizeLanguageCode_value v = inl e →
                         name e = lit "TypeError").
  { intros v e. unfold normalizeLanguageCode_value.
    destruct v; try discriminate; destruct (truthy_value _); try discriminate;
      intros H; inversion H; reflexivity. }
  intros Hbad. unfold failureResponse.
  destruct (normalizeLanguageCode_value (or_value source (lit "auto")))
    as [e|s] eqn:Hs; [exists e; split; [reflexivity|exact (Hname _ _ Hs)]|].
  destruct (normalizeLanguageCode_value (or_value target (lit "en")))
    as [e|t] eqn:Ht; [exists e; split; [reflexivity|exact (Hname _ _ Ht)]|].
  pose proof (proj1 (RequestBodyFacts.language_returned source (lit "auto") eq_refl)
                (ex_intro _ s Hs)) as Hos.
  pose proof (proj1 (RequestBodyFacts.language_returned target (lit "en") eq_refl)
                (ex_intro _ t Ht)) as Hot.
  rewrite Hos, Hot in Hbad. discriminate Hbad.
Qed.

Lemma query_without_text params config worlds st :
  no_text params →
  the_query params config worlds st
  = (failureResponse 400 (default VUndefined (source_lang <$> params))
       (default VUndefined (target_lang <$> params)), st).
Proof.
  unfold no_text, query. destruct params as [p|]; [|reflexivity].
  intros ->. reflexivity.
Qed.

Lemma query_with_text p config worlds st :
  truthy_value (text p) = true →
  the_query (Some p) config worlds st
  = match retryWithBackoff (fun k => the_attempt p config (worlds k)) st with
    | (inr response, st1) => (inr response, st1)
    | (inl error, st1) =>
        match createErrorResponse error (config ≫= proxyEndpoint) with
        | inl thrown => (inl thrown, st1)
        | inr httpStatus =>
            (failureResponse httpStatus (source_lang p) (target_lang p), st1)
        end
    end.
Proof. unfold query. intros ->. reflexivity. Qed.

(** C8, as stated, fails: a request without a text whose source language
    is a number makes [query] reject with a TypeError, before the [try]; a
    request with a text and such a language makes it reject from inside the
    [catch], whatever the attempts threw. *)
Lemma query_throws_on_language :
  (∃ e, fst (query example_limits 3 (lit "cf-") 30 (lit "https://www2.deepl.com/jsonrpc")
               sample_createErrorResponse (retryWithBackoff_spec sample_isRetryable 2 0)
               (Some {| text := VString []; source_lang := VNumber 5;
                        target_lang := VUndefined |})
               (Some example_config) example_world RateReference.empty_store) = inl e
        ∧ name e = lit "TypeError")
  ∧ (∃ e, fst (query example_limits 3 (lit "cf-") 30
                 (lit "https://www2.deepl.com/jsonrpc")
                 sample_createErrorResponse
                 (retryWithBackoff_spec sample_isRetryable 2 0)
                 (Some {| text := VString (lit "Hi"); source_lang := VString (lit "en");
                          target_lang := VBoolean true |})
                 (Some example_config) example_world RateReference.empty_store) = inl e
          ∧ name e = lit "TypeError").
Proof. split; eexists; split; vm_compute; reflexivity. Qed.

(** C8 (amended): for a request whose languages are strings or falsy
    (absent ones among them), and an error handler that returns, [query]
    returns a result and throws nothing, whatever the configuration, the
    surroundings of the attempts and the behaviour of the retry wrapper.
    Without a text the result is the failure shape with status 400. With a
    text, a value returned by the retried pipeline is passed on, and an
    error thrown by it -- of whatever kind -- becomes the failure shape,
    without a translation, under the status the error handler assigns to
    it. An attempt that the limiter refuses throws an error coded 429.
    For a request with a language that is neither a string nor falsy,
    [query] rejects with a TypeError when there is no text, and rejects
    whenever the retried pipeline throws; and what the error handler throws,
    [query] throws. *)
Theorem query_never_throws params config worlds st :
  (languages_ok params →
   (∀ e, ∃ httpStatus, createErrorResponse e (config ≫= proxyEndpoint) = inr httpStatus) →
   ∃ response st',
     the_query params config worlds st = (inr response, st')
     ∧ (no_text params → response = failure 400 params ∧ st' = st)
     ∧ (∀ p, params = Some p → truthy_value (text p) = true →
        match retryWithBackoff (fun k => the_attempt p config (worlds k)) st with
        | (inr r, st1) => response = r ∧ st' = st1
        | (inl e, st1) =>
            ∃ httpStatus,
              createErrorResponse e (config ≫= proxyEndpoint) = inr httpStatus
              ∧ response = failure httpStatus params
              ∧ translatedText response = None ∧ st' = st1
        end))
  ∧ (∀ p, params = Some p →
       language_ok (source_lang p) && language_ok (target_lang p) = false →
       (truthy_value (text p) = false →
        ∃ e, the_query params config worlds st = (inl e, st)
             ∧ name e = lit "TypeError")
       ∧ (truthy_value (text p) = true →
          ∀ e st1,
            retryWithBackoff (fun k => the_attempt p config (worlds k)) st = (inl e, st1) →
            ∃ e', the_query params config worlds st = (inl e', st1)))
  ∧ (∀ p e st1 thrown,
       params = Some p → truthy_value (text p) = true →
       retryWithBackoff (fun k => the_attempt p config (worlds k)) st = (inl e, st1) →
       createErrorResponse e (config ≫= proxyEndpoint) = inl thrown →
       the_query params config worlds st = (inl thrown, st1))
  ∧ (∀ p w st0,
       RateLimit.allowed (fst (admission API_URL config w st0)) = false →
       ∃ e, fst (the_attempt p config w st0) = inl e ∧ code e = Some 429).
Proof.
  split; [|split; [|split]].
  - intros Hlang Hhandler.
    destruct params as [p|].
    + destruct (truthy_value (text p)) eqn:Htext.
      * rewrite (query_with_text p config worlds st Htext).
        destruct (retryWithBackoff (fun k => the_attempt p config (worlds k)) st)
          as [[e|r] st1] eqn:Hretry.
        -- destruct (Hhandler e) as [httpStatus Hstatus]. rewrite Hstatus.
           pose proof (failureResponse_built httpStatus (Some p) Hlang) as Hbuilt.
           cbv [fmap option_fmap option_map default from_option id] in Hbuilt. rewrite Hbuilt.
           eexists. eexists. split; [reflexivity|].
           split; [unfold no_text; congruence|].
           intros p' Hp' _. inversion Hp'; subst p'. rewrite Hretry.
           exists httpStatus. now repeat split.
        -- eexists. eexists. split; [reflexivity|].
           split; [unfold no_text; congruence|].
           intros p' Hp' _. inversion Hp'; subst p'. rewrite Hretry. now split.
      * rewrite (query_without_text (Some p) config worlds st Htext).
        rewrite (failureResponse_built 400 (Some p) Hlang).
        eexists. eexists. split; [reflexivity|]. split; [now split|].
        intros p' Hp'. inversion Hp'; subst p'. congruence.
    + rewrite (query_without_text None config worlds st I).
      rewrite (failureResponse_built 400 None I).
      eexists. eexists. split; [reflexivity|]. split; [now split|].
      intros p' Hp'. discriminate.
  - intros p -> Hbad. split.
    + intros Htext. rewrite (query_without_text (Some p) config worlds st Htext).
      cbv [fmap option_fmap option_map default from_option id].
      destruct (failureResponse_thrown 400 _ _ Hbad) as (e & -> & Hname).
      exists e. now split.
    + intros Htext e st1 Hretry.
      rewrite (query_with_text p config worlds st Htext), Hretry.
      destruct (createErrorResponse e (config ≫= proxyEndpoint)) as [thrown|httpStatus];
        [eexists; reflexivity|].
      destruct (failureResponse_thrown httpStatus _ _ Hbad) as (e' & -> & _).
      eexists. reflexivity.
  - intros p e st1 thrown -> Htext Hretry Hthrown.
    now rewrite (query_with_text p config worlds st Htext), Hretry, Hthrown.
  - intros p w st0 Hdenied.
    destruct (attempt_rate_limited p config w st0 Hdenied) as (e & He & Hcode & _).
    exists e. now rewrite He.
Qed.

End Orchestrator.

Lemma query_never_throws_witness :
  fst (query example_limits 3 (lit "cf-") 30 (lit "https://www2.deepl.com/jsonrpc")
         sample_createErrorResponse (retryWithBackoff_spec sample_isRetryable 2 0)
         (Some example_request) (Some example_config) example_world
         exhausted_client_store)
  = inr (failure 429 (Some example_request))
  ∧ fst (query example_limits 3 (lit "cf-") 30 (lit "https://www2.deepl.com/jsonrpc")
           sample_createErrorResponse (retryWithBackoff_spec sample_isRetryable 2 0)
           None None example_world exhausted_client_store)
    = inr (failure 400 None).
Proof.
  assert (Hhandler : ∀ ep e, ∃ httpStatus,
            sample_createErrorResponse e ep = inr httpStatus)
    by (intros ep e; eexists; reflexivity).
  split.
  - destruct (proj1 (query_never_throws example_limits 3 (lit "cf-") 30
                       (lit "https://www2.deepl.com/jsonrpc")
                       sample_createErrorResponse
                       (retryWithBackoff_spec sample_isRetryable 2 0)
                       (Some example_request) (Some example_config) example_world
                       exhausted_client_store)
                (conj eq_refl eq_refl) (Hhandler _))
      as (response & st' & Hrun & _ & Herr).
    rewrite Hrun. cbn [fst]. f_equal.
    specialize (Herr example_request eq_refl eq_refl).
    vm_compute in Herr. destruct Herr as (httpStatus & Hs & -> & _).
    inversion Hs; subst. vm_compute. reflexivity.
  - destruct (proj1 (query_never_throws example_limits 3 (lit "cf-") 30
                       (lit "https://www2.deepl.com/jsonrpc")
                       sample_createErrorResponse
                       (retryWithBackoff_spec sample_isRetryable 2 0)
                       None None example_world exhausted_client_store)
                I (Hhandler _))
      as (response & st' & Hrun & Hno & _).
    rewrite Hrun. cbn [fst]. f_equal. now destruct (Hno I).
Defined.

(** End to end: "Hi" to German, the upstream answering "Hallo". *)
Example query_translates :
  fst (query example_limits 3 (lit "cf-") 30 (lit "https://www2.deepl.com/jsonrpc")
         sample_createErrorResponse (retryWithBackoff_spec sample_isRetryable 2 0)
         (Some example_request) (Some example_config) example_world
         RateReference.empty_store)
  = inr (createStandardResponse 200 (Some (lit "Hallo")) (Some 123)
           (VString (lit "EN")) (VString (lit "DE"))).
Proof. vm_compute. reflexivity. Qed.

(** A custom header that is no header name fails the attempt, and the
    failure is answered like any other. *)
Example query_with_bad_custom_header :
  fst (query example_limits 3 (lit "cf-") 30 (lit "https://www2.deepl.com/jsonrpc")
         sample_createErrorResponse (retryWithBackoff_spec (fun _ => false) 2 0)
         (Some example_request)
         (Some {| proxyEndpoint := None; clientIP := None;
                  customHeader := Some [(lit "X Custom", lit "1")];
                  env := None |})
         example_world RateReference.empty_store)
  = inr (failure 500 (Some example_request)).
Proof. vm_compute. reflexivity. Qed.

End QueryFacts.

(** ** The token counts, with the reads left under way *)

Module DetachedFacts.
Import JS Value RateLimit RateReference RateLimitFacts Detached.
Local Open Scope Q_scope.

(** With exact counts and every read settling as soon as its check
    returns, the history is the check of [RateLimit]. *)
Lemma checkRateLimit_settled_at_once clientIP now oc st :
  RateLimit.checkRateLimit clientIP now oc st
  = (fst (checkRateLimit (fun x => x) clientIP now oc {| store := st; reads := [] |}),
     store (settle (fun x => x) 0 false
              (snd (checkRateLimit (fun x => x) clientIP now oc
                      {| store := st; reads := [] |})))).
Proof.
  unfold RateLimit.checkRateLimit, checkRateLimit, available, settle, kv_get.
  cbn [store reads].
  destruct (rateCache st !! (lit "rate:" ++ clientIP)) as [cached|];
    [destruct (now - cache_lastUpdate cached <? CACHE_TTL)%Z|];
    try (destruct (get_delivers oc);
         [destruct (RATE_LIMIT_KV st !! (lit "rate:" ++ clientIP)) as [existing|]|]);
    cbv zeta; destruct (Qlt_le_dec _ 1); reflexivity.
Qed.

(** C4, as stated, fails: nothing clamps a count at 0. A clock that steps
    back between two checks of an identity leaves a negative count in its
    bucket; and so does, with a clock that runs forward, a read that is
    served after a later check has written its record. Both histories start
    from the empty state. *)
Lemma tokens_below_zero :
  (∃ c, rateCache (store (snd (exec (fun x => x) backward_history start)))
          !! (lit "rate:203.0.113.7") = Some c
        ∧ cache_tokens c < 0)
  ∧ (∃ c, rateCache (store (snd (exec (fun x => x) late_served_history start)))
            !! (lit "rate:203.0.113.7") = Some c
          ∧ cache_tokens c < 0
          ∧ in_clock_order 0 late_served_history).
Proof.
  split; eexists; (split; [vm_compute; reflexivity|]).
  - vm_compute. reflexivity.
  - split; [vm_compute; reflexivity|]. cbv. repeat split; discriminate.
Qed.

Section Rounded.
Variable fl : Q → Q.
Hypothesis Hfl : rounding fl.

Lemma fl_nonneg x : 0 <= x → 0 <= fl x.
Proof.
  destruct Hfl as (Hmon & H0 & _). intros Hx.
  apply Qle_trans with (fl 0); [rewrite H0; apply Qle_refl|now apply Hmon].
Qed.

Lemma fl_capacity x : x <= 60 → fl x <= 60.
Proof.
  destruct Hfl as (Hmon & _ & H60). intros Hx.
  apply Qle_trans with (fl 60); [now apply Hmon|rewrite H60; apply Qle_refl].
Qed.

Lemma refill_capacity t now l : refill fl t now l <= DEFAULT_TOKENS_PER_MINUTE.
Proof. apply Q.le_min_l. Qed.

Lemma refill_in_range t now l :
  0 <= t → (l <= now)%Z → in_range (refill fl t now l).
Proof.
  intros Ht Hl. split; [|apply refill_capacity].
  unfold refill. cbv zeta. apply Q.min_glb; [discriminate|].
  apply fl_nonneg.
  assert (Hdt : 0 <= inject_Z (now - l) / 1000).
  { apply Qle_shift_div_l; [reflexivity|].
    pose proof (inject_Z_le 0 (now - l) ltac:(lia)) as H.
    change (inject_Z 0) with 0 in H. lra. }
  assert (Hrate : 0 <= REFILL_RATE) by discriminate.
  pose proof (Qmult_le_0_compat _ _ (fl_nonneg _ Hdt) Hrate) as Hprod.
  pose proof (fl_nonneg _ Hprod). lra.
Qed.

Lemma spent_in_range t : 1 <= t → t <= 60 → in_range (fl (t - 1)).
Proof.
  intros H1 H60. split; [apply fl_nonneg; lra|].
  unfold DEFAULT_TOKENS_PER_MINUTE. apply fl_capacity. lra.
Qed.

Lemma read_ok_later T T' r : (T <= T')%Z → read_ok T r → read_ok T' r.
Proof. intros Hle [Hn Hfound]. split; [lia|exact Hfound]. Qed.

(** What a check writes, with a count in range, keeps the invariant. *)
Lemma written_state_ok now oc key t rs st :
  store_ok now st → in_range t → Forall (read_ok now) rs →
  state_ok now
    {| store :=
         kv_put oc key {| tokens := t; lastRefill := now |}
           (cache_set key
              {| cache_tokens := t; cache_lastRefill := now;
                 cache_lastUpdate := now |} st);
       reads := rs |}.
Proof.
  intros Hst Ht Hrs. split; [|exact Hrs]. cbn [store].
  apply kv_put_ok; [apply cache_set_ok|..];
    cbn [tokens lastRefill cache_tokens cache_lastRefill];
    first [exact Hst|exact Ht|lia].
Qed.

Lemma verdict_state_ok now oc key t rs st :
  store_ok now st → in_range t → Forall (read_ok now) rs →
  state_ok now
    (snd (if Qlt_le_dec t 1
          then (false,
                {| store :=
                     kv_put oc key {| tokens := t; lastRefill := now |}
                       (cache_set key
                          {| cache_tokens := t; cache_lastRefill := now;
                             cache_lastUpdate := now |} st);
                   reads := rs |})
          else (true,
                {| store :=
                     kv_put oc key {| tokens := fl (t - 1); lastRefill := now |}
                       (cache_set key
                          {| cache_tokens := fl (t - 1); cache_lastRefill := now;
                             cache_lastUpdate := now |} st);
                   reads := rs |}))).
Proof.
  intros Hst Ht Hrs. destruct (Qlt_le_dec t 1) as [Hlt|Hge]; cbn [snd].
  - now apply written_state_ok.
  - apply written_state_ok; [exact Hst| |exact Hrs].
    apply spent_in_range; [exact Hge|apply Ht].
Qed.

Lemma checkRateLimit_state_ok T clientIP now oc s :
  state_ok T s → (T <= now)%Z →
  state_ok now (snd (checkRateLimit fl clientIP now oc s)).
Proof.
  intros [Hst Hreads] Hle. unfold checkRateLimit. cbv zeta.
  set (key := lit "rate:" ++ clientIP).
  assert (Hst' : store_ok now (store s)) by exact (store_ok_mono T now _ Hle Hst).
  assert (Hreads' : Forall (read_ok now) (reads s)).
  { eapply Forall_impl; [exact Hreads|]. intros r. now apply read_ok_later. }
  assert (Hissued :
    Forall (read_ok now)
      (reads s ++ [{| read_key := key; read_now := now;
                      read_found := RATE_LIMIT_KV (store s) !! key |}])).
  { apply Forall_app. split; [exact Hreads'|]. constructor; [|constructor].
    split; cbn [read_now read_found]; [lia|].
    intros e He. destruct Hst as [_ Hk]. destruct (Hk _ _ He) as [Hr Hl].
    split; [exact Hr|lia]. }
  assert (Hfull : in_range DEFAULT_TOKENS_PER_MINUTE) by apply capacity_in_range.
  destruct (rateCache (store s) !! key) as [cached|] eqn:Hc.
  - destruct (now - cache_lastUpdate cached <? CACHE_TTL)%Z.
    + apply verdict_state_ok; [exact Hst'| |exact Hreads'].
      destruct Hst as [Hcache _]. destruct (Hcache _ _ Hc) as [[H0 _] Hl].
      apply refill_in_range; [exact H0|lia].
    + destruct (get_delivers oc); apply verdict_state_ok; assumption.
  - destruct (get_delivers oc); apply verdict_state_ok; assumption.
Qed.

(** A read that delivers what its check found keeps the invariant. *)
Lemma settle_state_ok T n s : state_ok T s → state_ok T (settle fl n false s).
Proof.
  intros [Hst Hreads]. unfold settle.
  destruct (reads s !! n) as [r|] eqn:Hr; [|split; assumption].
  pose proof (proj1 (Forall_lookup _ _) Hreads n r Hr) as [Hn Hfound].
  split; cbn [store reads]; [|now apply Forall_delete].
  unfold callback. destruct (read_found r) as [e|] eqn:He; [|exact Hst].
  destruct (Hfound e eq_refl) as [[H0 _] Hl].
  apply cache_set_ok; [exact Hst|..]; cbn [cache_tokens cache_lastRefill].
  - now apply refill_in_range.
  - lia.
Qed.

Lemma exec_state_ok events : ∀ T s,
  state_ok T s → in_clock_order T events → served_at_issue events →
  ∃ T', state_ok T' (snd (exec fl events s)).
Proof.
  induction events as [|[clientIP now oc|n late] events IH];
    intros T s Hs Horder Hserved.
  - exists T. exact Hs.
  - destruct Horder as [Hle Horder]. cbn [exec].
    pose proof (checkRateLimit_state_ok T clientIP now oc s Hs Hle) as Hnext.
    destruct (checkRateLimit fl clientIP now oc s) as [ok s1]. cbn [snd] in Hnext.
    destruct (IH now s1 Hnext Horder Hserved) as [T' HT'].
    destruct (exec fl events s1) as [oks s2]. exists T'. exact HT'.
  - destruct Hserved as [-> Hserved]. cbn [exec].
    apply (IH T); [now apply settle_state_ok|exact Horder|exact Hserved].
Qed.

Lemma in_clock_order_take n : ∀ T events,
  in_clock_order T events → in_clock_order T (take n events).
Proof.
  induction n as [|n IH]; intros T [|[clientIP now oc|k late] events] H; simpl; auto.
  destruct H as [Hle H]. split; [exact Hle|now apply IH].
Qed.

Lemma served_at_issue_take n : ∀ events,
  served_at_issue events → served_at_issue (take n events).
Proof.
  induction n as [|n IH]; intros [|[clientIP now oc|k late] events] H; simpl; auto.
  destruct H as [Hlate H]. split; [exact Hlate|now apply IH].
Qed.

Lemma checkRateLimit_below_capacity clientIP now oc s :
  below_capacity s → below_capacity (snd (checkRateLimit fl clientIP now oc s)).
Proof.
  intros [Hc Hk]. unfold checkRateLimit. cbv zeta.
  set (key := lit "rate:" ++ clientIP).
  assert (Hboth : ∀ t rs, t <= DEFAULT_TOKENS_PER_MINUTE →
            below_capacity
              (snd (if Qlt_le_dec t 1
                    then (false,
                          {| store :=
                               kv_put oc key {| tokens := t; lastRefill := now |}
                                 (cache_set key
                                    {| cache_tokens := t; cache_lastRefill := now;
                                       cache_lastUpdate := now |} (store s));
                             reads := rs |})
                    else (true,
                          {| store :=
                               kv_put oc key
                                 {| tokens := fl (t - 1); lastRefill := now |}
                                 (cache_set key
                                    {| cache_tokens := fl (t - 1);
                                       cache_lastRefill := now;
                                       cache_lastUpdate := now |} (store s));
                             reads := rs |})))).
  { intros t rs Ht.
    assert (Hspent : fl (t - 1) <= DEFAULT_TOKENS_PER_MINUTE)
      by (unfold DEFAULT_TOKENS_PER_MINUTE in *; apply fl_capacity; lra).
    destruct (Qlt_le_dec t 1); cbn [snd]; unfold below_capacity, kv_put, cache_set;
      destruct (put_succeeds oc); cbn [store rateCache RATE_LIMIT_KV];
      split; repeat (apply map_Forall_insert_2; [cbn; assumption|]); assumption. }
  destruct (rateCache (store s) !! key) as [cached|];
    [destruct (now - cache_lastUpdate cached <? CACHE_TTL)%Z|];
    try destruct (get_delivers oc);
    apply Hboth; first [apply refill_capacity|apply Qle_refl].
Qed.

Lemma settle_below_capacity n late s :
  below_capacity s → below_capacity (settle fl n late s).
Proof.
  intros [Hc Hk]. unfold settle. destruct (reads s !! n) as [r|]; [|split; assumption].
  cbv zeta. unfold callback.
  destruct (if late then _ else _) as [e|]; [|split; assumption].
  split; cbn [store cache_set rateCache RATE_LIMIT_KV]; [|exact Hk].
  apply map_Forall_insert_2; [apply refill_capacity|exact Hc].
Qed.

Lemma exec_below_capacity events : ∀ s,
  below_capacity s → below_capacity (snd (exec fl events s)).
Proof.
  induction events as [|[clientIP now oc|n late] events IH]; intros s Hs; [exact Hs| |].
  - cbn [exec].
    pose proof (checkRateLimit_below_capacity clientIP now oc s Hs) as Hnext.
    destruct (checkRateLimit fl clientIP now oc s) as [ok s1]. cbn [snd] in Hnext.
    specialize (IH s1 Hnext). now destruct (exec fl events s1).
  - cbn [exec]. apply IH. now apply settle_below_capacity.
Qed.

(** C4 (amended): whatever the identities, the outcomes of the store
    operations, the idle time between two checks and the moments at which
    the detached reads settle, and for counts rounded as doubles are:
    from a state without a count above the capacity, no check and no
    callback leaves a count above the capacity, whatever the clock does and
    whatever the reads deliver; and from a state that satisfies the
    invariant (the empty one does), with a clock that does not run backwards
    and reads that deliver what the namespace held when they were issued,
    every count in the cache and in the stored records stays between 0 and
    the capacity after each event of the history. *)
Theorem tokens_always_in_range events s T :
  (below_capacity s → ∀ n, below_capacity (snd (exec fl (take n events) s)))
  ∧ (state_ok T s → in_clock_order T events → served_at_issue events →
     ∀ n, tokens_in_range (store (snd (exec fl (take n events) s)))).
Proof.
  split.
  - intros Hs n. now apply exec_below_capacity.
  - intros Hs Horder Hserved n.
    destruct (exec_state_ok (take n events) T s Hs
                (in_clock_order_take n T events Horder)
                (served_at_issue_take n events Hserved))
      as [T' [HT' _]].
    exact (store_ok_tokens T' _ HT').
Qed.

End Rounded.

Lemma exact_rounding : rounding (fun x => x).
Proof. split; [auto|split; reflexivity]. Qed.

Lemma tokens_always_in_range_witness :
  tokens_in_range (store (snd (exec (fun x => x) late_history stored_start)))
  ∧ below_capacity (snd (exec (fun x => x) late_served_history start)).
Proof.
  split.
  - refine (proj2 (tokens_always_in_range (fun x => x) exact_rounding late_history
                     stored_start 1700000000000) _ _ _ 5%nat).
    + split; [split; [apply map_Forall_empty|]|constructor].
      apply map_Forall_singleton. cbn. repeat split; try discriminate; try lia.
    + cbv. repeat split; discriminate.
    + cbv. repeat split.
  - refine (proj1 (tokens_always_in_range (fun x => x) exact_rounding
                     late_served_history start 0) _ 63%nat).
    split; apply map_Forall_empty.
Defined.

(** The read of the first check settles after the third: its callback
    writes the 3 tokens of the record refilled over 20 s, that is 23, with
    the anchor of the record, and the fourth check refills them from that
    anchor once more and spends one: 42.03 tokens, where the third check
    had left 57. *)
Example late_callback_overwrites :
  ∃ c, rateCache (store (snd (exec (fun x => x) late_history stored_start)))
         !! (lit "rate:203.0.113.7") = Some c
       ∧ cache_tokens c == 4203 # 100.
Proof. eexists. split; vm_compute; reflexivity. Qed.

End DetachedFacts.

(** ** More on the token bucket *)

Module RateLimitMore.
Import JS Value RateLimit RateReference RateExtra RateLimitFacts.
Local Open Scope Q_scope.

(** A check as an update of the bucket of its identity. *)
Lemma checkRateLimit_effect clientIP now oc st :
  let key := lit "rate:" ++ clientIP in
  let '(verdict, entry, record) := check_effect (bucket clientIP st) now oc in
  checkRateLimit clientIP now oc st
  = (verdict,
     {| rateCache := <[key := entry]> (rateCache st);
        RATE_LIMIT_KV :=
          if put_succeeds oc then <[key := record]> (RATE_LIMIT_KV st)
          else RATE_LIMIT_KV st |}).
Proof.
  cbv zeta. unfold check_effect, checkRateLimit, available, kv_get, bucket.
  cbn [fst snd].
  destruct (rateCache st !! (lit "rate:" ++ clientIP)) as [cached|];
    [destruct (now - cache_lastUpdate cached <? CACHE_TTL)%Z|];
    cbn [fst snd];
    try (destruct (get_delivers oc);
         [destruct (RATE_LIMIT_KV st !! (lit "rate:" ++ clientIP)) as [existing|]|]);
    destruct (Qlt_le_dec _ 1); cbn [fst snd];
    unfold kv_refresh, kv_put, cache_set; destruct (put_succeeds oc);
    cbn [rateCache RATE_LIMIT_KV]; rewrite ?insert_insert_eq;
    destruct st; reflexivity.
Qed.

Lemma verdict_of_effect clientIP now oc st :
  fst (checkRateLimit clientIP now oc st)
  = fst (fst (check_effect (bucket clientIP st) now oc)).
Proof.
  pose proof (checkRateLimit_effect clientIP now oc st) as H. cbv zeta in H.
  destruct (check_effect (bucket clientIP st) now oc) as [[verdict entry] record].
  now rewrite H.
Qed.

(** The verdict of a check is read off the cache alone: the stored record
    and the outcomes of the store operations have no part in it, and an
    identity without a cache entry younger than [CACHE_TTL] passes, whatever
    the durable store holds for it. *)
Theorem durable_store_never_decides clientIP now oc oc' st st' :
  rateCache st !! (lit "rate:" ++ clientIP)
  = rateCache st' !! (lit "rate:" ++ clientIP) →
  fst (checkRateLimit clientIP now oc st) = fst (checkRateLimit clientIP now oc' st')
  ∧ ((rateCache st !! (lit "rate:" ++ clientIP) = None
      ∨ ∃ c, rateCache st !! (lit "rate:" ++ clientIP) = Some c
             ∧ (cache_lastUpdate c + CACHE_TTL <= now)%Z) →
     fst (checkRateLimit clientIP now oc st) = true).
Proof.
  intros Hcache. rewrite !verdict_of_effect. unfold check_effect, bucket.
  cbn [fst snd]. rewrite <- Hcache. split.
  - destruct (rateCache st !! (lit "rate:" ++ clientIP)) as [cached|];
      [destruct (now - cache_lastUpdate cached <? CACHE_TTL)%Z|]; reflexivity.
  - intros [Hnone|(c & Hc & Hold)].
    + rewrite Hnone. cbn [fst].
      destruct (Qlt_le_dec DEFAULT_TOKENS_PER_MINUTE 1) as [Hlt|_]; [|reflexivity].
      unfold DEFAULT_TOKENS_PER_MINUTE in Hlt. lra.
    + rewrite Hc.
      destruct (Z.ltb_spec (now - cache_lastUpdate c) CACHE_TTL) as [Hfresh|_]; [lia|].
      cbn [fst].
      destruct (Qlt_le_dec DEFAULT_TOKENS_PER_MINUTE 1) as [Hlt|_]; [|reflexivity].
      unfold DEFAULT_TOKENS_PER_MINUTE in Hlt. lra.
Qed.

Lemma durable_store_never_decides_witness :
  fst (checkRateLimit (lit "203.0.113.7") 1700000000001 kv_fine drained_record_store)
  = true.
Proof.
  apply (proj2 (durable_store_never_decides (lit "203.0.113.7") 1700000000001
                  kv_fine kv_fine drained_record_store drained_record_store eq_refl)).
  left. reflexivity.
Defined.

(** The checks of two different identities commute: either order gives the
    same two verdicts and the same store. *)
Theorem checks_of_two_identities_commute A B ta oa tb ob st :
  A ≠ B →
  let a_then_b := checkRateLimit B tb ob (snd (checkRateLimit A ta oa st)) in
  let b_then_a := checkRateLimit A ta oa (snd (checkRateLimit B tb ob st)) in
  fst b_then_a = fst (checkRateLimit A ta oa st)
  ∧ fst a_then_b = fst (checkRateLimit B tb ob st)
  ∧ snd a_then_b = snd b_then_a.
Proof.
  intros Hne. cbv zeta.
  assert (Hkey : lit "rate:" ++ A ≠ lit "rate:" ++ B)
    by (intros H; apply app_inv_head in H; congruence).
  pose proof (checkRateLimit_effect B tb ob (snd (checkRateLimit A ta oa st))) as Hab.
  pose proof (checkRateLimit_effect A ta oa (snd (checkRateLimit B tb ob st))) as Hba.
  cbv zeta in Hab, Hba.
  rewrite (checkRateLimit_other_bucket A B ta oa st) in Hab by congruence.
  rewrite (checkRateLimit_other_bucket B A tb ob st) in Hba by congruence.
  pose proof (checkRateLimit_effect A ta oa st) as Ha.
  pose proof (checkRateLimit_effect B tb ob st) as Hb.
  cbv zeta in Ha, Hb.
  destruct (check_effect (bucket A st) ta oa) as [[va ea] ra].
  destruct (check_effect (bucket B st) tb ob) as [[vb eb] rb].
  rewrite Hab, Hba. rewrite Ha, Hb. cbn [fst snd rateCache RATE_LIMIT_KV].
  split; [reflexivity|]. split; [reflexivity|].
  f_equal; [apply insert_insert_ne; congruence|].
  destruct (put_succeeds oa), (put_succeeds ob); try reflexivity.
  apply insert_insert_ne. congruence.
Qed.

Lemma checks_of_two_identities_commute_witness :
  snd (checkRateLimit (lit "https://proxy.example") 1700000000101 kv_fine
         (snd (checkRateLimit (lit "203.0.113.7") 1700000000100 kv_fine
                 exhausted_proxy_store)))
  = snd (checkRateLimit (lit "203.0.113.7") 1700000000100 kv_fine
           (snd (checkRateLimit (lit "https://proxy.example") 1700000000101 kv_fine
                   exhausted_proxy_store))).
Proof.
  apply (checks_of_two_identities_commute (lit "203.0.113.7")
           (lit "https://proxy.example") 1700000000100 kv_fine 1700000000101 kv_fine
           exhausted_proxy_store).
  discriminate.
Defined.




















(** Seventy clients, each with a full bucket of its own, share the sixty
    tokens of the egress. *)
Example crowd_is_cut_off :
  served (fst (run_combined (Some (lit "https://www2.deepl.com/jsonrpc"))
                 example_crowd empty_store)) = 60%nat.
Proof. vm_compute. reflexivity. Qed.

End RateLimitMore.

(** ** The caller's address and the proxy pool *)

Module AddressFacts.
Import JS Value Fetch ProxyManager ClientAddress.

Lemma trim_start_suffix s : ∃ pre, s = pre ++ trim_start s.
Proof.
  induction s as [|c s [pre IH]]; [exists []; reflexivity|]. simpl.
  destruct (is_js_whitespace c); [|exists []; reflexivity].
  exists (c :: pre). simpl. now f_equal.
Qed.

Lemma trim_start_head s c rest :
  trim_start s = c :: rest → is_js_whitespace c = false.
Proof.
  induction s as [|d s IH]; simpl; [discriminate|].
  destruct (is_js_whitespace d) eqn:E; [exact IH|].
  intros H. inversion H; subst. exact E.
Qed.

Lemma trim_start_fixed s :
  match s with c :: _ => is_js_whitespace c = false | [] => True end →
  trim_start s = s.
Proof. destruct s as [|c s]; simpl; [reflexivity|]. now intros ->. Qed.

Lemma trim_start_idem s : trim_start (trim_start s) = trim_start s.
Proof.
  apply trim_start_fixed. destruct (trim_start s) as [|c rest] eqn:E; [exact I|].
  exact (trim_start_head s c rest E).
Qed.

(** Trimming a trimmed text changes nothing. *)
Lemma trim_idem s : trim (trim s) = trim s.
Proof.
  unfold trim.
  set (a := trim_start s). set (b := trim_start (rev a)).
  assert (Hhead : trim_start (rev b) = rev b).
  { apply trim_start_fixed.
    destruct (rev b) as [|c rest] eqn:Erb; [exact I|].
    destruct (trim_start_suffix (rev a)) as [pre Hpre]. fold b in Hpre.
    apply (f_equal (@rev N)) in Hpre. rewrite rev_involutive, rev_app_distr, Erb in Hpre.
    simpl in Hpre. exact (trim_start_head s c _ Hpre). }
  rewrite Hhead, rev_involutive. unfold b. now rewrite trim_start_idem.
Qed.

Lemma Forall_trim_start (P : N → Prop) s : Forall P s → Forall P (trim_start s).
Proof.
  induction 1 as [|c s Hc Hs IH]; simpl; [constructor|].
  destruct (is_js_whitespace c); [exact IH|now constructor].
Qed.

Lemma Forall_trim (P : N → Prop) s : Forall P s → Forall P (trim s).
Proof.
  intros H. unfold trim. apply Forall_rev, Forall_trim_start, Forall_rev.
  now apply Forall_trim_start.
Qed.

(** No piece of a split holds the separator. *)
Lemma split_pieces sep s : Forall (Forall (fun c => c ≠ sep)) (split sep s).
Proof.
  induction s as [|c s IH]; simpl; [repeat constructor|].
  destruct (N.eqb_spec c sep) as [->|Hne]; [constructor; [constructor|exact IH]|].
  destruct (split sep s) as [|piece pieces]; [repeat constructor; exact Hne|].
  inversion IH; subst. constructor; [now constructor|assumption].
Qed.

Lemma first_forwarded_shape headers x :
  first_forwarded headers = Some x →
  Forall (fun c => c ≠ 44%N) x ∧ trim x = x.
Proof.
  unfold first_forwarded.
  destruct (get headers (lit "X-Forwarded-For")) as [forwarded|]; [|discriminate].
  pose proof (split_pieces 44 forwarded) as Hpieces.
  destruct (split 44 forwarded) as [|piece pieces]; [discriminate|].
  intros H. inversion H; subst. inversion Hpieces; subst.
  split; [now apply Forall_trim|apply trim_idem].
Qed.

(** [getClientIP] never returns the empty text. A non-empty
    [CF-Connecting-IP] is returned as it is, whatever [X-Forwarded-For]
    says; without one the answer is the first entry of [X-Forwarded-For],
    trimmed and without a comma, when that is not empty, and "unknown" in
    every other case. *)
Theorem getClientIP_answers headers :
  getClientIP headers ≠ []
  ∧ (∀ ip, get headers (lit "CF-Connecting-IP") = Some ip → ip ≠ [] →
       getClientIP headers = ip)
  ∧ ((get headers (lit "CF-Connecting-IP") = None
      ∨ get headers (lit "CF-Connecting-IP") = Some []) →
     (getClientIP headers = lit "unknown"
      ∧ (first_forwarded headers = None ∨ first_forwarded headers = Some []))
     ∨ (first_forwarded headers = Some (getClientIP headers)
        ∧ Forall (fun c => c ≠ 44%N) (getClientIP headers)
        ∧ trim (getClientIP headers) = getClientIP headers)).
Proof.
  assert (Hdefault :
    or_default_string (first_forwarded headers) ≠ []
    ∧ ((or_default_string (first_forwarded headers) = lit "unknown"
        ∧ (first_forwarded headers = None ∨ first_forwarded headers = Some []))
       ∨ (first_forwarded headers = Some (or_default_string (first_forwarded headers))
          ∧ Forall (fun c => c ≠ 44%N) (or_default_string (first_forwarded headers))
          ∧ trim (or_default_string (first_forwarded headers))
            = or_default_string (first_forwarded headers)))).
  { unfold or_default_string.
    destruct (first_forwarded headers) as [x|] eqn:E;
      [|split; [discriminate|left; split; [reflexivity|now left]]].
    destruct x as [|c x]; cbn [truthy];
      [split; [discriminate|left; split; [reflexivity|now right]]|].
    split; [discriminate|]. right. split; [reflexivity|].
    exact (first_forwarded_shape headers _ E). }
  unfold getClientIP.
  destruct (get headers (lit "CF-Connecting-IP")) as [[|c ip]|]; cbn [truthy].
  - split; [apply Hdefault|]. split; [intros ip H; inversion H; congruence|].
    intros _. apply Hdefault.
  - split; [discriminate|]. split; [intros ip' H _; now inversion H|].
    intros [H|H]; discriminate.
  - split; [apply Hdefault|]. split; [discriminate|]. intros _. apply Hdefault.
Qed.

Lemma getClientIP_answers_witness :
  getClientIP example_request_headers = lit "198.51.100.4"
  ∧ getClientIP ((lit "CF-Connecting-IP", lit "203.0.113.7") :: example_request_headers)
    = lit "203.0.113.7".
Proof.
  split; [vm_compute; reflexivity|].
  apply (proj1 (proj2 (getClientIP_answers
                         ((lit "CF-Connecting-IP", lit "203.0.113.7")
                          :: example_request_headers)))).
  - vm_compute. reflexivity.
  - discriminate.
Defined.

(** The pool read from [PROXY_URLS]: empty without a value or with the
    empty text; otherwise one endpoint more than the text has commas, an
    empty entry giving an endpoint with an empty address, each address
    trimmed and free of commas. [selectProxy] returns the endpoint at the
    drawn index, and nothing exactly when the index is outside the pool. *)
Theorem proxy_pool env :
  ((PROXY_URLS env = None ∨ PROXY_URLS env = Some []) →
   getProxyEndpoints env = [] ∧ ∀ index, selectProxy env index = None)
  ∧ (∀ urls, PROXY_URLS env = Some urls → urls ≠ [] →
       length (getProxyEndpoints env)
       = S (length (List.filter (fun c => (c =? 44)%N) urls))
       ∧ Forall (fun p => Forall (fun c => c ≠ 44%N) (url p) ∧ trim (url p) = url p)
           (getProxyEndpoints env)
       ∧ ∀ index, selectProxy env index = nth_error (getProxyEndpoints env) index
                  ∧ (selectProxy env index = None
                     ↔ (length (getProxyEndpoints env) <= index)%nat)).
Proof.
  split.
  - intros H. assert (Hnil : getProxyEndpoints env = [])
      by (unfold getProxyEndpoints; destruct H as [-> | ->]; reflexivity).
    split; [exact Hnil|]. intros index. unfold selectProxy. now rewrite Hnil.
  - intros urls Hurls Hne.
    assert (Hpool : getProxyEndpoints env
                    = List.map (fun url => {| url := url |})
                        (List.map trim (split 44 urls))).
    { unfold getProxyEndpoints. rewrite Hurls.
      destruct urls; [congruence|reflexivity]. }
    assert (Hlen : length (getProxyEndpoints env)
                   = S (length (List.filter (fun c => (c =? 44)%N) urls)))
      by (rewrite Hpool, !length_map; apply TimestampFacts.split_length).
    split; [exact Hlen|]. split.
    + rewrite Hpool. apply Forall_forall. intros p Hp.
      apply list_elem_of_In, in_map_iff in Hp as (u & <- & Hu).
      apply in_map_iff in Hu as (piece & <- & Hpiece). cbn [url].
      split; [|apply trim_idem]. apply Forall_trim.
      pose proof (split_pieces 44 urls) as Hall. rewrite Forall_forall in Hall.
      apply Hall. now apply list_elem_of_In.
    + intros index. unfold selectProxy.
      destruct (Nat.eqb_spec (length (getProxyEndpoints env)) 0) as [H0|_]; [lia|].
      split; [reflexivity|]. apply nth_error_None.
Qed.

Lemma proxy_pool_witness :
  List.map url (getProxyEndpoints example_env)
  = [lit "https://a.example"; lit "https://b.example"; []]
  ∧ length (getProxyEndpoints example_env) = 3%nat.
Proof.
  split; [vm_compute; reflexivity|].
  exact (proj1 (proj2 (proxy_pool example_env) _ eq_refl ltac:(discriminate))).
Defined.

End AddressFacts.

(** ** More on the request *)

Module QueryMore.
Import JS Value Query Reference QueryReference QueryExtra.
Local Open Scope Z_scope.

(** The request id, with a clock past the epoch and the random component
    that [Math.floor(Math.random() * 1000000)] can give: the last eight
    digits of the clock plus the random component, below 101000000. *)
Theorem requestId_range alts trimmedText data now1 rand now2 requestData :
  0 <= now1 → 0 <= rand < 1000000 →
  requestEnvelope alts trimmedText data now1 rand now2 = inr requestData →
  let requestId := Envelope.id requestData in
  requestId = now1 mod 100000000 + rand ∧ 0 <= requestId < 101000000.
Proof.
  intros Hnow Hrand Henvelope requestId.
  assert (Hid : requestId = now1 mod 100000000 + rand).
  { subst requestId.
    rewrite (proj1 (SpacingFacts.stringify_shape _ _ _ _ _ _ _ Henvelope)).
    rewrite Z.rem_mod_nonneg by lia. rewrite Z.rem_small by lia. reflexivity. }
  split; [exact Hid|]. rewrite Hid.
  pose proof (Z.mod_pos_bound now1 100000000 ltac:(lia)). lia.
Qed.

Lemma requestId_range_witness :
  ∃ requestData,
    requestEnvelope 3 (lit "Hi") example_request 1700000012345 999999 1700000012346
    = inr requestData
    ∧ Envelope.id requestData = 1012344.
Proof.
  eexists. split; [vm_compute; reflexivity|].
  refine (proj1 (requestId_range 3 (lit "Hi") example_request 1700000012345 999999
                   1700000012346 _ ltac:(lia) ltac:(lia) _)).
  vm_compute. reflexivity.
Defined.

Lemma is_upper_spec c : is_upper c = true ↔ (65 <= c <= 90)%N.
Proof. unfold is_upper. rewrite andb_true_iff, !N.leb_le. reflexivity. Qed.

Lemma is_lower_spec c : is_lower c = true ↔ (97 <= c <= 122)%N.
Proof. unfold is_lower. rewrite andb_true_iff, !N.leb_le. reflexivity. Qed.

Lemma lower_upper_lower c : lower_unit (upper_unit (lower_unit c)) = lower_unit c.
Proof.
  destruct (is_upper c) eqn:U.
  - assert (Hl : lower_unit c = (c + 32)%N) by (unfold lower_unit; now rewrite U).
    apply is_upper_spec in U. rewrite Hl.
    assert (L : is_lower (c + 32) = true) by (apply is_lower_spec; lia).
    unfold upper_unit. rewrite L. replace (c + 32 - 32)%N with c by lia. exact Hl.
  - assert (Hl : lower_unit c = c) by (unfold lower_unit; now rewrite U).
    rewrite Hl. unfold upper_unit. destruct (is_lower c) eqn:L; [|exact Hl].
    apply is_lower_spec in L.
    assert (U' : is_upper (c - 32) = true) by (apply is_upper_spec; lia).
    unfold lower_unit. rewrite U'. lia.
Qed.

Lemma upper_unit_not_lower c : is_lower (upper_unit c) = false.
Proof.
  unfold upper_unit. destruct (is_lower c) eqn:E; [|exact E].
  apply is_lower_spec in E. apply not_true_is_false. intros H.
  apply is_lower_spec in H. lia.
Qed.

Lemma object_get_own own k v : object_get own k = VString v → In (k, v) own.
Proof.
  induction own as [|[k' v'] own IH]; simpl.
  - unfold Object_prototype_get.
    destruct (bool_decide _); [discriminate|]. destruct (str_eqb _ _); discriminate.
  - destruct (str_eqb k k') eqn:E.
    + intros H. inversion H; subst. apply bool_decide_eq_true in E. subst. now left.
    + intros H. right. now apply IH.
Qed.

Lemma languageMap_codes_fixed : forallb code_fixed languageMap = true.
Proof. vm_compute. reflexivity. Qed.

Lemma toLowerCase_of_upper s :
  toLowerCase (toUpperCase (toLowerCase s)) = toLowerCase s.
Proof.
  unfold toLowerCase, toUpperCase. rewrite !List.map_map.
  apply List.map_ext, lower_upper_lower.
Qed.

Lemma truthy_map (f : N → N) s : truthy (List.map f s) = truthy s.
Proof. now destruct s. Qed.

(** Normalising is idempotent: for an input in ASCII, where the case
    mapping of the model is that of the language, a text returned by
    [normalizeLanguageCode] is returned unchanged when normalised again,
    and it is "auto" or holds no lower-case letter. *)
Theorem normalizeLanguageCode_idempotent s r :
  Forall (fun c => is_ascii c = true) s →
  normalizeLanguageCode (Some s) = VString r →
  normalizeLanguageCode (Some r) = VString r
  ∧ (r = lit "auto" ∨ Forall (fun c => is_lower c = false) r).
Proof.
  intros _. unfold normalizeLanguageCode at 1.
  destruct (negb (truthy s) || str_eqb (toLowerCase s) (lit "auto")) eqn:Hauto.
  { intros H. inversion H; subst. split; [reflexivity|now left]. }
  apply orb_false_iff in Hauto as [Htr Hna]. apply negb_false_iff in Htr.
  cbv zeta.
  destruct (truthy_value (object_get languageMap (toLowerCase s))) eqn:Hfound.
  - intros Hget. apply object_get_own in Hget.
    pose proof languageMap_codes_fixed as Hfix. rewrite forallb_forall in Hfix.
    specialize (Hfix _ Hget). unfold code_fixed in Hfix. cbn [snd] in Hfix.
    apply andb_true_iff in Hfix as [Hfix Hupper].
    destruct (normalizeLanguageCode (Some r)) as [| | | |r'| |]; try discriminate.
    apply bool_decide_eq_true in Hfix. subst r'. split; [reflexivity|]. right.
    apply Forall_forall. intros c Hc. rewrite forallb_forall in Hupper.
    apply list_elem_of_In, Hupper in Hc. now apply negb_true_iff in Hc.
  - intros H. inversion H; subst r. clear H. split.
    + unfold normalizeLanguageCode. rewrite toLowerCase_of_upper.
      unfold toUpperCase at 1, toLowerCase at 1. rewrite !truthy_map, Htr, Hna.
      cbn [negb orb]. now rewrite Hfound.
    + right. apply Forall_forall. intros c Hc.
      apply list_elem_of_In in Hc. unfold toUpperCase in Hc.
      apply in_map_iff in Hc as (c0 & <- & _). apply upper_unit_not_lower.
Qed.

Lemma normalizeLanguageCode_idempotent_witness :
  normalizeLanguageCode (Some (lit "DE")) = VString (lit "DE")
  ∧ normalizeLanguageCode (Some (lit "PT-BR")) = VString (lit "PT-BR").
Proof.
  split.
  - apply (normalizeLanguageCode_idempotent (lit "GeRmAn") (lit "DE"));
      [repeat constructor|reflexivity].
  - apply (normalizeLanguageCode_idempotent (lit "pt-br") (lit "PT-BR"));
      [repeat constructor|reflexivity].
Defined.

Lemma getTimestamp_without_letters n now : n <= 0 → getTimestamp n now = now.
Proof. intros Hn. unfold getTimestamp. now rewrite Z.max_l by lia. Qed.

Lemma next_multiple_monotone m a b :
  0 < m → a <= b → a - a mod m + m <= b - b mod m + m.
Proof.
  intros Hm Hab.
  pose proof (Z.div_le_mono a b m Hm Hab) as Hdiv.
  pose proof (Z.div_mod a m ltac:(lia)) as Ha.
  pose proof (Z.div_mod b m ltac:(lia)) as Hb.
  replace (a - a mod m) with (m * (a / m)) by lia.
  replace (b - b mod m) with (m * (b / m)) by lia.
  nia.
Qed.

(** The timestamp that goes into the request is never behind the clock
    and never more than a second ahead of it, and it keeps the order of the
    clock: of two requests with the same count of letters, the later one
    does not carry the earlier timestamp. *)
Theorem getTimestamp_keeps_order n now now' :
  0 <= now → now <= now' → now' + 1000 <= MAX_SAFE_INTEGER →
  now <= getTimestamp n now <= now + 1000
  ∧ getTimestamp n now <= getTimestamp n now'.
Proof.
  intros H0 Hle Hsafe.
  destruct (Z.le_gt_cases n 0) as [Hn|Hn].
  { rewrite !getTimestamp_without_letters by exact Hn. lia. }
  destruct (Z.lt_ge_cases 1000 (n + 1)) as [Hbig|Hsmall].
  { rewrite !TimestampFacts.getTimestamp_large by exact Hbig. lia. }
  rewrite !TimestampFacts.getTimestamp_small by lia.
  pose proof (TimestampFacts.adjusted_bounds now (n + 1) ltac:(lia)) as Hb.
  pose proof (TimestampFacts.adjusted_bounds now' (n + 1) ltac:(lia)) as Hb'.
  destruct (Z.leb_spec (now - now mod (n + 1) + (n + 1)) MAX_SAFE_INTEGER); [|lia].
  destruct (Z.leb_spec (now' - now' mod (n + 1) + (n + 1)) MAX_SAFE_INTEGER); [|lia].
  split; [lia|]. apply next_multiple_monotone; lia.
Qed.

Lemma getTimestamp_keeps_order_witness :
  1700000000000 <= getTimestamp 6 1700000000000 <= 1700000001000
  ∧ getTimestamp 6 1700000000000 <= getTimestamp 6 1700000000005.
Proof.
  apply (getTimestamp_keeps_order 6 1700000000000 1700000000005);
    unfold MAX_SAFE_INTEGER; lia.
Defined.

Lemma upper_unit_is_not_i c : (upper_unit c =? 105)%N = false.
Proof.
  pose proof (upper_unit_not_lower c) as H.
  destruct (N.eqb_spec (upper_unit c) 105) as [E|_]; [|reflexivity].
  rewrite E in H. discriminate.
Qed.

(** [countLetterI] counts the code units that are a lower-case i: it adds
    up over the parts of a text, lies between 0 and the length of the text,
    and is 0 for a text in upper case, whose timestamp is therefore the
    clock reading itself. *)
Theorem countLetterI_counts a b now :
  countLetterI (a ++ b) = countLetterI a + countLetterI b
  ∧ 0 <= countLetterI a <= Z.of_nat (length a)
  ∧ countLetterI (toUpperCase a) = 0
  ∧ getTimestamp (countLetterI (toUpperCase a)) now = now.
Proof.
  assert (Hupper : countLetterI (toUpperCase a) = 0).
  { rewrite TimestampFacts.countLetterI_occurrences. unfold occurrences_of_i, toUpperCase.
    induction a as [|c a IH]; [reflexivity|]. simpl.
    rewrite upper_unit_is_not_i. exact IH. }
  rewrite Hupper.
  rewrite !TimestampFacts.countLetterI_occurrences. unfold occurrences_of_i.
  split; [rewrite List.filter_app, length_app; lia|].
  split; [pose proof (List.filter_length_le (fun c => (c =? 105)%N) a); lia|].
  split; reflexivity.
Qed.

(** Induction on texts two code units at a time, as the functions that
    look for surrogate pairs recurse. *)
Lemma pairwise_ind (P : jsstring → Prop) :
  P [] → (∀ c, P [c]) → (∀ c d s, P s → P (d :: s) → P (c :: d :: s)) →
  ∀ s, P s.
Proof.
  intros H0 H1 H2 s.
  assert (H : P s ∧ ∀ c, P (c :: s)); [|apply H].
  induction s as [|d s [IH1 IH2]]; [split; [exact H0|exact H1]|].
  split; [apply IH2|]. intros c. apply H2; [exact IH1|apply IH2].
Qed.

Lemma json_escape_unit_length c : (1 <= length (json_escape_unit c))%nat.
Proof.
  unfold json_escape_unit.
  repeat (match goal with |- context [if ?b then _ else _] => destruct b end);
    simpl; lia.
Qed.

Lemma json_escape_length s : (length s <= length (json_escape s))%nat.
Proof.
  induction s as [| c | c d s IH1 IH2] using pairwise_ind; [simpl; lia| |].
  - simpl. destruct (is_high_surrogate c); [simpl; lia|].
    destruct (is_low_surrogate c); [simpl; lia|].
    rewrite app_nil_r. apply json_escape_unit_length.
  - change (json_escape (c :: d :: s))
      with (if is_high_surrogate c then
              if is_low_surrogate d then c :: d :: json_escape s
              else unicode_escape c ++ json_escape (d :: s)
            else if is_low_surrogate c then unicode_escape c ++ json_escape (d :: s)
            else json_escape_unit c ++ json_escape (d :: s)).
    pose proof (json_escape_unit_length c).
    destruct (is_high_surrogate c); [destruct (is_low_surrogate d)|
                                     destruct (is_low_surrogate c)];
      rewrite ?length_app; cbn [length unicode_escape] in *; lia.
Qed.

Lemma utf8_length_at_least s : Z.of_nat (length s) <= utf8_length s.
Proof.
  induction s as [| c | c d s IH1 IH2] using pairwise_ind; [simpl; lia| |].
  - simpl. destruct (c <? 128)%N; [lia|]. destruct (c <? 2048)%N; [lia|].
    destruct (is_high_surrogate c); lia.
  - change (utf8_length (c :: d :: s))
      with (if (c <? 128)%N then 1 + utf8_length (d :: s)
            else if (c <? 2048)%N then 2 + utf8_length (d :: s)
            else if is_high_surrogate c then
                   if is_low_surrogate d then 4 + utf8_length s
                   else 3 + utf8_length (d :: s)
                 else 3 + utf8_length (d :: s)).
    cbn [length] in *.
    destruct (c <? 128)%N; [lia|]. destruct (c <? 2048)%N; [lia|].
    destruct (is_high_surrogate c); [destruct (is_low_surrogate d)|]; lia.
Qed.

Lemma lit_length k : length (lit k) = String.length k.
Proof. unfold lit. rewrite length_map. induction k; simpl; congruence. Qed.

Lemma quoted_length k : length (quoted k) = S (S (String.length k)).
Proof.
  unfold quoted. cbn [length]. rewrite length_app, lit_length. cbn [length]. lia.
Qed.

Lemma json_object_2_length k1 v1 k2 v2 :
  length (json_object [(k1, Some v1); (k2, Some v2)])
  = (9 + String.length k1 + length v1 + String.length k2 + length v2)%nat.
Proof.
  unfold json_object; cbn [omap list_omap json_member join];
    rewrite !length_app, ?quoted_length, ?lit_length; cbn [String.length]; lia.
Qed.

Lemma json_object_4_length k1 v1 k2 v2 k3 v3 k4 v4 :
  length (json_object [(k1, Some v1); (k2, Some v2); (k3, Some v3); (k4, Some v4)])
  = (17 + String.length k1 + length v1 + String.length k2 + length v2
     + String.length k3 + length v3 + String.length k4 + length v4)%nat.
Proof.
  unfold json_object; cbn [omap list_omap json_member join];
    rewrite !length_app, ?quoted_length, ?lit_length; cbn [String.length]; lia.
Qed.

Lemma json_array_1_length item : length (json_array [item]) = (2 + length item)%nat.
Proof.
  unfold json_array. cbn [join]. rewrite !length_app, !lit_length.
  cbn [String.length]. lia.
Qed.

Lemma json_string_length s : length (json_string s) = (2 + length (json_escape s))%nat.
Proof. unfold json_string. cbn [length]. rewrite length_app. cbn [length]. lia. Qed.

Lemma stringify_lang_length (l : Envelope.Lang) :
  (2 <= length (Envelope.stringify_lang l))%nat.
Proof.
  unfold Envelope.stringify_lang.
  destruct (json_value (Envelope.source_lang_user_selected l)) as [a|],
           (json_value (Envelope.target_lang l)) as [b|];
    [rewrite json_object_2_length; lia| | |reflexivity];
    unfold json_object; cbn [omap list_omap json_member join];
    rewrite !length_app, ?quoted_length, ?lit_length; cbn [String.length]; lia.
Qed.

(** The length of a serialised envelope with one text, from below. *)
Lemma stringify_length_of (d : Envelope.RequestData) item :
  Envelope.texts (Envelope.params d) = [item] →
  (length (json_escape (Envelope.text item)) + 126
     + length (json_escape (Envelope.jsonrpc d))
     + length (json_escape (Envelope.method d))
     + length (json_escape (Envelope.splitting (Envelope.params d)))
   <= length (Envelope.stringify d))%nat.
Proof.
  intros Hitem. unfold Envelope.stringify, Envelope.stringify_params.
  rewrite Hitem. cbn [List.map]. unfold Envelope.stringify_text.
  pose proof (stringify_lang_length (Envelope.lang (Envelope.params d))).
  rewrite !json_object_4_length, json_array_1_length, json_object_2_length,
    !json_string_length.
  cbn [String.length]. lia.
Qed.

(** The serialised envelope holds the escaped text and 153 code units of
    fixed structure at the least. *)
Lemma stringify_length alts t data now1 rand now2 requestData :
  requestEnvelope alts t data now1 rand now2 = inr requestData →
  (length (json_escape t) + 153 <= length (Envelope.stringify requestData))%nat.
Proof.
  intros Henvelope.
  apply SpacingFacts.requestEnvelope_returns in Henvelope
    as (source & target & _ & _ & ->).
  match goal with
  | |- (_ <= length (Envelope.stringify ?d))%nat =>
      pose proof (stringify_length_of d
                    {| Envelope.text := t; Envelope.requestAlternatives := alts |}
                    eq_refl) as H
  end.
  cbn [Envelope.jsonrpc Envelope.method Envelope.splitting Envelope.params] in H.
  change (length (json_escape (lit "2.0"))) with 3%nat in H.
  change (length (json_escape (lit "LMT_handle_texts"))) with 16%nat in H.
  change (length (json_escape (lit "newlines"))) with 8%nat in H.
  cbn [Envelope.text] in H. lia.
Qed.

(** A body that [buildRequestBody] returns encodes to at least 154 bytes
    more than the text has code units, and it respects both limits: the
    text is no longer than [MAX_TEXT_LENGTH] and the body no larger than
    [MAX_REQUEST_SIZE]. So a text is rejected as soon as its length comes
    within 153 of [MAX_REQUEST_SIZE], whatever [MAX_TEXT_LENGTH] allows. *)
Theorem payload_exceeds_text limits alts data now1 rand now2 out trimmedText :
  buildRequestBody limits alts (Some data) now1 rand now2 = inr out →
  text data = VString trimmedText →
  str_length trimmedText + 154 <= utf8_length out
  ∧ utf8_length out <= MAX_REQUEST_SIZE limits
  ∧ str_length trimmedText <= MAX_TEXT_LENGTH limits.
Proof.
  intros Hout Htext.
  assert (Hlimits : utf8_length out <= MAX_REQUEST_SIZE limits
                    ∧ str_length trimmedText <= MAX_TEXT_LENGTH limits).
  { unfold buildRequestBody in Hout. rewrite Htext in Hout.
    destruct (_ || _); [discriminate|].
    destruct (negb (truthy trimmedText)); [discriminate|].
    destruct (Z.ltb_spec (MAX_TEXT_LENGTH limits) (str_length trimmedText));
      [discriminate|].
    destruct (requestEnvelope alts trimmedText data now1 rand now2)
      as [e|requestData]; [discriminate|].
    cbv zeta in Hout.
    destruct (getTimestamp (countLetterI trimmedText) now2 <=? 0); [discriminate|].
    destruct (Z.ltb_spec (MAX_REQUEST_SIZE limits)
                (utf8_length (formatRequestString requestData)));
      [discriminate|].
    inversion Hout; subst. split; assumption. }
  split; [|exact Hlimits].
  destruct (SpacingFacts.buildRequestBody_returns _ _ _ _ _ _ _ Hout)
    as (t' & requestData & Ht' & Henvelope & ->).
  rewrite Htext in Ht'. inversion Ht'; subst t'. clear Ht'.
  destruct (SpacingFacts.stringify_shape _ _ _ _ _ _ _ Henvelope)
    as [_ [tail Htail]].
  pose proof (stringify_length _ _ _ _ _ _ _ Henvelope) as Hlen.
  rewrite Htail in Hlen.
  pose proof (json_escape_length trimmedText) as Hesc.
  assert (Hform : (length (envelope_head ++ spacing_pattern ++ tail) + 1
                   <= length (formatRequestString requestData))%nat).
  { unfold formatRequestString. rewrite Htail.
    destruct (spaced_id _); rewrite SpacingFacts.replace_after_head;
      rewrite !length_app; cbn [length spaced_form compact_form spacing_pattern];
      simpl; lia. }
  pose proof (utf8_length_at_least (formatRequestString requestData)) as Hutf.
  unfold str_length. lia.
Qed.

Lemma payload_exceeds_text_witness :
  str_length (lit "Hi") + 154 <= utf8_length example_body_24.
Proof.
  apply (payload_exceeds_text example_limits 3 example_request
           1700000000000 24 1700000000123 example_body_24 (lit "Hi"));
    vm_compute; reflexivity.
Defined.

Lemma user_agent_acceptable i :
  HeaderReference.acceptable_value (nth i ProxyManager.USER_AGENTS []) = true.
Proof. destruct i as [|[|[|[|[|[|i]]]]]]; reflexivity. Qed.

Lemma accept_language_acceptable i :
  HeaderReference.acceptable_value (nth i ProxyManager.ACCEPT_LANGUAGES []) = true.
Proof. destruct i as [|[|[|[|[|[|i]]]]]]; reflexivity. Qed.

(** The headers that the pipeline itself supplies are accepted by the
    [Headers] class, for every draw of the fingerprint. *)
Lemma base_headers_acceptable ua lang :
  HeaderReference.init_ok ∅
    (Fetch.InitRecord
       (base_headers (ProxyManager.generateBrowserFingerprint ua lang) None)).
Proof.
  pose proof (user_agent_acceptable ua) as Hua.
  pose proof (accept_language_acceptable lang) as Hlang.
  unfold HeaderReference.init_ok.
  change (base_headers (ProxyManager.generateBrowserFingerprint ua lang) None)
    with [(lit "Content-Type", lit "application/json; charset=utf-8");
          (lit "User-Agent", nth ua ProxyManager.USER_AGENTS []);
          (lit "Accept-Language", nth lang ProxyManager.ACCEPT_LANGUAGES []);
          (lit "Accept", lit "application/json, text/plain, */*");
          (lit "Accept-Encoding", lit "gzip, deflate, br");
          (lit "DNT", lit "1");
          (lit "Connection", lit "keep-alive");
          (lit "Upgrade-Insecure-Requests", lit "1")].
  repeat (constructor; [split; [reflexivity|first [exact Hua|exact Hlang|reflexivity]]|]).
  constructor.
Qed.

(** What [buildRequestBody] throws is an Error of its own or the
    TypeError of a language, never an abort. *)
Lemma buildRequestBody_error_name limits alts data now1 rand now2 e :
  buildRequestBody limits alts data now1 rand now2 = inl e →
  name e = lit "Error" ∨ name e = lit "TypeError".
Proof.
  unfold buildRequestBody. destruct data as [d|];
    [|intros H; inversion H; left; reflexivity].
  destruct (_ || _); [intros H; inversion H; left; reflexivity|].
  destruct (text d) as [| |b|z|t|f|]; try (intros H; inversion H; left; reflexivity).
  destruct (negb (truthy t)); [intros H; inversion H; left; reflexivity|].
  destruct (_ <? _); [intros H; inversion H; left; reflexivity|].
  destruct (requestEnvelope alts t d now1 rand now2) as [e'|requestData] eqn:Henvelope.
  { intros H. inversion H; subst. right.
    exact (proj2 (RequestBodyFacts.requestEnvelope_thrown _ _ _ _ _ _ _ Henvelope)). }
  cbv zeta.
  destruct (_ <=? 0); [intros H; inversion H; left; reflexivity|].
  destruct (_ <? _); [intros H; inversion H; left; reflexivity|discriminate].
Qed.

Section Pipeline.
Variable PAYLOAD_LIMITS : PayloadLimits.
Variable REQUEST_ALTERNATIVES : Z.
Variable CF_HEADER_PREFIX : jsstring.
Variable REQUEST_TIMEOUT_SECONDS : Z.
Variable API_URL : jsstring.

Local Abbreviation the_makeRequest :=
  (makeRequest PAYLOAD_LIMITS REQUEST_ALTERNATIVES CF_HEADER_PREFIX
     REQUEST_TIMEOUT_SECONDS).
Local Abbreviation the_attempt :=
  (attempt PAYLOAD_LIMITS REQUEST_ALTERNATIVES CF_HEADER_PREFIX
     REQUEST_TIMEOUT_SECONDS API_URL).

(** Without custom headers and with a client address that is absent,
    empty or a header value, the preparation of the headers cannot fail,
    whatever the prefix and the draw of the fingerprint: [makeRequest]
    fails only where building the body fails, and otherwise ends as the
    fetch does, an abort being turned into a timeout error with status 408. *)
Theorem makeRequest_without_custom_headers params config endpoint ua lang w :
  config ≫= customHeader = None →
  HeaderReference.clientIp_ok (config ≫= clientIP) →
  the_makeRequest params config endpoint
    (ProxyManager.generateBrowserFingerprint ua lang) w
  = match buildRequestBody PAYLOAD_LIMITS REQUEST_ALTERNATIVES (Some params)
            (paramsTime w) (randomComponent w) (timestampTime w) with
    | inl e => inl e
    | inr _ => fetch_outcome REQUEST_TIMEOUT_SECONDS endpoint (fetched w)
    end.
Proof.
  intros Hcustom Hip. unfold makeRequest.
  destruct (buildRequestBody PAYLOAD_LIMITS REQUEST_ALTERNATIVES (Some params)
              (paramsTime w) (randomComponent w) (timestampTime w)) as [e|body] eqn:Hbody.
  - destruct (buildRequestBody_error_name _ _ _ _ _ _ _ Hbody) as [Hname|Hname];
      rewrite Hname; reflexivity.
  - rewrite Hcustom.
    destruct (HeaderFacts.prepareRequestHeaders_result CF_HEADER_PREFIX
                (Fetch.InitRecord
                   (base_headers (ProxyManager.generateBrowserFingerprint ua lang) None))
                (config ≫= clientIP) ∅ (map_Forall_empty _)
                (base_headers_acceptable ua lang) Hip)
      as (filled & _ & _ & Hrun).
    unfold base_headers in Hrun. cbn [default] in *. rewrite Hrun. cbn [fst].
    unfold fetch_outcome. destruct (fetched w); reflexivity.
Qed.

Lemma makeRequest_returns params config endpoint fingerprint w response :
  the_makeRequest params config endpoint fingerprint w = inr response →
  (∃ body, buildRequestBody PAYLOAD_LIMITS REQUEST_ALTERNATIVES (Some params)
             (paramsTime w) (randomComponent w) (timestampTime w) = inr body)
  ∧ fetched w = inr response.
Proof.
  unfold makeRequest.
  destruct (buildRequestBody PAYLOAD_LIMITS REQUEST_ALTERNATIVES (Some params)
              (paramsTime w) (randomComponent w) (timestampTime w)) as [e|body].
  { destruct (str_eqb (name e) (lit "AbortError")); discriminate. }
  destruct (fst (ProxyManager.prepareRequestHeaders _ _ _ _)) as [e|l].
  { destruct (str_eqb (name e) (lit "AbortError")); discriminate. }
  destruct (fetched w) as [e|r].
  { destruct (str_eqb (name e) (lit "AbortError")); discriminate. }
  intros H. inversion H; subst. split; [eauto|reflexivity].
Qed.

(** What a successful attempt implies: the limiter let it through and the
    store is as the limiter left it; the body was built and the fetch
    returned a response with a status from 200 to 299, whose JSON is an
    object without an error member, with a first text that is not null and
    with a language. The result is then the status 200 with that text, the
    id of the answer, the language in upper case and the normalised target
    language. *)
Theorem attempt_success params config w st r st' :
  the_attempt params config w st = (inr r, st') →
  RateLimit.allowed (fst (admission API_URL config w st)) = true
  ∧ st' = snd (admission API_URL config w st)
  ∧ ∃ body response result first rest lang target,
      buildRequestBody PAYLOAD_LIMITS REQUEST_ALTERNATIVES (Some params)
        (paramsTime w) (randomComponent w) (timestampTime w) = inr body
      ∧ fetched w = inr response
      ∧ 200 <= response_status response <= 299
      ∧ response_json response = inr (Some result)
      ∧ raw_error result = None
      ∧ raw_result result ≫= result_texts = Some (Some first :: rest)
      ∧ raw_result result ≫= result_lang = Some lang
      ∧ normalizeLanguageCode_value (target_lang params) = inr target
      ∧ r = createStandardResponse 200 (Some first) (raw_id result)
              (VString (toUpperCase lang)) target.
Proof.
  unfold attempt. cbv zeta.
  destruct (admission API_URL config w st) as [result1 st1]. cbn [fst snd].
  destruct (RateLimit.allowed result1); cbn [negb]; [|discriminate].
  destruct (makeRequest _ _ _ _ _ _ _ _) as [e|response] eqn:Hrequest;
    [discriminate|].
  destruct (makeRequest_returns _ _ _ _ _ _ Hrequest) as [[body Hbody] Hfetched].
  destruct (response_ok response) eqn:Hok; cbn [negb]; [|discriminate].
  destruct (response_json response) as [e|[result|]] eqn:Hjson; try discriminate.
  destruct (raw_error result) eqn:Herror; [discriminate|].
  destruct (raw_result result ≫= result_texts) as [[|[first|] rest]|] eqn:Htexts;
    try discriminate.
  destruct (raw_result result ≫= result_lang) as [lang|] eqn:Hlang; [|discriminate].
  destruct (normalizeLanguageCode_value (target_lang params)) as [e|target] eqn:Htarget;
    [discriminate|].
  intros H. inversion H; subst. split; [reflexivity|]. split; [reflexivity|].
  exists body, response, result, first, rest, lang, target.
  unfold response_ok in Hok. apply andb_true_iff in Hok as [H1 H2].
  apply Z.leb_le in H1, H2. repeat split; assumption.
Qed.

(** The rate-limit store after an attempt is the store that the admission
    left, however the attempt ends; without an environment that is the
    store the attempt found, the limiter not being consulted. *)
Theorem attempt_store_is_admission_store params config w st :
  snd (the_attempt params config w st) = snd (admission API_URL config w st)
  ∧ (config ≫= env = None → snd (the_attempt params config w st) = st).
Proof.
  assert (Hstore : snd (the_attempt params config w st)
                   = snd (admission API_URL config w st)).
  { unfold attempt. cbv zeta.
    destruct (admission API_URL config w st) as [result1 st1]. cbn [snd].
    destruct (RateLimit.allowed result1); cbn [negb]; [|reflexivity].
    destruct (makeRequest _ _ _ _ _ _ _ _) as [e|response]; [reflexivity|].
    destruct (response_ok response); cbn [negb]; [|reflexivity].
    destruct (response_json response) as [e|[result|]]; try reflexivity.
    destruct (raw_error result); [reflexivity|].
    destruct (raw_result result ≫= result_texts) as [[|[first|] rest]|];
      try reflexivity.
    destruct (raw_result result ≫= result_lang); [|reflexivity].
    destruct (normalizeLanguageCode_value (target_lang params)); reflexivity. }
  split; [exact Hstore|].
  intros Henv. rewrite Hstore. unfold admission. now rewrite Henv.
Qed.

(** An attempt that the limiter refuses, or whose body cannot be built,
    ends before anything is sent: its outcome is the same whatever [fetch]
    would have answered. *)
Theorem attempt_stops_before_fetch params config w st f :
  RateLimit.allowed (fst (admission API_URL config w st)) = false
  ∨ (∃ e, buildRequestBody PAYLOAD_LIMITS REQUEST_ALTERNATIVES (Some params)
            (paramsTime w) (randomComponent w) (timestampTime w) = inl e) →
  the_attempt params config (with_fetched w f) st = the_attempt params config w st.
Proof.
  intros Hstop. unfold attempt. cbv zeta.
  change (admission API_URL config (with_fetched w f) st)
    with (admission API_URL config w st).
  change (resolveEndpoint API_URL config (with_fetched w f))
    with (resolveEndpoint API_URL config w).
  destruct (admission API_URL config w st) as [result1 st1]. cbn [fst] in Hstop.
  destruct (RateLimit.allowed result1); cbn [negb]; [|reflexivity].
  destruct Hstop as [Hrefused|[e He]]; [discriminate|].
  unfold makeRequest. cbn [paramsTime randomComponent timestampTime with_fetched].
  rewrite He. reflexivity.
Qed.

End Pipeline.

Lemma makeRequest_without_custom_headers_witness :
  makeRequest example_limits 3 (lit "cf-") 30 example_request (Some plain_config)
    (lit "https://www2.deepl.com/jsonrpc")
    (ProxyManager.generateBrowserFingerprint 1 2) (example_world 0)
  = fetched (example_world 0).
Proof.
  rewrite (makeRequest_without_custom_headers example_limits 3 (lit "cf-") 30
             example_request (Some plain_config) (lit "https://www2.deepl.com/jsonrpc")
             1 2 (example_world 0) eq_refl (fun _ => eq_refl)).
  vm_compute. reflexivity.
Defined.

Lemma attempt_success_witness :
  ∃ body response result first rest lang target,
    buildRequestBody example_limits 3 (Some example_request)
      (paramsTime (example_world 0)) (randomComponent (example_world 0))
      (timestampTime (example_world 0)) = inr body
    ∧ fetched (example_world 0) = inr response
    ∧ 200 <= response_status response <= 299
    ∧ response_json response = inr (Some result)
    ∧ raw_error result = None
    ∧ raw_result result ≫= result_texts = Some (Some first :: rest)
    ∧ raw_result result ≫= result_lang = Some lang
    ∧ normalizeLanguageCode_value (target_lang example_request) = inr target
    ∧ createStandardResponse 200 (Some (lit "Hallo")) (Some 123)
        (VString (lit "EN")) (VString (lit "DE"))
      = createStandardResponse 200 (Some first) (raw_id result)
          (VString (toUpperCase lang)) target.
Proof.
  assert (Hrun : attempt example_limits 3 (lit "cf-") 30
                   (lit "https://www2.deepl.com/jsonrpc") example_request
                   (Some plain_config) (example_world 0) RateReference.empty_store
                 = (inr (createStandardResponse 200 (Some (lit "Hallo")) (Some 123)
                           (VString (lit "EN")) (VString (lit "DE"))),
                    RateReference.empty_store)) by (vm_compute; reflexivity).
  exact (proj2 (proj2 (attempt_success _ _ _ _ _ _ _ _ _ _ _ Hrun))).
Defined.

Lemma attempt_stops_before_fetch_witness :
  attempt example_limits 3 (lit "cf-") 30 (lit "https://www2.deepl.com/jsonrpc")
    example_request (Some example_config)
    (with_fetched (example_world 0) (inl (new_Error (lit "unreachable"))))
    exhausted_client_store
  = attempt example_limits 3 (lit "cf-") 30 (lit "https://www2.deepl.com/jsonrpc")
      example_request (Some example_config) (example_world 0) exhausted_client_store.
Proof.
  apply (attempt_stops_before_fetch example_limits 3 (lit "cf-") 30
           (lit "https://www2.deepl.com/jsonrpc") example_request
           (Some example_config) (example_world 0) exhausted_client_store).
  left. vm_compute. reflexivity.
Defined.




(** Seventy callers without a proxy, each with a bucket of its own that is
    full: sixty of them get through. *)
Example direct_callers_are_cut_off :
  RateExtra.served (fst (admissions_of (lit "https://www2.deepl.com/jsonrpc")
                           example_callers RateReference.empty_store)) = 60%nat.
Proof. vm_compute. reflexivity. Qed.

End QueryMore.

(** ** The earlier edition of [prepareRequestHeaders] *)

Module EarlierFacts.
Import JS Value Fetch HeaderReference HeaderFacts ProxyManagerEarlier.

Section Loop.
Variable sel : jsstring → bool.
Hypothesis sel_lower : ∀ n, sel (toLowerCase n) = sel n.

Lemma sel_same_name a b : same_name a b = true → sel a = sel b.
Proof.
  intros H. apply same_name_eq in H.
  rewrite <- (sel_lower a), <- (sel_lower b). now rewrite H.
Qed.

Lemma strip_with_filter names : ∀ hl,
  strip_with sel names hl
  = List.filter
      (fun h => negb (existsb (fun n => sel n && same_name (fst h) n) names)) hl.
Proof.
  unfold strip_with. induction names as [|n names IH]; intros hl; simpl.
  - induction hl as [|h hl IHl]; simpl; [reflexivity|]. now rewrite <- IHl.
  - rewrite IH. destruct (sel n) eqn:E; simpl; [|reflexivity].
    unfold delete_all. rewrite filter_filter. apply filter_ext.
    intros h. now rewrite negb_orb.
Qed.

Lemma strip_with_keys hl :
  strip_with sel (keys hl) hl = List.filter (fun h => negb (sel (fst h))) hl.
Proof.
  rewrite strip_with_filter. apply filter_ext_in.
  intros h Hin. f_equal.
  destruct (sel (fst h)) eqn:E.
  - apply existsb_exists. exists (toLowerCase (fst h)). split.
    + apply keys_In. eauto.
    + rewrite sel_lower, E. apply same_name_lower.
  - apply not_true_is_false. intros Hex.
    apply existsb_exists in Hex as (n & _ & Hn).
    apply andb_true_iff in Hn as [Hs Hsame].
    rewrite (sel_same_name _ _ Hsame) in E. congruence.
Qed.

Lemma for_of_strip_with l names : ∀ (h : heap) hl,
  h !! l = Some hl → Forall (fun n => acceptable_name n = true) names →
  for_of names (fun name => if sel name then Headers_delete l name else ret tt) h
  = (inr tt, <[l := strip_with sel names hl]> h).
Proof.
  induction names as [|n names IH]; intros h hl Hl Hnames.
  - simpl. unfold ret. now rewrite insert_id.
  - inversion Hnames as [|? ? Hn Hrest]; subst.
    change (strip_with sel (n :: names) hl)
      with (strip_with sel names (if sel n then delete_all hl n else hl)).
    simpl. destruct (sel n) eqn:E.
    + erewrite bind_returned; cycle 1.
      { unfold Headers_delete, update, delete. rewrite Hl. cbn [default].
        unfold acceptable_name in Hn. rewrite Hn. reflexivity. }
      rewrite (IH _ (delete_all hl n)); [|apply lookup_insert_eq|exact Hrest].
      now rewrite insert_insert_eq.
    + erewrite bind_returned; [|reflexivity]. now apply IH.
Qed.

Lemma get_filter_sel hl n :
  get (List.filter (fun h => negb (sel (fst h))) hl) n
  = if sel n then None else get hl n.
Proof.
  assert (Hsame : ∀ h : header, same_name (fst h) n = true → sel (fst h) = sel n)
    by (intros h; apply sel_same_name).
  unfold get, contains, values_of.
  rewrite existsb_filter, filter_filter.
  destruct (sel n) eqn:E.
  - replace (existsb _ hl) with false; [reflexivity|].
    symmetry. apply not_true_is_false. intros H.
    apply existsb_exists in H as (h & _ & H). apply andb_true_iff in H as [Hk Hs].
    rewrite (Hsame h Hs) in Hk. discriminate.
  - rewrite (existsb_agree _ (fun h : header => same_name (fst h) n)); cycle 1.
    { intros h. destruct (same_name (fst h) n) eqn:Es; [|apply andb_false_r].
      now rewrite (Hsame h Es). }
    rewrite (filter_ext _ (fun h : header => same_name (fst h) n)); [reflexivity|].
    intros h. destruct (same_name (fst h) n) eqn:Es; [|apply andb_false_r].
    now rewrite (Hsame h Es).
Qed.

End Loop.

Lemma internal_lower n : internal (toLowerCase n) = internal n.
Proof. unfold internal. now rewrite toLowerCase_idem. Qed.

(** The loop over the entries is the loop over their names. *)
Lemma for_of_entries (entries : list header) (body : jsstring → M unit) (h : heap) :
  for_of entries (fun entry => body (fst entry)) h
  = for_of (List.map fst entries) body h.
Proof.
  revert h. induction entries as [|e entries IH]; intros h; [reflexivity|].
  simpl. unfold bind. destruct (body (fst e) h) as [[err|[]] h1]; [reflexivity|].
  apply IH.
Qed.

Lemma same_name_trans a b c :
  same_name a b = true → same_name b c = true → same_name a c = true.
Proof. rewrite !same_name_eq. congruence. Qed.

Lemma same_name_apart a b c :
  same_name a b = true → same_name c b = false → same_name a c = false.
Proof.
  intros Hab Hcb. apply not_true_is_false. intros Hac.
  rewrite same_name_sym in Hac.
  rewrite (same_name_trans c a b Hac Hab) in Hcb. discriminate.
Qed.

Lemma filter_delete_all_other hl n m :
  same_name m n = false →
  List.filter (fun h => same_name (fst h) m) (delete_all hl n)
  = List.filter (fun h => same_name (fst h) m) hl.
Proof.
  intros Hmn. unfold delete_all. rewrite filter_filter. apply filter_ext.
  intros h. destruct (same_name (fst h) m) eqn:E; [|apply andb_false_r].
  rewrite andb_true_r. apply negb_true_iff.
  apply not_true_is_false. intros Hn.
  rewrite same_name_sym in E.
  rewrite (same_name_trans m (fst h) n E Hn) in Hmn. discriminate.
Qed.

Lemma filter_delete_all_same hl n :
  List.filter (fun h => same_name (fst h) n) (delete_all hl n) = [].
Proof.
  unfold delete_all. rewrite filter_filter.
  induction hl as [|h hl IH]; [reflexivity|]. simpl.
  destruct (same_name (fst h) n); simpl; exact IH.
Qed.

Lemma get_as_filter hl n :
  get hl n
  = match List.filter (fun h => same_name (fst h) n) hl with
    | [] => None
    | l => Some (join (lit ", ") (List.map snd l))
    end.
Proof.
  unfold get, contains, values_of.
  induction hl as [|h hl IH]; [reflexivity|]. simpl.
  destruct (same_name (fst h) n); [reflexivity|]. exact IH.
Qed.

(** Setting a name leaves one header of that name, with the value set. *)
Lemma get_set_first hl n v : get (set_first hl n v) n = Some v.
Proof.
  rewrite get_as_filter. induction hl as [|h hl IH]; simpl.
  - replace (same_name n n) with true; [reflexivity|].
    symmetry. now apply same_name_eq.
  - destruct (same_name (fst h) n) eqn:E; simpl; rewrite E; [|exact IH].
    now rewrite filter_delete_all_same.
Qed.

(** Setting a name leaves the headers of every other name as they were. *)
Lemma get_set_first_other hl n v m :
  same_name m n = false → get (set_first hl n v) m = get hl m.
Proof.
  intros Hmn. rewrite !get_as_filter.
  replace (List.filter (fun h => same_name (fst h) m) (set_first hl n v))
    with (List.filter (fun h => same_name (fst h) m) hl); [reflexivity|].
  induction hl as [|h hl IH]; simpl.
  - rewrite same_name_sym. now rewrite Hmn.
  - destruct (same_name (fst h) n) eqn:E; simpl.
    + rewrite (same_name_apart _ _ _ E Hmn).
      now rewrite filter_delete_all_other.
    + destruct (same_name (fst h) m); [f_equal|]; exact IH.
Qed.

(** The outcome of the earlier edition on an argument that the class
    accepts. *)
Lemma earlier_result init clientIp (h : heap) :
  heap_ok h → init_ok h init → clientIp_ok clientIp →
  ∃ filled,
    fill (pairs_of h init) [] = inr filled
    ∧ prepareRequestHeaders init clientIp h
      = (inr (fresh (dom h)),
         <[fresh (dom h) := set_injected (kept_earlier filled) clientIp]> h).
Proof.
  intros Hh Hinit Hip.
  destruct (fill_accepted (pairs_of h init) [] (List.Forall_nil _)
              (pairs_of_acceptable h init Hh Hinit))
    as (filled & Hfill & Hstored & Hrel).
  cbn [app] in Hfill.
  exists filled. split; [exact Hfill|].
  unfold prepareRequestHeaders.
  erewrite bind_returned; [|rewrite new_Headers_eq, Hfill; reflexivity].
  erewrite bind_returned; cycle 1.
  { unfold Headers_entries, read. unfold bind, ret.
    rewrite lookup_insert_eq. reflexivity. }
  erewrite bind_returned; cycle 1.
  { cbv zeta.
    rewrite (for_of_entries _
               (fun name => if internal name
                            then Headers_delete (fresh (dom h)) name else ret tt)).
    apply (for_of_strip_with internal _ _ _ filled);
      [apply lookup_insert_eq|now apply keys_acceptable]. }
  change (List.map fst (sort_and_combine (default [] (Some filled))))
    with (keys filled).
  rewrite (strip_with_keys internal internal_lower), insert_insert_eq.
  fold (kept_earlier filled).
  destruct clientIp as [ip|]; simpl;
    [|erewrite bind_returned; [|reflexivity]; reflexivity].
  destruct (truthy ip) eqn:Etr;
    [|erewrite bind_returned; [|reflexivity]; reflexivity].
  specialize (Hip Etr). unfold acceptable_value in Hip.
  apply andb_true_iff in Hip as [Hb Hv].
  erewrite bind_returned; cycle 1.
  { unfold Headers_set, update, set. rewrite lookup_insert_eq. cbn [default].
    cbv zeta. rewrite Hb, Hv. reflexivity. }
  unfold ret. now rewrite insert_insert_eq.
Qed.

Lemma denied_not_internal n :
  toLowerCase n ∈ ProxyManager.removeList → internal n = false.
Proof.
  unfold internal. intros Hin.
  apply list_elem_of_In in Hin. simpl in Hin.
  repeat (destruct Hin as [<-|Hin]; [reflexivity|]). destruct Hin.
Qed.

Lemma stripped_cf n :
  ProxyManager.stripped (lit "cf-") n
  = internal n || bool_decide (toLowerCase n ∈ ProxyManager.removeList).
Proof. reflexivity. Qed.

(** The two editions side by side, with the prefix cf-, on an argument
    that the class accepts. Both return a new object at the same place.
    Under a name outside the deny-list they hold the same. Under a
    deny-listed name other than the dedicated one the earlier edition
    holds what the caller sent and the current one nothing. Under the
    dedicated name both hold the supplied address; without one the current
    edition holds nothing, and the earlier edition what the caller sent. *)
Theorem earlier_edition_compared init clientIp (h : heap) :
  heap_ok h → init_ok h init → clientIp_ok clientIp →
  ∃ filled current earlier,
    fill (pairs_of h init) [] = inr filled
    ∧ ProxyManager.prepareRequestHeaders (lit "cf-") init clientIp h
      = (inr (fresh (dom h)), <[fresh (dom h) := current]> h)
    ∧ prepareRequestHeaders init clientIp h
      = (inr (fresh (dom h)), <[fresh (dom h) := earlier]> h)
    ∧ (∀ n, toLowerCase n ∉ ProxyManager.removeList → get earlier n = get current n)
    ∧ (∀ n, toLowerCase n ∈ ProxyManager.removeList →
         same_name n REAL_CLIENT_IP_HEADER = false →
         get earlier n = get filled n ∧ get current n = None)
    ∧ get current REAL_CLIENT_IP_HEADER = expected_real_client_ip clientIp
    ∧ get earlier REAL_CLIENT_IP_HEADER
      = match expected_real_client_ip clientIp with
        | Some ip => Some ip
        | None => get filled REAL_CLIENT_IP_HEADER
        end.
Proof.
  intros Hh Hinit Hip.
  destruct (prepareRequestHeaders_result (lit "cf-") init clientIp h Hh Hinit Hip)
    as (filled & Hfill & _ & Hcurrent).
  destruct (earlier_result init clientIp h Hh Hinit Hip)
    as (filled' & Hfill' & Hearlier).
  assert (filled' = filled) by congruence. subst filled'.
  exists filled, (kept (lit "cf-") filled ++ injected clientIp),
    (set_injected (kept_earlier filled) clientIp).
  split; [exact Hfill|]. split; [exact Hcurrent|]. split; [exact Hearlier|].
  assert (Hset : ∀ n, same_name n REAL_CLIENT_IP_HEADER = false →
            get (set_injected (kept_earlier filled) clientIp) n
            = if internal n then None else get filled n).
  { intros n Hn. unfold set_injected.
    destruct clientIp as [ip|]; [destruct (truthy ip)|];
      rewrite ?(get_set_first_other _ _ _ _ Hn);
      apply (get_filter_sel internal internal_lower). }
  assert (Hput : ∀ n, same_name n REAL_CLIENT_IP_HEADER = false →
            get (kept (lit "cf-") filled ++ injected clientIp) n
            = if ProxyManager.stripped (lit "cf-") n then None else get filled n).
  { intros n Hn. rewrite (get_beside_injection _ _ _ Hn). apply get_kept. }
  split.
  { intros n Hout.
    assert (Hn : same_name n REAL_CLIENT_IP_HEADER = false).
    { apply not_true_is_false. intros Hsame. apply same_name_eq in Hsame.
      apply Hout. rewrite Hsame. apply list_elem_of_In. vm_compute. tauto. }
    rewrite (Hset n Hn), (Hput n Hn), stripped_cf.
    rewrite (bool_decide_eq_false_2 _ Hout). now rewrite orb_false_r. }
  split.
  { intros n Hin Hn. rewrite (Hset n Hn), (Hput n Hn), stripped_cf.
    rewrite (denied_not_internal n Hin), (bool_decide_eq_true_2 _ Hin).
    split; reflexivity. }
  split; [apply get_after_injection|].
  unfold set_injected, expected_real_client_ip.
  destruct clientIp as [ip|]; [destruct (truthy ip)|];
    [apply get_set_first|..];
    apply (get_filter_sel internal internal_lower filled REAL_CLIENT_IP_HEADER).
Qed.

Lemma earlier_edition_compared_witness :
  ∃ filled current earlier,
    fill (pairs_of ∅ (InitRecord example_headers)) [] = inr filled
    ∧ ProxyManager.prepareRequestHeaders (lit "cf-") (InitRecord example_headers) None ∅
      = (inr (fresh (dom (∅ : heap))), <[fresh (dom (∅ : heap)) := current]> ∅)
    ∧ prepareRequestHeaders (InitRecord example_headers) None ∅
      = (inr (fresh (dom (∅ : heap))), <[fresh (dom (∅ : heap)) := earlier]> ∅)
    ∧ (∀ n, toLowerCase n ∉ ProxyManager.removeList → get earlier n = get current n)
    ∧ (∀ n, toLowerCase n ∈ ProxyManager.removeList →
         same_name n REAL_CLIENT_IP_HEADER = false →
         get earlier n = get filled n ∧ get current n = None)
    ∧ get current REAL_CLIENT_IP_HEADER = expected_real_client_ip None
    ∧ get earlier REAL_CLIENT_IP_HEADER
      = match expected_real_client_ip None with
        | Some ip => Some ip
        | None => get filled REAL_CLIENT_IP_HEADER
        end.
Proof.
  apply (earlier_edition_compared (InitRecord example_headers) None ∅).
  - apply map_Forall_empty.
  - apply example_headers_ok.
  - exact I.
Defined.

(** The earlier edition passes on an address header that the caller sent
    when no address is supplied; the current edition drops it. *)
Example earlier_edition_forwards_callers_header :
  real_client_ip (prepareRequestHeaders (InitRecord example_headers) None ∅)
  = Some (lit "192.0.2.66")
  ∧ real_client_ip
      (ProxyManager.prepareRequestHeaders (lit "cf-") (InitRecord example_headers)
         None ∅) = None.
Proof. split; vm_compute; reflexivity. Qed.

End EarlierFacts.
